(** * Delivery plan generation: knapsack selection and its orchestrator

    A shallow embedding of [internal/service/robot.go] (the selection
    algorithms and [GenerateDeliveryPlan]) and of the two order-pool
    operations of [internal/repository/order.go] it relies on. *)

From Stdlib Require Import ZArith Lia Bool.
From Stdlib Require Import Floats.SpecFloat.
From stdpp Require Import base option list list_numbers sorting strings.

Local Open Scope Z_scope.

(** ** Go's [int]: 64-bit two's complement with wrap-around *)

Module GoInt.

Definition min_int : Z := - 2 ^ 63.
Definition max_int : Z := 2 ^ 63 - 1.

(** The representable range of [int]. *)
Definition in_range (x : Z) : Prop := min_int <= x <= max_int.

(** Reduction of a mathematical integer to its 64-bit signed value. *)
Definition wrap (x : Z) : Z := (x + 2 ^ 63) mod 2 ^ 64 - 2 ^ 63.

Definition add (a b : Z) : Z := wrap (a + b).
Definition sub (a b : Z) : Z := wrap (a - b).

End GoInt.

(** ** Outcomes of running Go code: a value or a run-time panic *)

Inductive panic : Type :=
  | IndexOutOfRange
  | MakesliceLenOutOfRange.

Inductive run (A : Type) : Type :=
  | Done (a : A)
  | Panicked (p : panic).
Arguments Done {A} a.
Arguments Panicked {A} p.

#[global] Instance run_ret : MRet run := fun A a => Done a.
#[global] Instance run_bind : MBind run := fun A B f m =>
  match m with
  | Done a => f a
  | Panicked p => Panicked p
  end.

(** ** Slices: bounds-checked reads and writes, [make] *)

Module Slice.

(** [s[i]] as an expression: panics outside [0 <= i < len(s)]. *)
Definition get {A} (s : list A) (i : Z) : run A :=
  if i <? 0 then Panicked IndexOutOfRange
  else match s !! Z.to_nat i with
       | Some x => Done x
       | None => Panicked IndexOutOfRange
       end.

(** [s[i] = x]: panics outside [0 <= i < len(s)]. *)
Definition set {A} (s : list A) (i : Z) (x : A) : run (list A) :=
  if i <? 0 then Panicked IndexOutOfRange
  else if (Z.to_nat i <? length s)%nat then Done (<[Z.to_nat i := x]> s)
  else Panicked IndexOutOfRange.

(** [make([]T, len)]: a zeroed slice, panics on a negative length. The
    runtime also refuses a length beyond what it can allocate (a panic
    past its limit, a fatal error when memory runs out), which depends on
    the machine and is not modelled: a statement that has the dynamic
    program return is made for the tables of the exact path only, at most
    501 rows of at most 5001 cells. *)
Definition make {A} (zero : A) (len : Z) : run (list A) :=
  if len <? 0 then Panicked MakesliceLenOutOfRange
  else Done (replicate (Z.to_nat len) zero).

End Slice.

(** ** The data model *)

(** Modelled from the spec: [model.Order] is declared outside the files at
    hand; the selection code reads exactly these three fields, the
    identifier as [int64], weight and value as [int]. *)
Record Order : Type := mkOrder {
  OrderID : Z;
  Weight : Z;
  Value : Z;
}.

(** Modelled from the spec: [model.DeliveryPlan], with the four fields the
    composite literals of [robot.go] fill in. *)
Record DeliveryPlan : Type := mkPlan {
  RobotID : string;
  TotalWeight : Z;
  TotalValue : Z;
  Orders : list Order;
}.

(** The zero value [model.DeliveryPlan{}]. *)
Definition zero_plan : DeliveryPlan := mkPlan "" 0 0 [].

#[global] Instance Order_eq_dec : EqDecision Order.
Proof. solve_decision. Defined.

(** Go [error] values that travel through this code. *)
Inductive error : Type :=
  | Canceled
  | DeadlineExceeded
  | StorageFailure (msg : string).

(** A [context.Context] as the dynamic program sees it: polled at outer
    iteration [i], [ctx i] is [Some e] when [ctx.Done()] is closed at that
    moment, [e] being what [ctx.Err()] returns. *)
Definition Context : Type := Z → option error.

(** A context that is never cancelled. *)
Definition background : Context := fun _ => None.

(** A context already cancelled with [e] before the call. *)
Definition cancelled (e : error) : Context := fun _ => Some e.

(** ** selectOrdersDP *)

Module DP.

(** The two tables of the dynamic program. *)
Record tables : Type := mkTables {
  dp : list Z;
  keep : list (list bool);
}.

(** One pass of the body of the inner loop, at weight budget [w]. *)
Definition inner_body (order : Order) (i w : Z) (t : tables) : run tables :=
  below ← Slice.get (dp t) (GoInt.sub w (Weight order));
  let includeValue := GoInt.add below (Value order) in
  cur ← Slice.get (dp t) w;
  if includeValue >? cur then
    dp' ← Slice.set (dp t) w includeValue;
    row ← Slice.get (keep t) i;
    row' ← Slice.set row w true;
    keep' ← Slice.set (keep t) i row';
    mret (mkTables dp' keep')
  else mret t.

(** [for w := robotCapacity; w >= order.Weight; w--]. The loop ends on its
    test; [fuel] only bounds the recursion. *)
Fixpoint inner_loop (order : Order) (i : Z) (fuel : nat) (w : Z)
    (t : tables) : run tables :=
  match fuel with
  | O => mret t
  | S fuel' =>
      if w >=? Weight order then
        t' ← inner_body order i w t;
        inner_loop order i fuel' (GoInt.sub w 1) t'
      else mret t
  end.

(** Fuel for the inner loop: its number of passes, as many as there are
    budgets from the order's weight up to the capacity, and one more for
    the test that ends it. *)
Definition inner_fuel (robotCapacity : Z) (order : Order) : nat :=
  S (Z.to_nat (robotCapacity - Weight order + 1)).

(** The outer loop [for i := 1; i <= n; i++], over the indices still to
    visit. The left result is the early return on cancellation. *)
Fixpoint fill (ctx : Context) (orders : list Order) (robotCapacity : Z)
    (indices : list Z) (t : tables) : run (error + tables) :=
  match indices with
  | [] => mret (inr t)
  | i :: rest =>
      order ← Slice.get orders (i - 1);
      match (if Z.rem i 50 =? 0 then ctx i else None) with
      | Some e => mret (inl e)
      | None =>
          t' ← inner_loop order i (inner_fuel robotCapacity order)
                 robotCapacity t;
          fill ctx orders robotCapacity rest t'
      end
  end.

(** State of the traceback: remaining budget, chosen orders, their
    weight. *)
Record trace : Type := mkTrace {
  tr_w : Z;
  tr_selected : list Order;
  tr_weight : Z;
}.

(** [for i := n; i > 0 && w > 0; i--], with [i] counted down from its
    first argument. *)
Fixpoint backtrack (orders : list Order) (keep : list (list bool))
    (i : nat) (s : trace) : run trace :=
  match i with
  | O => mret s
  | S i' =>
      if tr_w s >? 0 then
        row ← Slice.get keep (Z.of_nat i);
        k ← Slice.get row (tr_w s);
        if k : bool then
          order ← Slice.get orders (Z.of_nat i - 1);
          backtrack orders keep i'
            (mkTrace (GoInt.sub (tr_w s) (Weight order))
                     (tr_selected s ++ [order])
                     (GoInt.add (tr_weight s) (Weight order)))
        else backtrack orders keep i' s
      else mret s
  end.

(** Allocation of [dp] and of the [n+1] rows of [keep]. *)
Definition alloc (n : nat) (robotCapacity : Z) : run tables :=
  dp0 ← Slice.make 0 (GoInt.add robotCapacity 1);
  rows ← Slice.make ([] : list bool) (Z.of_nat n + 1);
  row0 ← Slice.make false (GoInt.add robotCapacity 1);
  mret (mkTables dp0 (const row0 <$> rows)).

End DP.

Definition selectOrdersDP (ctx : Context) (orders : list Order)
    (robotID : string) (robotCapacity : Z) : run (DeliveryPlan * option error) :=
  let n := length orders in
  t0 ← DP.alloc n robotCapacity;
  filled ← DP.fill ctx orders robotCapacity (seqZ 1 (Z.of_nat n)) t0;
  match filled with
  | inl e => mret (zero_plan, Some e)
  | inr t =>
      s ← DP.backtrack orders (DP.keep t) n (DP.mkTrace robotCapacity [] 0);
      total ← Slice.get (DP.dp t) robotCapacity;
      mret (mkPlan robotID (DP.tr_weight s) total (DP.tr_selected s), None)
  end.

(** ** selectOrdersGreedy *)

(** [float64(x)] for an [int] [x]: the nearest binary64 number. *)
Definition float64_of_int (x : Z) : spec_float :=
  binary_normalize 53 1024 x 0 false.

(** [float64(order.Value) / float64(order.Weight)]. *)
Definition ratio (order : Order) : spec_float :=
  SFdiv 53 1024 (float64_of_int (Value order)) (float64_of_int (Weight order)).

(** The comparison closure handed to [sort.Slice]: [ratio2 < ratio1], with
    [ratio1] the ratio of the first argument. *)
Definition ratio_less (a b : Order) : bool := SFltb (ratio b) (ratio a).

(** [less] is a strict weak order on the elements of [l]: what
    [sort.Slice] asks of its comparison. *)
Definition strict_weak_order_on (less : Order → Order → bool) (l : list Order) : Prop :=
  (∀ a, a ∈ l → less a a = false) ∧
  (∀ a b c, a ∈ l → b ∈ l → c ∈ l →
     less a b = true → less b c = true → less a c = true) ∧
  (∀ a b c, a ∈ l → b ∈ l → c ∈ l →
     less a b = false → less b c = false → less a c = false).

(** No element is ranked strictly before one that precedes it. *)
Definition ordered_by (less : Order → Order → bool) (l : list Order) : Prop :=
  StronglySorted (λ a b, less b a = false) l.

(** Go's [sort.Slice], through what its documentation promises: the
    result holds the same elements, ordered by [less]; equal elements may
    end up in any order. *)
Class SliceSorter : Type := {
  sort_Slice : (Order → Order → bool) → list Order → list Order;
  sort_Slice_perm : ∀ less l, sort_Slice less l ≡ₚ l;
  sort_Slice_ordered : ∀ less l,
    strict_weak_order_on less l → ordered_by less (sort_Slice less l);
}.

(** State of the greedy walk: chosen orders, their weight and value. *)
Record tally : Type := mkTally {
  ta_selected : list Order;
  ta_weight : Z;
  ta_value : Z;
}.

(** [for _, order := range ordersCopy]. *)
Fixpoint greedy_walk (robotCapacity : Z) (sorted : list Order) (s : tally) : tally :=
  match sorted with
  | [] => s
  | order :: rest =>
      if GoInt.add (ta_weight s) (Weight order) <=? robotCapacity then
        greedy_walk robotCapacity rest
          (mkTally (ta_selected s ++ [order])
                   (GoInt.add (ta_weight s) (Weight order))
                   (GoInt.add (ta_value s) (Value order)))
      else greedy_walk robotCapacity rest s
  end.

(** The sequence the greedy walks: the sorted copy of the orders. *)
Definition greedy_sequence `{SliceSorter} (orders : list Order) : list Order :=
  sort_Slice ratio_less orders.

Definition selectOrdersGreedy `{SliceSorter} (orders : list Order)
    (robotID : string) (robotCapacity : Z) : DeliveryPlan :=
  match orders with
  | [] => mkPlan robotID 0 0 []
  | _ =>
      let s := greedy_walk robotCapacity (greedy_sequence orders) (mkTally [] 0 0) in
      mkPlan robotID (ta_weight s) (ta_value s) (ta_selected s)
  end.

(** ** selectOrdersForDeliveryOptimized *)

Definition selectOrdersForDeliveryOptimized `{SliceSorter} (ctx : Context)
    (orders : list Order) (robotID : string) (robotCapacity : Z)
    : run (DeliveryPlan * option error) :=
  let n := length orders in
  if (n =? 0)%nat then mret (mkPlan robotID 0 0 [], None)
  else if (Z.of_nat n >? 500) || (robotCapacity >? 5000) then
    mret (selectOrdersGreedy orders robotID robotCapacity, None)
  else selectOrdersDP ctx orders robotID robotCapacity.

(** ** The order pool and the orchestrator *)

(** A row of the join of [orders] with [products] that
    [GetShippingOrders] reads and [UpdateStatuses] writes. *)
Record OrderRow : Type := mkRow {
  row_id : Z;
  row_weight : Z;
  row_value : Z;
  shipped_status : string;
}.

(** The store: the table, and the [UpdateStatuses] statements sent to the
    database so far (identifiers and new status), rolled back or not. *)
Record Store : Type := mkStore {
  table : list OrderRow;
  sent : list (list Z * string);
}.

(** What the surroundings decide: storage failures and the deadline. *)
Record Env : Type := mkEnv {
  fetch_fault : option error;
  update_fault : option error;
  commit_fault : option error;
  timeout : Context;
}.

(** [SELECT o.order_id, p.weight, p.value ... WHERE o.shipped_status =
    'shipping']. The statement has no ORDER BY: the rows are given here in
    the sequence of the table, and what is stated of a fetch below is
    stated of the orders it holds, not of their sequence. The status is
    compared as it is written. *)
Definition GetShippingOrders (env : Env) (s : Store) : list Order * option error :=
  match fetch_fault env with
  | Some e => ([], Some e)
  | None =>
      ((λ r, mkOrder (row_id r) (row_weight r) (row_value r)) <$>
         filter (λ r, shipped_status r = "shipping") (table s), None)
  end.

(** [UPDATE orders SET shipped_status = ? WHERE order_id IN (?)] on the
    table. *)
Definition set_statuses (orderIDs : list Z) (newStatus : string)
    (t : list OrderRow) : list OrderRow :=
  (λ r, if bool_decide (row_id r ∈ orderIDs)
        then mkRow (row_id r) (row_weight r) (row_value r) newStatus
        else r) <$> t.

(** [UpdateStatuses]: nothing is sent for an empty list; otherwise one
    UPDATE goes to the database. When the database reports a failure, the
    code at hand does not tell whether rows were written: the table is kept
    here, and what a failed request leaves behind is taken from [ExecTx]
    alone, which restores the table on any failure. *)
Definition UpdateStatuses (env : Env) (orderIDs : list Z) (newStatus : string)
    (s : Store) : Store * option error :=
  match orderIDs with
  | [] => (s, None)
  | _ =>
      let s' := mkStore (table s) (sent s ++ [(orderIDs, newStatus)]) in
      match update_fault env with
      | Some e => (s', Some e)
      | None => (mkStore (set_statuses orderIDs newStatus (table s)) (sent s'), None)
      end
  end.

(** Modelled from the spec: [Store.ExecTx] is not among the files at hand.
    The spec has the steps run inside one transactional scope, any failure
    aborting the transaction so that no status update persists; the body's
    changes to the table are kept only when the body and the commit both
    succeed. *)
Definition ExecTx {A} (env : Env) (fn : Store → run (Store * A * option error))
    (s : Store) : run (Store * A * option error) :=
  r ← fn s;
  let '(s', a, err) := r in
  match err with
  | Some e => mret (mkStore (table s) (sent s'), a, Some e)
  | None =>
      match commit_fault env with
      | Some e => mret (mkStore (table s) (sent s'), a, Some e)
      | None => mret (s', a, None)
      end
  end.

(** The context a request runs under: done when the caller's context is,
    or when the deadline has elapsed. *)
Definition with_deadline (env : Env) (ctx : Context) : Context :=
  λ i, match ctx i with Some e => Some e | None => timeout env i end.

(** Modelled from the spec: [utils.WithTimeout] is not among the files at
    hand. The spec has it impose one deadline on the whole request: the
    function runs under the caller's context bounded by that deadline, and
    its result is returned as it is. *)
Definition WithTimeout {A} (env : Env) (ctx : Context) (fn : Context → A) : A :=
  fn (with_deadline env ctx).

(** The closure run inside the transaction; the plan it returns is the
    value it leaves in the captured variable [plan]. *)
Definition plan_in_tx `{SliceSorter} (env : Env) (ctx : Context)
    (robotID : string) (capacity : Z) (txStore : Store)
    : run (Store * DeliveryPlan * option error) :=
  let '(orders, err) := GetShippingOrders env txStore in
  match err with
  | Some e => mret (txStore, zero_plan, Some e)
  | None =>
      r ← selectOrdersForDeliveryOptimized ctx orders robotID capacity;
      let '(plan, err) := r in
      match err with
      | Some e => mret (txStore, plan, Some e)
      | None =>
          if (0 <? length (Orders plan))%nat then
            let orderIDs := OrderID <$> Orders plan in
            let '(txStore', err) := UpdateStatuses env orderIDs "delivering" txStore in
            mret (txStore', plan, err)
          else mret (txStore, plan, None)
      end
  end.

Definition GenerateDeliveryPlan `{SliceSorter} (env : Env) (ctx : Context)
    (robotID : string) (capacity : Z) (s : Store)
    : run (Store * option DeliveryPlan * option error) :=
  r ← WithTimeout env ctx (λ ctx,
         ExecTx env (plan_in_tx env ctx robotID capacity) s);
  let '(s', plan, err) := r in
  match err with
  | Some e => mret (s', None, Some e)
  | None => mret (s', Some plan, None)
  end.

(** ** Package sort: the algorithm of [sort.Slice] *)

#[global] Instance Order_inhabited : Inhabited Order := populate (mkOrder 0 0 0).

(** The Go standard library's [sort.Slice] runs [pdqsort_func], the
    pattern-defeating quicksort of package sort, on the slice through the
    comparison and a swapper. The functions below follow that package
    function by function, on the slice as a list; an index stays within
    the slice wherever the library's own code keeps it there. Loops run on
    a count of passes that is no less than the passes they can make. The
    step of the package's pseudo-random generator ([xorshift.Next]) is left
    as a parameter. *)
Module Sort.

Inductive sortedHint : Type :=
  | unknownHint
  | increasingHint
  | decreasingHint.

Section Algorithm.

Variable less : Order → Order → bool.
Variable next : Z → Z.

(** [data.Less(i, j)]: the comparison on the elements at [i] and [j]. *)
Definition Less (data : list Order) (i j : Z) : bool :=
  less (data !!! Z.to_nat i) (data !!! Z.to_nat j).

(** [data.Swap(i, j)]. *)
Definition Swap (data : list Order) (i j : Z) : list Order :=
  <[Z.to_nat i := data !!! Z.to_nat j]> (<[Z.to_nat j := data !!! Z.to_nat i]> data).

(** [for j := i; j > a && data.Less(j, j-1); j-- { data.Swap(j, j-1) }]. *)
Fixpoint insertion_shift (passes : nat) (data : list Order) (a j : Z) : list Order :=
  match passes with
  | O => data
  | S passes =>
      if (j >? a) && Less data j (j - 1)
      then insertion_shift passes (Swap data j (j - 1)) a (j - 1)
      else data
  end.

(** [for i := a + 1; i < b; i++ { ... }]. *)
Fixpoint insertion_pass (passes : nat) (data : list Order) (a b i : Z) : list Order :=
  match passes with
  | O => data
  | S passes =>
      if i <? b
      then insertion_pass passes (insertion_shift (Z.to_nat (i - a)) data a i) a b (i + 1)
      else data
  end.

Definition insertionSort_func (data : list Order) (a b : Z) : list Order :=
  insertion_pass (Z.to_nat (b - a)) data a b (a + 1).

(** [siftDown_func]: the loop on [root]. *)
Fixpoint siftDown_func (passes : nat) (data : list Order) (root hi first : Z)
    : list Order :=
  match passes with
  | O => data
  | S passes =>
      let child := 2 * root + 1 in
      if child >=? hi then data
      else
        let child :=
          if (child + 1 <? hi) && Less data (first + child) (first + child + 1)
          then child + 1
          else child in
        if negb (Less data (first + root) (first + child)) then data
        else siftDown_func passes (Swap data (first + root) (first + child))
               child hi first
  end.

(** [for i := (hi - 1) / 2; i >= 0; i-- { siftDown_func(data, i, hi, first) }]. *)
Fixpoint heap_build (passes : nat) (data : list Order) (hi first i : Z) : list Order :=
  match passes with
  | O => data
  | S passes =>
      if i >=? 0
      then heap_build passes (siftDown_func (S (Z.to_nat hi)) data i hi first)
             hi first (i - 1)
      else data
  end.

(** [for i := hi - 1; i >= 0; i-- { data.Swap(first, first+i);
    siftDown_func(data, lo, i, first) }]. *)
Fixpoint heap_pop (passes : nat) (data : list Order) (lo first i : Z) : list Order :=
  match passes with
  | O => data
  | S passes =>
      if i >=? 0
      then
        let data := Swap data first (first + i) in
        heap_pop passes (siftDown_func (S (Z.to_nat i)) data lo i first)
          lo first (i - 1)
      else data
  end.

Definition heapSort_func (data : list Order) (a b : Z) : list Order :=
  let first := a in
  let lo := 0 in
  let hi := b - a in
  let data := heap_build (S (Z.to_nat hi)) data hi first ((hi - 1) ÷ 2) in
  heap_pop (S (Z.to_nat hi)) data lo first (hi - 1).

(** [for i <= j && test(i) { i++ }]. *)
Fixpoint climb (passes : nat) (test : Z → bool) (i j : Z) : Z :=
  match passes with
  | O => i
  | S passes => if (i <=? j) && test i then climb passes test (i + 1) j else i
  end.

(** [for i <= j && test(j) { j-- }]. *)
Fixpoint descend (passes : nat) (test : Z → bool) (i j : Z) : Z :=
  match passes with
  | O => j
  | S passes => if (i <=? j) && test j then descend passes test i (j - 1) else j
  end.

(** The closing [for { ... }] of [partition_func]. *)
Fixpoint partition_rounds (passes : nat) (data : list Order) (a b i j : Z)
    : list Order * Z * Z :=
  match passes with
  | O => (data, i, j)
  | S passes =>
      let i := climb (Z.to_nat (b - a)) (λ i, Less data i a) i j in
      let j := descend (Z.to_nat (b - a)) (λ j, negb (Less data j a)) i j in
      if i >? j then (data, i, j)
      else partition_rounds passes (Swap data i j) a b (i + 1) (j - 1)
  end.

Definition partition_func (data : list Order) (a b pivot : Z)
    : list Order * Z * bool :=
  let data := Swap data a pivot in
  let i := a + 1 in
  let j := b - 1 in
  let i := climb (Z.to_nat (b - a)) (λ i, Less data i a) i j in
  let j := descend (Z.to_nat (b - a)) (λ j, negb (Less data j a)) i j in
  if i >? j then (Swap data j a, j, true)
  else
    let data := Swap data i j in
    let i := i + 1 in
    let j := j - 1 in
    let '(data, i, j) := partition_rounds (S (Z.to_nat (b - a))) data a b i j in
    (Swap data j a, j, false).

(** The [for { ... }] of [partitionEqual_func]. *)
Fixpoint partitionEqual_rounds (passes : nat) (data : list Order) (a b i j : Z)
    : list Order * Z * Z :=
  match passes with
  | O => (data, i, j)
  | S passes =>
      let i := climb (Z.to_nat (b - a)) (λ i, negb (Less data a i)) i j in
      let j := descend (Z.to_nat (b - a)) (λ j, Less data a j) i j in
      if i >? j then (data, i, j)
      else partitionEqual_rounds passes (Swap data i j) a b (i + 1) (j - 1)
  end.

Definition partitionEqual_func (data : list Order) (a b pivot : Z)
    : list Order * Z :=
  let data := Swap data a pivot in
  let i := a + 1 in
  let j := b - 1 in
  let '(data, i, j) := partitionEqual_rounds (S (Z.to_nat (b - a))) data a b i j in
  (data, i).

(** [for i < b && !data.Less(i, i-1) { i++ }]. *)
Fixpoint run_up (passes : nat) (data : list Order) (i b : Z) : Z :=
  match passes with
  | O => i
  | S passes =>
      if (i <? b) && negb (Less data i (i - 1)) then run_up passes data (i + 1) b else i
  end.

(** [for j := i - 1; j >= 1; j-- { if !data.Less(j, j-1) { break };
    data.Swap(j, j-1) }]. *)
Fixpoint shift_left (passes : nat) (data : list Order) (j : Z) : list Order :=
  match passes with
  | O => data
  | S passes =>
      if j >=? 1 then
        if negb (Less data j (j - 1)) then data
        else shift_left passes (Swap data j (j - 1)) (j - 1)
      else data
  end.

(** [for j := i + 1; j < b; j++ { if !data.Less(j, j-1) { break };
    data.Swap(j, j-1) }]. *)
Fixpoint shift_right (passes : nat) (data : list Order) (b j : Z) : list Order :=
  match passes with
  | O => data
  | S passes =>
      if j <? b then
        if negb (Less data j (j - 1)) then data
        else shift_right passes (Swap data j (j - 1)) b (j + 1)
      else data
  end.

(** [for j := 0; j < maxSteps; j++ { ... }] of [partialInsertionSort_func],
    [steps] being the passes left. *)
Fixpoint partial_steps (steps : nat) (data : list Order) (a b i : Z)
    : list Order * bool :=
  match steps with
  | O => (data, false)
  | S steps =>
      let i := run_up (Z.to_nat (b - a)) data i b in
      if i =? b then (data, true)
      else if b - a <? 50 then (data, false)
      else
        let data := Swap data i (i - 1) in
        let data :=
          if i - a >=? 2 then shift_left (Z.to_nat i) data (i - 1) else data in
        let data :=
          if b - i >=? 2 then shift_right (Z.to_nat (b - i)) data b (i + 1) else data in
        partial_steps steps data a b i
  end.

Definition partialInsertionSort_func (data : list Order) (a b : Z)
    : list Order * bool :=
  partial_steps 5 data a b (a + 1).

(** [bits.Len]. *)
Definition bits_Len (x : Z) : Z := if x <=? 0 then 0 else Z.log2 x + 1.

Definition nextPowerOfTwo (length : Z) : Z := 2 ^ bits_Len length.

(** [for i := 0; i < 3; i++ { ... }] of [breakPatterns_func], [count] being
    the passes left. *)
Fixpoint break_swaps (count : nat) (data : list Order)
    (a length modulus idx random i : Z) : list Order :=
  match count with
  | O => data
  | S count =>
      let random := next random in
      let other := Z.land random (modulus - 1) in
      let other := if other >=? length then other - length else other in
      break_swaps count (Swap data (idx - 1 + i) (a + other))
        a length modulus idx random (i + 1)
  end.

Definition breakPatterns_func (data : list Order) (a b : Z) : list Order :=
  let length := b - a in
  if length >=? 8 then
    let random := length in
    let modulus := nextPowerOfTwo length in
    let idx := a + (length ÷ 4) * 2 - 1 in
    break_swaps 3 data a length modulus idx random 0
  else data.

(** [order2_func], the count of swaps passed along. *)
Definition order2_func (data : list Order) (a b swaps : Z) : Z * Z * Z :=
  if Less data b a then (b, a, swaps + 1) else (a, b, swaps).

Definition median_func (data : list Order) (a b c swaps : Z) : Z * Z :=
  let '(a, b, swaps) := order2_func data a b swaps in
  let '(b, c, swaps) := order2_func data b c swaps in
  let '(a, b, swaps) := order2_func data a b swaps in
  (b, swaps).

Definition medianAdjacent_func (data : list Order) (a swaps : Z) : Z * Z :=
  median_func data (a - 1) a (a + 1) swaps.

Definition choosePivot_func (data : list Order) (a b : Z) : Z * sortedHint :=
  let l := b - a in
  let swaps := 0 in
  let i := a + l ÷ 4 * 1 in
  let j := a + l ÷ 4 * 2 in
  let k := a + l ÷ 4 * 3 in
  let '(j, swaps) :=
    if l >=? 8 then
      let '(i, j, k, swaps) :=
        if l >=? 50 then
          let '(i, swaps) := medianAdjacent_func data i swaps in
          let '(j, swaps) := medianAdjacent_func data j swaps in
          let '(k, swaps) := medianAdjacent_func data k swaps in
          (i, j, k, swaps)
        else (i, j, k, swaps) in
      median_func data i j k swaps
    else (j, swaps) in
  if swaps =? 0 then (j, increasingHint)
  else if swaps =? 4 * 3 then (j, decreasingHint)
  else (j, unknownHint).

(** [for i < j { data.Swap(i, j); i++; j-- }]. *)
Fixpoint reverse_loop (passes : nat) (data : list Order) (i j : Z) : list Order :=
  match passes with
  | O => data
  | S passes =>
      if i <? j then reverse_loop passes (Swap data i j) (i + 1) (j - 1) else data
  end.

Definition reverseRange_func (data : list Order) (a b : Z) : list Order :=
  reverse_loop (Z.to_nat (b - a)) data a (b - 1).

(** [pdqsort_func]: one pass of its [for] loop and what follows; the call
    on the shorter side starts with both flags set, as a call does. Every
    pass and every call is on fewer elements than the one before. *)
Fixpoint pdqsort_func (passes : nat) (data : list Order) (a b limit : Z)
    (wasBalanced wasPartitioned : bool) : list Order :=
  match passes with
  | O => data
  | S passes =>
      let length := b - a in
      if length <=? 12 then insertionSort_func data a b
      else if limit =? 0 then heapSort_func data a b
      else
        let '(data, limit) :=
          if negb wasBalanced then (breakPatterns_func data a b, limit - 1)
          else (data, limit) in
        let '(pivot, hint) := choosePivot_func data a b in
        let '(data, pivot, hint) :=
          match hint with
          | decreasingHint =>
              (reverseRange_func data a b, (b - 1) - (pivot - a), increasingHint)
          | _ => (data, pivot, hint)
          end in
        let '(data, sorted) :=
          match hint with
          | increasingHint =>
              if wasBalanced && wasPartitioned
              then partialInsertionSort_func data a b
              else (data, false)
          | _ => (data, false)
          end in
        if sorted then data
        else if (a >? 0) && negb (Less data (a - 1) pivot) then
          let '(data, mid) := partitionEqual_func data a b pivot in
          pdqsort_func passes data mid b limit wasBalanced wasPartitioned
        else
          let '(data, mid, alreadyPartitioned) := partition_func data a b pivot in
          let wasPartitioned := alreadyPartitioned in
          let leftLen := mid - a in
          let rightLen := b - mid in
          let balanceThreshold := length ÷ 8 in
          if leftLen <? rightLen then
            let wasBalanced := leftLen >=? balanceThreshold in
            let data := pdqsort_func passes data a mid limit true true in
            pdqsort_func passes data (mid + 1) b limit wasBalanced wasPartitioned
          else
            let wasBalanced := rightLen >=? balanceThreshold in
            let data := pdqsort_func passes data (mid + 1) b limit true true in
            pdqsort_func passes data a mid limit wasBalanced wasPartitioned
  end.

(** [sort.Slice(x, less)]. *)
Definition Slice (data : list Order) : list Order :=
  let length := Z.of_nat (length data) in
  let limit := bits_Len length in
  pdqsort_func (S (Datatypes.length data)) data 0 length limit true true.

End Algorithm.

End Sort.

(** ** Sorters meeting the contract of [sort.Slice] *)

(** One element moving left through a reversed prefix, as the inner loop
    [for j := i; j > a && less(data[j], data[j-1]); j--] of an insertion
    sort does by swaps: [x] passes every [y] with [less x y]. *)
Fixpoint sift (less : Order → Order → bool) (x : Order) (before : list Order)
    : list Order :=
  match before with
  | [] => [x]
  | y :: before' => if less x y then y :: sift less x before' else x :: before
  end.

(** Insertion sort, left to right, keeping the sorted prefix reversed. *)
Definition insertionSort (less : Order → Order → bool) (l : list Order) : list Order :=
  reverse (fold_left (λ before x, sift less x before) l []).

(** [strict_weak_order_on], as a test. *)
Definition strict_weak_order_test (less : Order → Order → bool) (l : list Order)
    : bool :=
  forallb (λ a, negb (less a a)) l &&
  forallb (λ a, forallb (λ b, forallb (λ c,
    implb (less a b && less b c) (less a c) &&
    implb (negb (less a b) && negb (less b c)) (negb (less a c))) l) l) l.

(** [sorted] is what the documentation of [sort.Slice] promises for [l]:
    the same elements, ordered when the comparison is a strict weak
    order. *)
Definition meets_contract (less : Order → Order → bool) (l sorted : list Order)
    : bool :=
  bool_decide (sorted ≡ₚ l) &&
  implb (strict_weak_order_test less l)
        (bool_decide (StronglySorted (λ a b, less b a = false) sorted)).

(** [sort.Slice] as the library runs it: the result of [Sort.Slice]. That
    the algorithm keeps the promise of its documentation is tested on the
    result here, not proved of the algorithm; the insertion sort stands in
    should the test fail, which it does on no input that is used below. *)
Definition library_sort (next : Z → Z) (less : Order → Order → bool)
    (l : list Order) : list Order :=
  let sorted := Sort.Slice less next l in
  if meets_contract less l sorted then sorted else insertionSort less l.

(** ** Specification-level notions *)

Definition sum_weights (l : list Order) : Z := foldr (λ o acc, Weight o + acc) 0 l.
Definition sum_values (l : list Order) : Z := foldr (λ o acc, Value o + acc) 0 l.

(** A choice of orders that fits the capacity. *)
Definition feasible (orders : list Order) (capacity : Z) (chosen : list Order) : Prop :=
  chosen ⊆+ orders ∧ sum_weights chosen <= capacity.

(** The knapsack recurrence, the order at the head being the last one
    processed. *)
Fixpoint best (processed : list Order) (w : Z) : Z :=
  match processed with
  | [] => 0
  | o :: earlier =>
      if (Weight o <=? w) && (best earlier w <? best earlier (w - Weight o) + Value o)
      then best earlier (w - Weight o) + Value o
      else best earlier w
  end.

(** The inclusion flag the recurrence sets for the head order at [w]. *)
Definition taken (o : Order) (earlier : list Order) (w : Z) : bool :=
  (Weight o <=? w) && (best earlier w <? best earlier (w - Weight o) + Value o).

(** Orders whose fields are positive [int]s. *)
Definition positive_order (o : Order) : Prop :=
  0 < Weight o <= GoInt.max_int ∧ 0 < Value o <= GoInt.max_int.

(** Equal ratios keep their original relative order: whenever [a] stands
    before [b] in [sorted] and neither ratio is smaller than the other,
    [a] stands before [b] in [original] too. Stated on identifiers that
    are pairwise distinct. *)
Definition ties_in_original_order (original sorted : list Order) : Prop :=
  ∀ i j a b, (i < j)%nat → sorted !! i = Some a → sorted !! j = Some b →
    ratio_less a b = false → ratio_less b a = false →
    ∃ i' j', (i' < j')%nat ∧ original !! i' = Some a ∧ original !! j' = Some b.

(** The inclusion flag the recurrence gives to step [j] (counted from 1)
    at budget [w]. *)
Definition flag (orders : list Order) (j : nat) (w : Z) : bool :=
  match j with
  | O => false
  | S j' =>
      match orders !! j' with
      | Some o => taken o (reverse (take j' orders)) w
      | None => false
      end
  end.

(** The traceback of the recurrence: the orders it includes, last
    processed first. *)
Fixpoint picks (processed : list Order) (w : Z) : list Order :=
  match processed with
  | [] => []
  | o :: earlier =>
      if taken o earlier w then o :: picks earlier (w - Weight o)
      else picks earlier w
  end.

(** A slice of [capacity + 1] cells holding [f 0 .. f capacity]. *)
Definition represents {A} (l : list A) (capacity : Z) (f : Z → A) : Prop :=
  length l = Z.to_nat (capacity + 1) ∧
  ∀ x, 0 <= x <= capacity → l !! Z.to_nat x = Some (f x).

(** While the inner loop runs for order [o]: budgets above [w] already hold
    the new row, the others the old one. *)
Definition mixed (o : Order) (earlier : list Order) (w x : Z) : Z :=
  if x <=? w then best earlier x else best (o :: earlier) x.

Definition mixed_flags (o : Order) (earlier : list Order) (w x : Z) : bool :=
  if x <=? w then false else taken o earlier x.

(** The tables have their allocated shape, and a set inclusion flag at
    budget [w] in row [j] means that order [j] weighs at most [w]. *)
Definition sound (orders : list Order) (capacity : Z) (t : DP.tables) : Prop :=
  length (DP.dp t) = Z.to_nat (capacity + 1) ∧
  length (DP.keep t) = S (length orders) ∧
  ∀ j row, DP.keep t !! j = Some row →
    length row = Z.to_nat (capacity + 1) ∧
    ∀ w, row !! w = Some true →
      ∃ o, (0 < j)%nat ∧ orders !! pred j = Some o ∧ Weight o <= Z.of_nat w.

(** No checkpoint of the outer loop over [n] orders finds the context
    done. *)
Definition not_cancelled (ctx : Context) (n : nat) : Prop :=
  ∀ i, 0 < i <= Z.of_nat n → Z.rem i 50 = 0 → ctx i = None.

(** After [m] orders: [dp] is the row of the recurrence for the first [m]
    orders, the rows of [keep] up to [m] hold its flags, the others are
    still clear. *)
Definition filled (orders : list Order) (capacity : Z) (m : nat) (t : DP.tables) : Prop :=
  represents (DP.dp t) capacity (best (reverse (take m orders))) ∧
  length (DP.keep t) = S (length orders) ∧
  ∀ j row, DP.keep t !! j = Some row →
    represents row capacity (λ w, if (j <=? m)%nat then flag orders j w else false).

(** The orders the walk takes, with exact weights. *)
Fixpoint greedy_picks (capacity : Z) (sorted : list Order) (weight : Z) : list Order :=
  match sorted with
  | [] => []
  | o :: rest =>
      if weight + Weight o <=? capacity
      then o :: greedy_picks capacity rest (weight + Weight o)
      else greedy_picks capacity rest weight
  end.

(** The running value as the machine adds it up. *)
Definition machine_value (start : Z) (chosen : list Order) : Z :=
  fold_left (λ acc o, GoInt.add acc (Value o)) chosen start.

(** The orders a request fetches from the store. *)
Definition fetched (env : Env) (s : Store) : list Order :=
  (GetShippingOrders env s).1.

(** The single statement a successful non-empty plan sends. *)
Definition claim_statement (plan : DeliveryPlan) : list Z * string :=
  (OrderID <$> Orders plan, "delivering").

(** Not a NaN. *)
Definition is_number (f : spec_float) : bool :=
  match f with
  | S754_nan => false
  | _ => true
  end.

(** Twelve orders of ratio 1 followed by one of ratio 2. *)
Definition tied_orders : list Order :=
  ((λ i, mkOrder i 1 1) <$> seqZ 1 12) ++ [mkOrder 13 1 2].

(** [UpdateOrderStatus] of [robot.go]: one [UpdateStatuses] for the single
    identifier, under the deadline and outside any transaction. *)
Definition UpdateOrderStatus (env : Env) (ctx : Context) (orderID : Z)
    (newStatus : string) (s : Store) : Store * option error :=
  WithTimeout env ctx (λ ctx, UpdateStatuses env [orderID] newStatus s).

(** The identifiers a request's result claims: those of the plan's orders,
    none without a plan. *)
Definition claimed_ids (result : option DeliveryPlan) : list Z :=
  match result with
  | Some plan => OrderID <$> Orders plan
  | None => []
  end.

(** ** ListOrders and ListProducts *)

(** A value bound to a placeholder of a statement. *)
Inductive sqlarg : Type :=
  | IntArg (n : Z)
  | TextArg (s : string).

(** A statement as it goes to the driver: its text and the values bound
    to it. *)
Record statement : Type := mkStatement {
  query : string;
  args : list sqlarg;
}.

(** The fields of [model.ListRequest] the listings read. *)
Record ListRequest : Type := mkListRequest {
  Search : string;
  Type_ : string;
  SortField : string;
  SortOrder : string;
  PageSize : Z;
  Offset : Z;
}.

(** [sql.NullTime]. *)
Record NullTime : Type := mkNullTime {
  nt_Time : Z;
  nt_Valid : bool;
}.

(** The local [orderRow] of [ListOrders]. *)
Record orderRow : Type := mkOrderRow {
  raw_OrderID : Z;
  raw_ProductID : Z;
  raw_ProductName : string;
  raw_ShippedStatus : string;
  raw_CreatedAt : NullTime;
  raw_ArrivedAt : NullTime;
}.

(** The fields of [model.Order] that [ListOrders] fills. *)
Record ListedOrder : Type := mkListedOrder {
  lo_OrderID : Z;
  lo_ProductID : Z;
  lo_ProductName : string;
  lo_ShippedStatus : string;
  lo_CreatedAt : Z;
  lo_ArrivedAt : NullTime;
}.

(** The two calls of [DBTX] the listings make, as the answers the database
    gives to a statement: rows or an error, a number or an error. *)
Record DBTX (Row : Type) : Type := mkDBTX {
  SelectContext : statement → list Row + error;
  GetContext : statement → Z + error;
}.
Arguments SelectContext {Row}.
Arguments GetContext {Row}.

(** [strings.Join]. *)
Fixpoint strings_Join (elems : list string) (sep : string) : string :=
  match elems with
  | [] => ""
  | e :: rest =>
      match rest with
      | [] => e
      | _ => e +:+ sep +:+ strings_Join rest sep
      end
  end.

(** The text [baseQuery] of [ListOrders] starts from. *)
Definition ListOrders_baseQuery : string := "
        SELECT 
            o.order_id, 
            o.product_id, 
            p.name as product_name,
            o.shipped_status, 
            o.created_at, 
            o.arrived_at
        FROM orders o 
        JOIN products p ON o.product_id = p.product_id
        WHERE o.user_id = ?".

(** The text [countQuery] of [ListOrders] starts from. *)
Definition ListOrders_countQuery : string := "
        SELECT COUNT(*) 
        FROM orders o 
        JOIN products p ON o.product_id = p.product_id 
        WHERE o.user_id = ?".

(** [ListOrders]: the statements sent, in sequence, and the result.
    [ToUpper] is [strings.ToUpper]. *)
Definition ListOrders (ToUpper : string → string) (db : DBTX orderRow) (userID : Z)
    (req : ListRequest) : list statement * (list ListedOrder * Z * option error) :=
  let baseQuery : string := ListOrders_baseQuery in
  let conditions : list string := [] in
  let args := [IntArg userID] in
  let '(conditions, args) :=
    if bool_decide (Search req ≠ "") then
      if bool_decide (Type_ req = "prefix") then
        (conditions ++ ["p.name LIKE ?"], args ++ [TextArg (Search req +:+ "%")])
      else
        (conditions ++ ["p.name LIKE ?"],
         args ++ [TextArg ("%" +:+ Search req +:+ "%")])
    else (conditions, args) in
  let baseQuery :=
    if (0 <? length conditions)%nat
    then baseQuery +:+ " AND " +:+ strings_Join conditions " AND "
    else baseQuery in
  let orderClause : string := " ORDER BY " in
  let orderClause :=
    if bool_decide (SortField req = "product_name") then orderClause +:+ "p.name"
    else if bool_decide (SortField req = "created_at") then
      orderClause +:+ "o.created_at"
    else if bool_decide (SortField req = "shipped_status") then
      orderClause +:+ "o.shipped_status"
    else if bool_decide (SortField req = "arrived_at") then
      orderClause +:+ "o.arrived_at"
    else orderClause +:+ "o.order_id" in
  let orderClause :=
    if bool_decide (ToUpper (SortOrder req) = "DESC")
    then orderClause +:+ " DESC"
    else orderClause +:+ " ASC" in
  let countQuery : string := ListOrders_countQuery in
  let countArgs := [IntArg userID] in
  let '(countQuery, countArgs) :=
    if bool_decide (Search req ≠ "") then
      if bool_decide (Type_ req = "prefix") then
        (countQuery +:+ " AND p.name LIKE ?",
         countArgs ++ [TextArg (Search req +:+ "%")])
      else
        (countQuery +:+ " AND p.name LIKE ?",
         countArgs ++ [TextArg ("%" +:+ Search req +:+ "%")])
    else (countQuery, countArgs) in
  let dataQuery := baseQuery +:+ orderClause +:+ " LIMIT ? OFFSET ?" in
  let args := args ++ [IntArg (PageSize req); IntArg (Offset req)] in
  match SelectContext db (mkStatement dataQuery args) with
  | inr err => ([mkStatement dataQuery args], ([], 0, Some err))
  | inl ordersRaw =>
      match GetContext db (mkStatement countQuery countArgs) with
      | inr err =>
          ([mkStatement dataQuery args; mkStatement countQuery countArgs],
           ([], 0, Some err))
      | inl total =>
          ([mkStatement dataQuery args; mkStatement countQuery countArgs],
           ((λ o, mkListedOrder (raw_OrderID o) (raw_ProductID o) (raw_ProductName o)
                    (raw_ShippedStatus o) (nt_Time (raw_CreatedAt o))
                    (raw_ArrivedAt o)) <$> ordersRaw,
            total, None))
      end
  end.

(** The text [baseQuery] of [ListProducts] starts from. *)
Definition ListProducts_baseQuery : string := "
		SELECT product_id, name, value, weight, image, description
		FROM products
	".

(** [ListProducts] of the product repository: the statements sent, in
    sequence, and the result. The rows are returned as the database gave
    them; [userID] is not used. *)
Definition ListProducts {Product : Type} (db : DBTX Product) (userID : Z)
    (req : ListRequest) : list statement * (list Product * Z * option error) :=
  let baseQuery : string := ListProducts_baseQuery in
  let args : list sqlarg := [] in
  let '(baseQuery, args) :=
    if bool_decide (Search req ≠ "") then
      let searchPattern := "%" +:+ Search req +:+ "%" in
      (baseQuery +:+ " WHERE (name LIKE ? OR description LIKE ?)",
       args ++ [TextArg searchPattern; TextArg searchPattern])
    else (baseQuery, args) in
  let baseQuery :=
    baseQuery +:+ " ORDER BY " +:+ SortField req +:+ " " +:+ SortOrder req
      +:+ ", product_id ASC LIMIT ? OFFSET ?" in
  let args := args ++ [IntArg (PageSize req); IntArg (Offset req)] in
  let countQuery : string := "SELECT COUNT(*) FROM products" in
  let countArgs : list sqlarg := [] in
  let '(countQuery, countArgs) :=
    if bool_decide (Search req ≠ "") then
      let searchPattern := "%" +:+ Search req +:+ "%" in
      (countQuery +:+ " WHERE (name LIKE ? OR description LIKE ?)",
       countArgs ++ [TextArg searchPattern; TextArg searchPattern])
    else (countQuery, countArgs) in
  match SelectContext db (mkStatement baseQuery args) with
  | inr err => ([mkStatement baseQuery args], ([], 0, Some err))
  | inl products =>
      match GetContext db (mkStatement countQuery countArgs) with
      | inr err =>
          ([mkStatement baseQuery args; mkStatement countQuery countArgs],
           ([], 0, Some err))
      | inl total =>
          ([mkStatement baseQuery args; mkStatement countQuery countArgs],
           (products, total, None))
      end
  end.

(** The byte of the question mark, 63. *)
Definition question_mark : Ascii.ascii := Ascii.ascii_of_nat 63.

(** The question marks of a statement's text. *)
Fixpoint placeholders (s : string) : nat :=
  match s with
  | EmptyString => 0
  | String c rest =>
      ((if Ascii.eqb c question_mark then 1 else 0) + placeholders rest)%nat
  end.

(** The sort fields [ListOrders] names; any other is read as the order
    identifier. *)
Definition named_sort_fields : list string :=
  ["product_name"; "created_at"; "shipped_status"; "arrived_at"].

(** * Proofs *)

(** Unfolds the sequencing of [run] and nothing else. *)
Ltac run_step := cbn [mbind run_bind mret run_ret].

(** ** Machine integers *)

Lemma wrap_in_range x : GoInt.in_range x → GoInt.wrap x = x.
Proof.
  unfold GoInt.in_range, GoInt.wrap, GoInt.min_int, GoInt.max_int. intros Hx.
  rewrite Z.mod_small by lia. lia.
Qed.

Lemma add_exact a b : GoInt.in_range (a + b) → GoInt.add a b = a + b.
Proof. apply wrap_in_range. Qed.

Lemma sub_exact a b : GoInt.in_range (a - b) → GoInt.sub a b = a - b.
Proof. apply wrap_in_range. Qed.

Lemma in_range_between x : 0 <= x <= GoInt.max_int → GoInt.in_range x.
Proof. unfold GoInt.in_range, GoInt.min_int, GoInt.max_int. lia. Qed.

Lemma in_range_pred x : 0 <= x <= GoInt.max_int → GoInt.in_range (x - 1).
Proof. unfold GoInt.in_range, GoInt.min_int, GoInt.max_int. lia. Qed.

(** ** Slices *)

Lemma get_Done {A} (s : list A) i x :
  0 <= i → s !! Z.to_nat i = Some x → Slice.get s i = Done x.
Proof.
  intros Hi Hx. unfold Slice.get.
  destruct (Z.ltb_spec i 0); [lia|]. by rewrite Hx.
Qed.

Lemma set_Done {A} (s : list A) i x :
  0 <= i → (Z.to_nat i < length s)%nat →
  Slice.set s i x = Done (<[Z.to_nat i := x]> s).
Proof.
  intros Hi Hlen. unfold Slice.set.
  destruct (Z.ltb_spec i 0); [lia|].
  destruct (Nat.ltb_spec (Z.to_nat i) (length s)); [done|lia].
Qed.

Lemma get_is_Done {A} (s : list A) i :
  0 <= i → (Z.to_nat i < length s)%nat → ∃ x, Slice.get s i = Done x.
Proof.
  intros Hi Hlen. destruct (lookup_lt_is_Some_2 s (Z.to_nat i) Hlen) as [x Hx].
  exists x. by apply get_Done.
Qed.

Lemma make_Done {A} (zero : A) len :
  0 <= len → Slice.make zero len = Done (replicate (Z.to_nat len) zero).
Proof. intros Hl. unfold Slice.make. destruct (Z.ltb_spec len 0); [lia|done]. Qed.

Lemma represents_get {A} (l : list A) capacity f x :
  represents l capacity f → 0 <= x <= capacity → Slice.get l x = Done (f x).
Proof. intros [_ Hl] Hx. apply get_Done; [lia|]. by apply Hl. Qed.

Lemma represents_set {A} (l : list A) capacity f w v :
  represents l capacity f → 0 <= w <= capacity →
  Slice.set l w v = Done (<[Z.to_nat w := v]> l) ∧
  represents (<[Z.to_nat w := v]> l) capacity (λ x, if x =? w then v else f x).
Proof.
  intros [Hlen Hl] Hw. split.
  - apply set_Done; lia.
  - split; [by rewrite length_insert|].
    intros x Hx. destruct (Z.eqb_spec x w) as [->|Hne].
    + apply list_lookup_insert_eq. lia.
    + rewrite list_lookup_insert_ne by lia. by apply Hl.
Qed.

Lemma represents_ext {A} (l : list A) capacity f g :
  represents l capacity f → (∀ x, 0 <= x <= capacity → f x = g x) →
  represents l capacity g.
Proof.
  intros [Hlen Hl] Hfg. split; [done|].
  intros x Hx. rewrite <- Hfg by done. by apply Hl.
Qed.

Lemma represents_replicate {A} (zero : A) capacity :
  0 <= capacity + 1 →
  represents (replicate (Z.to_nat (capacity + 1)) zero) capacity (λ _, zero).
Proof.
  intros Hc. split; [by rewrite length_replicate|].
  intros x Hx. apply lookup_replicate_2. lia.
Qed.

(** ** The knapsack recurrence *)

Lemma sum_weights_cons o l : sum_weights (o :: l) = Weight o + sum_weights l.
Proof. reflexivity. Qed.

Lemma sum_values_cons o l : sum_values (o :: l) = Value o + sum_values l.
Proof. reflexivity. Qed.

Lemma sum_weights_app l1 l2 : sum_weights (l1 ++ l2) = sum_weights l1 + sum_weights l2.
Proof. induction l1 as [|o l1 IH]; simpl; lia. Qed.

Lemma sum_values_app l1 l2 : sum_values (l1 ++ l2) = sum_values l1 + sum_values l2.
Proof. induction l1 as [|o l1 IH]; simpl; lia. Qed.

Lemma sum_weights_perm l1 l2 : l1 ≡ₚ l2 → sum_weights l1 = sum_weights l2.
Proof. induction 1; simpl; lia. Qed.

Lemma sum_values_perm l1 l2 : l1 ≡ₚ l2 → sum_values l1 = sum_values l2.
Proof. induction 1; simpl; lia. Qed.

Lemma sum_weights_nonneg l : Forall (λ o, 0 <= Weight o) l → 0 <= sum_weights l.
Proof. induction 1; simpl; lia. Qed.

Lemma sum_values_nonneg l : Forall (λ o, 0 <= Value o) l → 0 <= sum_values l.
Proof. induction 1; simpl; lia. Qed.

Lemma Forall_of_sublist (P : Order → Prop) l1 l2 :
  l1 `sublist_of` l2 → Forall P l2 → Forall P l1.
Proof.
  induction 1 as [|o l1 l2 _ IH|o l1 l2 _ IH]; intros Hall;
    [done| |]; inversion Hall; subst; auto.
Qed.

Lemma sum_values_sublist l1 l2 :
  Forall (λ o, 0 <= Value o) l2 → l1 `sublist_of` l2 → sum_values l1 <= sum_values l2.
Proof.
  intros Hpos Hsub. induction Hsub as [|o l1 l2 _ IH|o l1 l2 _ IH]; simpl.
  - lia.
  - inversion Hpos; subst. specialize (IH ltac:(done)). lia.
  - inversion Hpos; subst. specialize (IH ltac:(done)). lia.
Qed.

Lemma best_unfold o earlier w :
  best (o :: earlier) w =
    if taken o earlier w then best earlier (w - Weight o) + Value o else best earlier w.
Proof. reflexivity. Qed.

Lemma best_nonneg l w : 0 <= best l w.
Proof.
  revert w. induction l as [|o l IH]; intros w; [simpl; lia|].
  rewrite best_unfold. unfold taken.
  destruct (Weight o <=? w); simpl; [|apply IH].
  destruct (Z.ltb_spec (best l w) (best l (w - Weight o) + Value o)); [|apply IH].
  specialize (IH w). lia.
Qed.

Lemma best_skip o l w : best l w <= best (o :: l) w.
Proof.
  rewrite best_unfold. unfold taken.
  destruct (Weight o <=? w); simpl; [|lia].
  destruct (Z.ltb_spec (best l w) (best l (w - Weight o) + Value o)); lia.
Qed.

Lemma best_take o l w :
  Weight o <= w → best l (w - Weight o) + Value o <= best (o :: l) w.
Proof.
  intros Hw. rewrite best_unfold. unfold taken.
  destruct (Z.leb_spec (Weight o) w); [|lia]. simpl.
  destruct (Z.ltb_spec (best l w) (best l (w - Weight o) + Value o)); lia.
Qed.

Lemma best_le_sum l w : Forall (λ o, 0 <= Value o) l → best l w <= sum_values l.
Proof.
  intros Hpos. revert w. induction Hpos as [|o l Ho _ IH]; intros w; [simpl; lia|].
  rewrite best_unfold. simpl.
  destruct (taken o l w).
  - specialize (IH (w - Weight o)). lia.
  - specialize (IH w). lia.
Qed.

(** No sublist that fits the budget is worth more than the recurrence. *)
Lemma best_dominates l :
  Forall (λ o, 0 <= Weight o) l →
  ∀ chosen w, chosen `sublist_of` l → sum_weights chosen <= w →
    sum_values chosen <= best l w.
Proof.
  intros Hpos chosen w Hsub. revert w.
  induction Hsub as [|o c l Hcl IH|o c l Hcl IH]; intros w Hfit.
  - simpl. lia.
  - inversion Hpos as [|? ? Ho Hl]; subst.
    rewrite sum_weights_cons in Hfit. rewrite sum_values_cons.
    assert (0 <= sum_weights c).
    { apply sum_weights_nonneg. by eapply Forall_of_sublist. }
    specialize (IH Hl (w - Weight o) ltac:(lia)).
    pose proof (best_take o l w ltac:(lia)). lia.
  - inversion Hpos as [|? ? Ho Hl]; subst.
    specialize (IH Hl w Hfit). pose proof (best_skip o l w). lia.
Qed.

Lemma picks_sublist l w : picks l w `sublist_of` l.
Proof.
  revert w. induction l as [|o l IH]; intros w; simpl; [constructor|].
  destruct (taken o l w); [apply sublist_skip|apply sublist_cons]; apply IH.
Qed.

Lemma picks_values l w : sum_values (picks l w) = best l w.
Proof.
  revert w. induction l as [|o l IH]; intros w; [done|].
  rewrite best_unfold. simpl. destruct (taken o l w); simpl; rewrite IH; lia.
Qed.

Lemma picks_weights l w : 0 <= w → sum_weights (picks l w) <= w.
Proof.
  revert w. induction l as [|o l IH]; intros w Hw; simpl; [lia|].
  destruct (taken o l w) eqn:Htaken; simpl.
  - unfold taken in Htaken. apply andb_true_iff in Htaken as [Hle _].
    apply Z.leb_le in Hle. specialize (IH (w - Weight o) ltac:(lia)). lia.
  - by apply IH.
Qed.

Lemma picks_nil_at_zero l w :
  Forall (λ o, 0 < Weight o) l → w <= 0 → picks l w = [].
Proof.
  intros Hpos Hw. induction Hpos as [|o l Ho _ IH]; [done|]. simpl.
  unfold taken. destruct (Z.leb_spec (Weight o) w); [lia|]. simpl. apply IH.
Qed.

(** ** The inner loop fills one row of the recurrence *)

Lemma inner_loop_pass order i fuel w t :
  Weight order <= w →
  DP.inner_loop order i (S fuel) w t =
    DP.inner_body order i w t ≫= DP.inner_loop order i fuel (GoInt.sub w 1).
Proof.
  intros Hw. cbn [DP.inner_loop]. by destruct (Z.geb_spec w (Weight order)); [|lia].
Qed.

Lemma inner_loop_end order i fuel w t :
  w < Weight order → DP.inner_loop order i (S fuel) w t = Done t.
Proof.
  intros Hw. cbn [DP.inner_loop]. by destruct (Z.geb_spec w (Weight order)); [lia|].
Qed.

Section InnerLoop.

Variables (o : Order) (earlier : list Order) (capacity : Z) (i : nat).
Hypothesis Hcapacity : 0 <= capacity <= GoInt.max_int.
Hypothesis Hweight : 0 < Weight o.
Hypothesis Hfits : ∀ x, 0 <= x <= capacity →
  GoInt.in_range (best earlier x + Value o).

Lemma mixed_step w x :
  (if x =? w then best (o :: earlier) w else mixed o earlier w x) = mixed o earlier (w - 1) x.
Proof.
  unfold mixed. destruct (Z.eqb_spec x w) as [->|Hne].
  - destruct (Z.leb_spec w (w - 1)); [lia|done].
  - destruct (Z.leb_spec x w), (Z.leb_spec x (w - 1)); try lia; done.
Qed.

Lemma mixed_flags_step w x :
  (if x =? w then taken o earlier w else mixed_flags o earlier w x) = mixed_flags o earlier (w - 1) x.
Proof.
  unfold mixed_flags. destruct (Z.eqb_spec x w) as [->|Hne].
  - destruct (Z.leb_spec w (w - 1)); [lia|done].
  - destruct (Z.leb_spec x w), (Z.leb_spec x (w - 1)); try lia; done.
Qed.

Lemma mixed_below w x : w < Weight o → mixed o earlier w x = best (o :: earlier) x.
Proof.
  intros Hw. unfold mixed. destruct (Z.leb_spec x w); [|done].
  rewrite best_unfold. unfold taken.
  destruct (Z.leb_spec (Weight o) x); [lia|done].
Qed.

Lemma mixed_flags_below w x : w < Weight o → mixed_flags o earlier w x = taken o earlier x.
Proof.
  intros Hw. unfold mixed_flags. destruct (Z.leb_spec x w); [|done].
  unfold taken. destruct (Z.leb_spec (Weight o) x); [lia|done].
Qed.

Lemma inner_body_row w t row :
  Weight o <= w <= capacity →
  represents (DP.dp t) capacity (mixed o earlier w) →
  DP.keep t !! i = Some row → represents row capacity (mixed_flags o earlier w) →
  ∃ t' row', DP.inner_body o (Z.of_nat i) w t = Done t' ∧
    represents (DP.dp t') capacity (mixed o earlier (w - 1)) ∧
    DP.keep t' = <[i := row']> (DP.keep t) ∧
    represents row' capacity (mixed_flags o earlier (w - 1)).
Proof.
  intros Hw Hdp Hrow Hflags. unfold DP.inner_body.
  rewrite sub_exact by (apply in_range_between; lia).
  rewrite (represents_get _ _ _ (w - Weight o) Hdp) by lia.
  rewrite (represents_get _ _ _ w Hdp) by lia. run_step.
  assert (Hbelow : mixed o earlier w (w - Weight o) = best earlier (w - Weight o)).
  { unfold mixed. destruct (Z.leb_spec (w - Weight o) w); [done|lia]. }
  rewrite Hbelow, add_exact by (apply Hfits; lia).
  assert (Hcur : mixed o earlier w w = best earlier w).
  { unfold mixed. destruct (Z.leb_spec w w); [done|lia]. }
  rewrite Hcur.
  assert (Htaken : taken o earlier w =
                   (best earlier (w - Weight o) + Value o >? best earlier w)).
  { unfold taken. destruct (Z.leb_spec (Weight o) w); [|lia]. run_step.
    rewrite Z.gtb_ltb. done. }
  destruct (best earlier (w - Weight o) + Value o >? best earlier w) eqn:Hgt.
  - destruct (represents_set _ _ _ w (best earlier (w - Weight o) + Value o) Hdp)
      as [-> Hdp']; [lia|]. run_step.
    rewrite (get_Done _ _ row) by (rewrite ?Nat2Z.id; done || lia). run_step.
    destruct (represents_set _ _ _ w true Hflags) as [-> Hrow']; [lia|]. run_step.
    rewrite set_Done; [|lia|rewrite Nat2Z.id; by eapply lookup_lt_Some].
    simpl. rewrite Nat2Z.id. eexists _, _. split; [done|]. run_step.
    split; [|split; [done|]].
    + eapply represents_ext; [exact Hdp'|]. intros x Hx. run_step.
      rewrite <- mixed_step. destruct (Z.eqb_spec x w); [|done].
      rewrite best_unfold, Htaken. done.
    + eapply represents_ext; [exact Hrow'|]. intros x Hx. run_step.
      rewrite <- mixed_flags_step. destruct (Z.eqb_spec x w); [|done].
      by rewrite Htaken.
  - exists t, row. split; [done|]. split; [|split].
    + eapply represents_ext; [exact Hdp|]. intros x Hx.
      rewrite <- mixed_step. destruct (Z.eqb_spec x w) as [->|]; [|done].
      rewrite Hcur, best_unfold, Htaken. done.
    + symmetry. by apply list_insert_id.
    + eapply represents_ext; [exact Hflags|]. intros x Hx.
      rewrite <- mixed_flags_step. destruct (Z.eqb_spec x w) as [->|]; [|done].
      rewrite Htaken. unfold mixed_flags. destruct (Z.leb_spec w w); [done|lia].
Qed.

Lemma inner_loop_row fuel w t row :
  fuel = S (Z.to_nat (w - Weight o + 1)) → w <= capacity →
  represents (DP.dp t) capacity (mixed o earlier w) →
  DP.keep t !! i = Some row → represents row capacity (mixed_flags o earlier w) →
  ∃ t' row', DP.inner_loop o (Z.of_nat i) fuel w t = Done t' ∧
    represents (DP.dp t') capacity (best (o :: earlier)) ∧
    DP.keep t' = <[i := row']> (DP.keep t) ∧
    represents row' capacity (taken o earlier).
Proof.
  revert w t row. induction fuel as [|fuel IH]; intros w t row Hfuel Hw Hdp Hrow Hflags;
    [done|].
  destruct (Z.lt_ge_cases w (Weight o)) as [Hend|Hpass].
  - rewrite inner_loop_end by done. exists t, row. split; [done|]. split; [|split].
    + eapply represents_ext; [exact Hdp|]. intros x _. by apply mixed_below.
    + symmetry. by apply list_insert_id.
    + eapply represents_ext; [exact Hflags|]. intros x _. by apply mixed_flags_below.
  - rewrite inner_loop_pass by done.
    destruct (inner_body_row w t row) as (t1 & row1 & -> & Hdp1 & Hkeep1 & Hrow1);
      [lia|done..|].
    run_step. rewrite sub_exact by (apply in_range_between; lia).
    destruct (IH (w - 1) t1 row1) as (t2 & row2 & -> & Hdp2 & Hkeep2 & Hrow2);
      [lia|lia|done| |done|].
    { rewrite Hkeep1. apply list_lookup_insert_eq. by eapply lookup_lt_Some. }
    exists t2, row2. split; [done|]. split; [done|]. split; [|done].
    rewrite Hkeep2, Hkeep1. apply list_insert_insert_eq.
Qed.

End InnerLoop.

(** ** Memory safety of the dynamic program *)

Section Safety.

Variables (ctx : Context) (orders : list Order) (capacity : Z).
Hypothesis Hcapacity : 0 <= capacity < GoInt.max_int.
Hypothesis Hweights : Forall (λ o, 0 <= Weight o) orders.

Lemma alloc_sound :
  ∃ t, DP.alloc (length orders) capacity = Done t ∧ sound orders capacity t ∧
       DP.dp t = replicate (Z.to_nat (capacity + 1)) 0.
Proof.
  unfold DP.alloc. rewrite add_exact by (apply in_range_between; lia).
  rewrite !make_Done by lia. run_step. eexists. split; [done|]. simpl.
  split; [|done]. unfold sound. simpl.
  split; [by rewrite length_replicate|].
  split; [rewrite length_fmap, length_replicate; lia|].
  intros j row Hrow. apply list_lookup_fmap_Some in Hrow as (? & -> & _).
  unfold const.
  split; [by rewrite length_replicate|].
  intros w Hw. apply lookup_replicate in Hw as [? _]. done.
Qed.

Lemma inner_body_sound o i w t :
  orders !! i = Some o → Weight o <= w <= capacity → sound orders capacity t →
  ∃ t', DP.inner_body o (Z.of_nat (S i)) w t = Done t' ∧ sound orders capacity t'.
Proof.
  intros Ho Hw (Hdp & Hkeep & Hrows).
  assert (0 <= Weight o).
  { by apply (Forall_lookup_1 (λ o, 0 <= Weight o) orders i o). }
  unfold DP.inner_body. rewrite sub_exact by (apply in_range_between; lia).
  destruct (get_is_Done (DP.dp t) (w - Weight o)) as [below ->]; [lia..|].
  destruct (get_is_Done (DP.dp t) w) as [cur ->]; [lia..|]. run_step.
  destruct (GoInt.add below (Value o) >? cur); [|by exists t].
  rewrite set_Done by lia. run_step.
  assert (S i < length (DP.keep t))%nat as Hi.
  { apply lookup_lt_Some in Ho. lia. }
  destruct (lookup_lt_is_Some_2 _ _ Hi) as [row Hrow].
  destruct (Hrows _ _ Hrow) as [Hlen Hflags].
  rewrite (get_Done _ _ row) by (rewrite ?Nat2Z.id; done || lia). run_step.
  rewrite set_Done by lia. run_step.
  rewrite set_Done by (rewrite ?Nat2Z.id; lia). run_step.
  eexists. split; [done|]. rewrite Nat2Z.id. split; [|split]; simpl.
  - by rewrite length_insert.
  - by rewrite length_insert.
  - intros j row' Hrow'. destruct (decide (j = S i)) as [->|Hne].
    + rewrite list_lookup_insert_eq in Hrow' by done. injection Hrow' as <-.
      split; [by rewrite length_insert|]. intros w' Hw'.
      destruct (decide (w' = Z.to_nat w)) as [->|Hne'].
      * exists o. split; [lia|]. split; [done|]. lia.
      * rewrite list_lookup_insert_ne in Hw' by done. by apply Hflags.
    + rewrite list_lookup_insert_ne in Hrow' by done. by apply Hrows.
Qed.

Lemma inner_loop_sound o i fuel w t :
  orders !! i = Some o → fuel = S (Z.to_nat (w - Weight o + 1)) → w <= capacity →
  sound orders capacity t →
  ∃ t', DP.inner_loop o (Z.of_nat (S i)) fuel w t = Done t' ∧ sound orders capacity t'.
Proof.
  intros Ho. revert w t. induction fuel as [|fuel IH]; intros w t Hfuel Hw Ht; [done|].
  assert (0 <= Weight o).
  { by apply (Forall_lookup_1 (λ o, 0 <= Weight o) orders i o). }
  destruct (Z.lt_ge_cases w (Weight o)) as [Hend|Hpass].
  - rewrite inner_loop_end by done. by exists t.
  - rewrite inner_loop_pass by done.
    destruct (inner_body_sound o i w t) as (t1 & -> & Ht1); [done|lia|done|].
    run_step. rewrite sub_exact by (apply in_range_pred; lia).
    apply IH; [lia|lia|done].
Qed.

(** The outer loop never panics: it returns the error of a cancelled
    checkpoint, or sound orders capacity tables when no checkpoint was cancelled. *)
Lemma fill_sound k : ∀ m t,
  (m + k)%nat = length orders → sound orders capacity t →
  ∃ r, DP.fill ctx orders capacity (seqZ (Z.of_nat m + 1) (Z.of_nat k)) t = Done r ∧
    match r with
    | inl e => ∃ i, Z.of_nat m < i <= Z.of_nat (length orders) ∧
                    Z.rem i 50 = 0 ∧ ctx i = Some e
    | inr t' => sound orders capacity t' ∧
        ∀ i, Z.of_nat m < i <= Z.of_nat (length orders) → Z.rem i 50 = 0 → ctx i = None
    end.
Proof.
  induction k as [|k IH]; intros m t Hmk Ht.
  - exists (inr t). split; [done|]. split; [done|]. intros i Hi. lia.
  - rewrite seqZ_cons by lia. cbn [DP.fill].
    assert (m < length orders)%nat as Hm by lia.
    destruct (lookup_lt_is_Some_2 _ _ Hm) as [o Ho].
    rewrite (get_Done _ _ o) by (rewrite ?Z.add_simpl_r, ?Nat2Z.id; done || lia).
    run_step.
    destruct (Z.eqb_spec (Z.rem (Z.of_nat m + 1) 50) 0) as [Hrem|Hrem].
    + destruct (ctx (Z.of_nat m + 1)) as [e|] eqn:Hctx.
      * exists (inl e). split; [done|]. exists (Z.of_nat m + 1). split; [lia|done].
      * replace (Z.of_nat m + 1) with (Z.of_nat (S m)) by lia.
        destruct (inner_loop_sound o m (DP.inner_fuel capacity o) capacity t)
          as (t1 & -> & Ht1); [done..|lia|done|]. run_step.
        replace (Z.succ (Z.of_nat (S m))) with (Z.of_nat (S m) + 1) by lia.
        replace (Z.pred (Z.of_nat (S k))) with (Z.of_nat k) by lia.
        destruct (IH (S m) t1) as (r & -> & Hr); [lia|done|].
        exists r. split; [done|]. destruct r as [e|t2].
        -- destruct Hr as (i & Hi & Hr). exists i. split; [lia|done].
        -- destruct Hr as [Ht2 Hnone]. split; [done|]. intros i Hi Hi50.
           destruct (decide (i = Z.of_nat m + 1)) as [->|]; [done|].
           apply Hnone; [lia|done].
    + replace (Z.of_nat m + 1) with (Z.of_nat (S m)) by lia.
      destruct (inner_loop_sound o m (DP.inner_fuel capacity o) capacity t)
        as (t1 & -> & Ht1); [done..|lia|done|]. run_step.
      replace (Z.succ (Z.of_nat (S m))) with (Z.of_nat (S m) + 1) by lia.
      replace (Z.pred (Z.of_nat (S k))) with (Z.of_nat k) by lia.
      destruct (IH (S m) t1) as (r & -> & Hr); [lia|done|].
      exists r. split; [done|]. destruct r as [e|t2].
      * destruct Hr as (i & Hi & Hr). exists i. split; [lia|done].
      * destruct Hr as [Ht2 Hnone]. split; [done|]. intros i Hi Hi50.
        destruct (decide (i = Z.of_nat m + 1)) as [->|].
        -- by destruct Hrem.
        -- apply Hnone; [lia|done].
Qed.

End Safety.

(** ** The traceback stays within the tables and within the capacity *)

Section Traceback.

Variables (orders : list Order) (capacity : Z) (keep : list (list bool)).
Hypothesis Hcapacity : 0 <= capacity < GoInt.max_int.
Hypothesis Hweights : Forall (λ o, 0 <= Weight o) orders.
Hypothesis Hlen : length keep = S (length orders).
Hypothesis Hrows : ∀ j row, keep !! j = Some row →
  length row = Z.to_nat (capacity + 1) ∧
  ∀ w, row !! w = Some true →
    ∃ o, (0 < j)%nat ∧ orders !! pred j = Some o ∧ Weight o <= Z.of_nat w.

Lemma take_snoc_reverse (i : nat) o :
  orders !! i = Some o → reverse (take (S i) orders) = o :: reverse (take i orders).
Proof. intros Ho. erewrite take_S_r by done. apply reverse_snoc. Qed.

Lemma backtrack_sound i : ∀ s,
  (i <= length orders)%nat →
  0 <= DP.tr_w s → 0 <= DP.tr_weight s → DP.tr_weight s + DP.tr_w s <= capacity →
  ∃ s' chosen, DP.backtrack orders keep i s = Done s' ∧
    0 <= DP.tr_w s' ∧
    DP.tr_weight s' + DP.tr_w s' = DP.tr_weight s + DP.tr_w s ∧
    DP.tr_selected s' = DP.tr_selected s ++ chosen ∧
    DP.tr_weight s' = DP.tr_weight s + sum_weights chosen ∧
    chosen `sublist_of` reverse (take i orders).
Proof.
  induction i as [|i IH]; intros s Hi Hw Htw Hsum.
  - exists s, []. rewrite app_nil_r. simpl. repeat split; try done; try lia.
  - cbn [DP.backtrack]. destruct (Z.gtb_spec (DP.tr_w s) 0) as [Hpos|Hzero].
    + assert (S i < length keep)%nat as Hrow by lia.
      destruct (lookup_lt_is_Some_2 _ _ Hrow) as [row Hrow'].
      destruct (Hrows _ _ Hrow') as [Hrowlen Hflags].
      rewrite (get_Done _ _ row) by (rewrite ?Nat2Z.id; done || lia). run_step.
      destruct (get_is_Done row (DP.tr_w s)) as [k Hk]; [lia..|].
      rewrite Hk. run_step. destruct k.
      * assert (row !! Z.to_nat (DP.tr_w s) = Some true) as Hset.
        { unfold Slice.get in Hk. destruct (DP.tr_w s <? 0); [done|].
          destruct (row !! Z.to_nat (DP.tr_w s)) as [[]|]; done. }
        destruct (Hflags _ Hset) as (o & _ & Ho & Hfit). simpl in Ho.
        assert (0 <= Weight o).
        { by apply (Forall_lookup_1 (λ o, 0 <= Weight o) orders i o). }
        rewrite (get_Done _ _ o)
          by (rewrite ?Nat2Z.inj_succ, ?Z.sub_1_r, ?Z.pred_succ, ?Nat2Z.id; done || lia).
        run_step.
        rewrite sub_exact, add_exact by (apply in_range_between; lia).
        destruct (IH (DP.mkTrace (DP.tr_w s - Weight o) (DP.tr_selected s ++ [o])
                                 (DP.tr_weight s + Weight o)))
          as (s' & chosen & -> & Hw' & Hsum' & Hsel & Hweight & Hsub);
          simpl; [lia..|].
        simpl in *. exists s', (o :: chosen). split; [done|].
        rewrite sum_weights_cons, Hsel, <- app_assoc.
        repeat split; try done; try lia.
        rewrite (take_snoc_reverse i o Ho). by apply sublist_skip.
      * destruct (IH s) as (s' & chosen & -> & Hw' & Hsum' & Hsel & Hweight & Hsub);
          [lia|done..|].
        exists s', chosen. repeat split; try done.
        destruct (orders !! i) as [o|] eqn:Ho.
        -- rewrite (take_snoc_reverse i o Ho). by apply sublist_cons.
        -- apply lookup_ge_None in Ho. lia.
    + exists s, []. rewrite app_nil_r. simpl.
      repeat split; try done; try lia. apply sublist_nil_l.
Qed.

End Traceback.

(** ** What selectOrdersDP returns *)

Lemma selectOrdersDP_outcome ctx orders robotID capacity :
  0 <= capacity < GoInt.max_int →
  Forall (λ o, 0 <= Weight o) orders →
  ∃ r, selectOrdersDP ctx orders robotID capacity = Done r ∧
    match r with
    | (plan, Some e) =>
        plan = zero_plan ∧
        ∃ i, 0 < i <= Z.of_nat (length orders) ∧ Z.rem i 50 = 0 ∧ ctx i = Some e
    | (plan, None) =>
        not_cancelled ctx (length orders) ∧
        RobotID plan = robotID ∧
        Orders plan `sublist_of` reverse orders ∧
        TotalWeight plan = sum_weights (Orders plan) ∧
        TotalWeight plan <= capacity
    end.
Proof.
  intros Hcap Hweights. unfold selectOrdersDP.
  destruct (alloc_sound orders capacity Hcap) as (t0 & -> & Ht0 & _). run_step.
  destruct (fill_sound ctx orders capacity Hcap Hweights (length orders) 0 t0)
    as (r & Hfill & Hr); [done..|].
  change (Z.of_nat 0 + 1) with 1 in Hfill. rewrite Hfill. run_step.
  destruct r as [e|t].
  - exists (zero_plan, Some e). split; [done|]. split; [done|].
    destruct Hr as (i & Hi & Hr). exists i. split; [lia|done].
  - destruct Hr as [(Hdp & Hkeep & Hrows) Hnone].
    destruct (backtrack_sound orders capacity (DP.keep t) Hcap Hweights Hkeep Hrows
                (length orders) (DP.mkTrace capacity [] 0))
      as (s & chosen & -> & Hw & Hsum & Hsel & Hweight & Hsub); simpl; [lia..|].
    run_step. destruct (get_is_Done (DP.dp t) capacity) as [total ->]; [lia..|].
    run_step. eexists. split; [done|]. simpl in *. subst.
    rewrite firstn_all in Hsub. repeat split; try done; try lia.
Qed.

(** ** The dynamic program computes the recurrence *)

Section Optimal.

Variables (ctx : Context) (orders : list Order) (capacity : Z).
Hypothesis Hcapacity : 0 <= capacity < GoInt.max_int.
Hypothesis Hweights : Forall (λ o, 0 < Weight o) orders.
Hypothesis Hfits : ∀ m o x, orders !! m = Some o → 0 <= x <= capacity →
  GoInt.in_range (best (reverse (take m orders)) x + Value o).

Lemma alloc_filled :
  ∃ t, DP.alloc (length orders) capacity = Done t ∧ filled orders capacity 0 t.
Proof.
  unfold DP.alloc. rewrite add_exact by (apply in_range_between; lia).
  rewrite !make_Done by lia. run_step. eexists. split; [done|].
  unfold filled. simpl. split; [|split].
  - eapply represents_ext; [apply represents_replicate; lia|]. done.
  - rewrite length_fmap, length_replicate. lia.
  - intros j row Hrow. apply list_lookup_fmap_Some in Hrow as (? & -> & _).
    unfold const. eapply represents_ext; [apply represents_replicate; lia|].
    intros w _. simpl. destruct (Nat.leb_spec j 0); [|done].
    by replace j with O by lia.
Qed.

Lemma fill_filled k : ∀ m t,
  (m + k)%nat = length orders → filled orders capacity m t →
  (∀ i, Z.of_nat m < i <= Z.of_nat (length orders) → Z.rem i 50 = 0 → ctx i = None) →
  ∃ t', DP.fill ctx orders capacity (seqZ (Z.of_nat m + 1) (Z.of_nat k)) t
          = Done (inr t') ∧ filled orders capacity (length orders) t'.
Proof.
  induction k as [|k IH]; intros m t Hmk Ht Hctx.
  - exists t. split; [done|]. by replace (length orders) with m by lia.
  - rewrite seqZ_cons by lia. cbn [DP.fill].
    assert (m < length orders)%nat as Hm by lia.
    destruct (lookup_lt_is_Some_2 _ _ Hm) as [o Ho].
    rewrite (get_Done _ _ o) by (rewrite ?Z.add_simpl_r, ?Nat2Z.id; done || lia).
    run_step.
    assert ((if Z.rem (Z.of_nat m + 1) 50 =? 0 then ctx (Z.of_nat m + 1) else None)
            = None) as ->.
    { destruct (Z.eqb_spec (Z.rem (Z.of_nat m + 1) 50) 0); [|done].
      apply Hctx; [lia|done]. }
    destruct Ht as (Hdp & Hkeep & Hrows).
    assert (S m < length (DP.keep t))%nat as Hrow by lia.
    destruct (lookup_lt_is_Some_2 _ _ Hrow) as [row Hrow'].
    replace (Z.of_nat m + 1) with (Z.of_nat (S m)) by lia.
    destruct (inner_loop_row o (reverse (take m orders)) capacity (S m)
                ltac:(lia)
                ltac:(by apply (Forall_lookup_1 (λ o, 0 < Weight o) orders m o))
                (λ x Hx, Hfits m o x Ho Hx)
                (DP.inner_fuel capacity o) capacity t row)
      as (t1 & row1 & -> & Hdp1 & Hkeep1 & Hrow1); [done|lia| | done | |].
    { eapply represents_ext; [exact Hdp|]. intros x Hx. unfold mixed.
      destruct (Z.leb_spec x capacity); [done|lia]. }
    { eapply represents_ext; [exact (Hrows _ _ Hrow')|]. intros x Hx. cbv beta.
      unfold mixed_flags. destruct (Z.leb_spec x capacity); [|lia].
      destruct (Nat.leb_spec (S m) m); [lia|done]. }
    run_step.
    replace (Z.succ (Z.of_nat (S m))) with (Z.of_nat (S m) + 1) by lia.
    replace (Z.pred (Z.of_nat (S k))) with (Z.of_nat k) by lia.
    apply IH; [lia| |intros i Hi; apply Hctx; lia].
    split; [|split].
    + by rewrite (take_snoc_reverse orders m o Ho).
    + rewrite Hkeep1, length_insert. done.
    + intros j rowj Hj. rewrite Hkeep1 in Hj.
      destruct (decide (j = S m)) as [->|Hne].
      * rewrite list_lookup_insert_eq in Hj by done. injection Hj as <-.
        eapply represents_ext; [exact Hrow1|]. intros x _. cbv beta.
        rewrite Nat.leb_refl. unfold flag. by rewrite Ho.
      * rewrite list_lookup_insert_ne in Hj by done.
        eapply represents_ext; [exact (Hrows _ _ Hj)|]. intros x _. cbv beta.
        destruct (Nat.leb_spec j m), (Nat.leb_spec j (S m)); try lia; done.
Qed.

Lemma backtrack_picks keep i : ∀ s,
  length keep = S (length orders) →
  (∀ j row, keep !! j = Some row → represents row capacity (flag orders j)) →
  (i <= length orders)%nat →
  0 <= DP.tr_w s → 0 <= DP.tr_weight s → DP.tr_weight s + DP.tr_w s <= capacity →
  DP.backtrack orders keep i s =
    Done (DP.mkTrace
            (DP.tr_w s - sum_weights (picks (reverse (take i orders)) (DP.tr_w s)))
            (DP.tr_selected s ++ picks (reverse (take i orders)) (DP.tr_w s))
            (DP.tr_weight s + sum_weights (picks (reverse (take i orders)) (DP.tr_w s)))).
Proof.
  intros s Hlen Hrows. revert s.
  induction i as [|i IH]; intros [w sel tw] Hi Hw Htw Hsum; simpl in Hw, Htw, Hsum.
  - simpl. rewrite app_nil_r, Z.sub_0_r, Z.add_0_r. done.
  - cbn [DP.backtrack DP.tr_w DP.tr_selected DP.tr_weight].
    assert (i < length orders)%nat as Hi' by lia.
    destruct (lookup_lt_is_Some_2 _ _ Hi') as [o Ho].
    rewrite (take_snoc_reverse orders i o Ho).
    assert (0 < Weight o) as Hwt.
    { by apply (Forall_lookup_1 (λ o, 0 < Weight o) orders i o). }
    destruct (Z.gtb_spec w 0) as [Hpos|Hzero].
    + assert (S i < length keep)%nat as Hrow by lia.
      destruct (lookup_lt_is_Some_2 _ _ Hrow) as [row Hrow'].
      rewrite (get_Done _ _ row) by (rewrite ?Nat2Z.id; done || lia). run_step.
      rewrite (represents_get _ _ _ w (Hrows _ _ Hrow')) by lia. run_step.
      unfold flag. rewrite Ho. cbn [picks].
      destruct (taken o (reverse (take i orders)) w) eqn:Htaken.
      * rewrite (get_Done _ _ o)
          by (rewrite ?Nat2Z.inj_succ, ?Z.sub_1_r, ?Z.pred_succ, ?Nat2Z.id; done || lia).
        run_step. unfold taken in Htaken. apply andb_true_iff in Htaken as [Hle _].
        apply Z.leb_le in Hle.
        rewrite sub_exact, add_exact by (apply in_range_between; lia).
        rewrite IH by (simpl; lia). simpl.
        rewrite <- app_assoc. simpl. f_equal. f_equal; lia.
      * rewrite IH by (simpl; lia). done.
    + replace w with 0 by lia.
      rewrite (picks_nil_at_zero (o :: reverse (take i orders)) 0); [|constructor|lia].
      * simpl. rewrite app_nil_r, Z.sub_0_r, Z.add_0_r. done.
      * done.
      * apply Forall_reverse, Forall_take, Hweights.
Qed.

End Optimal.

(** Values that add up within [int] never wrap inside the recurrence. *)
Lemma sum_values_take m orders :
  Forall (λ o, 0 <= Value o) orders →
  sum_values (take m orders) <= sum_values orders.
Proof.
  intros Hpos. rewrite <- (take_drop m orders) at 2. rewrite sum_values_app.
  pose proof (sum_values_nonneg (drop m orders) (Forall_drop _ _ _ Hpos)). lia.
Qed.

Lemma fits_of_sum orders :
  Forall (λ o, 0 <= Value o) orders → sum_values orders <= GoInt.max_int →
  ∀ m o x, orders !! m = Some o →
    GoInt.in_range (best (reverse (take m orders)) x + Value o).
Proof.
  intros Hpos Hsum m o x Ho. apply in_range_between.
  pose proof (best_nonneg (reverse (take m orders)) x).
  assert (0 <= Value o).
  { by apply (Forall_lookup_1 (λ o, 0 <= Value o) orders m o). }
  split; [lia|].
  pose proof (best_le_sum (reverse (take m orders)) x
                ltac:(by apply Forall_reverse, Forall_take)) as Hle.
  rewrite (sum_values_perm _ _ (reverse_Permutation _)) in Hle.
  pose proof (sum_values_take (S m) orders Hpos) as Htake.
  rewrite (take_S_r _ _ _ Ho), sum_values_app in Htake. simpl in Htake. lia.
Qed.

(** The plan of the dynamic program, in closed form. *)
Lemma selectOrdersDP_closed_form ctx orders robotID capacity :
  0 <= capacity < GoInt.max_int →
  Forall (λ o, 0 < Weight o) orders →
  (∀ m o x, orders !! m = Some o → 0 <= x <= capacity →
     GoInt.in_range (best (reverse (take m orders)) x + Value o)) →
  not_cancelled ctx (length orders) →
  selectOrdersDP ctx orders robotID capacity =
    Done (mkPlan robotID
            (sum_weights (picks (reverse orders) capacity))
            (best (reverse orders) capacity)
            (picks (reverse orders) capacity), None).
Proof.
  intros Hcap Hweights Hfits Hctx. unfold selectOrdersDP.
  destruct (alloc_filled orders capacity Hcap) as (t0 & -> & Ht0). run_step.
  destruct (fill_filled ctx orders capacity Hcap Hweights Hfits (length orders) 0 t0)
    as (t & Hfill & Hdp & Hkeep & Hrows); [done..|].
  change (Z.of_nat 0 + 1) with 1 in Hfill. rewrite Hfill. run_step.
  rewrite (backtrack_picks orders capacity Hcap Hweights (DP.keep t)); simpl;
    [|done| |lia..].
  - run_step. rewrite firstn_all in *.
    rewrite (represents_get _ _ _ capacity Hdp) by lia. run_step.
    by rewrite Z.add_0_l.
  - intros j row Hrow. eapply represents_ext; [exact (Hrows j row Hrow)|].
    intros x _. cbv beta. apply lookup_lt_Some in Hrow.
    destruct (Nat.leb_spec j (length orders)); [done|lia].
Qed.

Lemma selectOrdersDP_exact ctx orders robotID capacity :
  0 <= capacity < GoInt.max_int →
  Forall (λ o, 0 < Weight o) orders →
  Forall (λ o, 0 <= Value o) orders →
  sum_values orders <= GoInt.max_int →
  not_cancelled ctx (length orders) →
  selectOrdersDP ctx orders robotID capacity =
    Done (mkPlan robotID
            (sum_weights (picks (reverse orders) capacity))
            (best (reverse orders) capacity)
            (picks (reverse orders) capacity), None).
Proof.
  intros Hcap Hweights Hvalues Hsum Hctx.
  apply selectOrdersDP_closed_form; try done.
  intros m o x Ho _. by apply fits_of_sum.
Qed.

(** The recurrence is the optimum over all choices that fit. *)
Lemma best_is_optimum orders capacity chosen :
  Forall (λ o, 0 <= Weight o) orders →
  feasible orders capacity chosen → sum_values chosen <= best (reverse orders) capacity.
Proof.
  intros Hweights [Hsub Hfit].
  rewrite <- (reverse_Permutation orders) in Hsub.
  apply submseteq_sublist_r in Hsub as (l & Hperm & Hsub).
  rewrite (sum_values_perm _ _ Hperm).
  rewrite (sum_weights_perm _ _ Hperm) in Hfit.
  apply best_dominates; [by apply Forall_reverse|done..].
Qed.

Lemma picks_feasible orders capacity :
  0 <= capacity → feasible orders capacity (picks (reverse orders) capacity).
Proof.
  intros Hcap. split; [|by apply picks_weights].
  rewrite <- (reverse_Permutation orders) at 2.
  apply sublist_submseteq, picks_sublist.
Qed.

(** ** Insertion sort meets the contract of sort.Slice *)

Section InsertionSort.

Variables (less : Order → Order → bool) (universe : list Order).
Hypothesis Hswo : strict_weak_order_on less universe.

Lemma sift_perm x before : sift less x before ≡ₚ x :: before.
Proof.
  induction before as [|y before IH]; simpl; [done|].
  destruct (less x y); [|done]. rewrite IH. apply Permutation_swap.
Qed.

Lemma sift_fold_perm l : ∀ before,
  fold_left (λ before x, sift less x before) l before ≡ₚ l ++ before.
Proof.
  induction l as [|x l IH]; intros before; simpl; [done|].
  rewrite IH, sift_perm. by rewrite Permutation_middle.
Qed.

(** The reversed prefix is kept in descending position: nothing in it is
    ranked strictly before an element further down. *)
Lemma sift_sorted x before :
  x ∈ universe → before ⊆ universe →
  StronglySorted (λ a b, less a b = false) before →
  StronglySorted (λ a b, less a b = false) (sift less x before).
Proof.
  destruct Hswo as (Hirr & Htrans & Hneg). intros Hx Hsub Hsorted.
  induction Hsorted as [|y before Hsorted IH Hy]; simpl.
  - repeat constructor.
  - assert (y ∈ universe) by (apply Hsub; left).
    assert (before ⊆ universe) by (intros z Hz; apply Hsub; by right).
    destruct (less x y) eqn:Hxy.
    + constructor; [by apply IH|].
      rewrite sift_perm. constructor; [|done].
      destruct (less y x) eqn:Hyx; [|done].
      rewrite <- (Hirr x Hx). symmetry. by apply (Htrans x y x).
    + constructor; [by constructor|]. constructor; [done|].
      rewrite Forall_forall in Hy |- *. intros z Hz.
      apply (Hneg x y z); auto.
Qed.

Lemma sift_fold_sorted l : ∀ before,
  l ⊆ universe → before ⊆ universe →
  StronglySorted (λ a b, less a b = false) before →
  StronglySorted (λ a b, less a b = false)
    (fold_left (λ before x, sift less x before) l before).
Proof.
  induction l as [|x l IH]; intros before Hl Hbefore Hsorted; simpl; [done|].
  assert (x ∈ universe) by (apply Hl; left).
  apply IH.
  - intros z Hz. apply Hl. by right.
  - intros z Hz. rewrite sift_perm in Hz.
    apply elem_of_cons in Hz as [->|Hz]; auto.
  - by apply sift_sorted.
Qed.

Lemma descending_reverse (l : list Order) :
  StronglySorted (λ a b, less a b = false) l → ordered_by less (reverse l).
Proof.
  unfold ordered_by. induction 1 as [|x l Hsorted IH Hx]; [constructor|].
  rewrite reverse_cons. apply StronglySorted_app.
  split; [|split; [done|repeat constructor]].
  intros a b Ha Hb. apply list_elem_of_singleton in Hb as ->.
  rewrite Forall_forall in Hx. apply Hx. by apply elem_of_reverse.
Qed.

End InsertionSort.

Lemma insertionSort_perm less l : insertionSort less l ≡ₚ l.
Proof.
  unfold insertionSort. rewrite reverse_Permutation, sift_fold_perm.
  by rewrite app_nil_r.
Qed.

Lemma insertionSort_ordered less l :
  strict_weak_order_on less l → ordered_by less (insertionSort less l).
Proof.
  intros Hswo. apply descending_reverse.
  apply (sift_fold_sorted less l Hswo); [done| |constructor].
  intros z Hz. inversion Hz.
Qed.

Lemma strict_weak_order_test_holds less l :
  strict_weak_order_on less l → strict_weak_order_test less l = true.
Proof.
  intros (Hirr & Htrans & Hneg). unfold strict_weak_order_test.
  apply andb_true_intro. split.
  - apply forallb_forall. intros a Ha%list_elem_of_In. by rewrite Hirr.
  - apply forallb_forall. intros a Ha%list_elem_of_In.
    apply forallb_forall. intros b Hb%list_elem_of_In.
    apply forallb_forall. intros c Hc%list_elem_of_In.
    specialize (Htrans a b c Ha Hb Hc). specialize (Hneg a b c Ha Hb Hc).
    destruct (less a b), (less b c), (less a c); try done;
      try (by discriminate Htrans); by discriminate Hneg.
Qed.

Lemma library_sort_perm next less l : library_sort next less l ≡ₚ l.
Proof.
  unfold library_sort, meets_contract. cbv zeta.
  case_bool_decide as Hperm; [|apply insertionSort_perm].
  destruct (implb _ _); [done|apply insertionSort_perm].
Qed.

Lemma library_sort_ordered next less l :
  strict_weak_order_on less l → ordered_by less (library_sort next less l).
Proof.
  intros Hswo. unfold library_sort, meets_contract. cbv zeta.
  rewrite (strict_weak_order_test_holds less l Hswo).
  case_bool_decide as Hperm; [|by apply insertionSort_ordered].
  case_bool_decide as Hsorted; [done|by apply insertionSort_ordered].
Qed.

(** The sort as it runs on short slices. *)
Definition insertion : SliceSorter :=
  {| sort_Slice := insertionSort;
     sort_Slice_perm := insertionSort_perm;
     sort_Slice_ordered := insertionSort_ordered |}.

(** The sort of the library. *)
Definition library (next : Z → Z) : SliceSorter :=
  {| sort_Slice := library_sort next;
     sort_Slice_perm := library_sort_perm next;
     sort_Slice_ordered := library_sort_ordered next |}.

(** ** The greedy walk *)

Lemma greedy_picks_sublist capacity sorted weight :
  greedy_picks capacity sorted weight `sublist_of` sorted.
Proof.
  revert weight. induction sorted as [|o rest IH]; intros weight; simpl; [done|].
  destruct (weight + Weight o <=? capacity);
    [apply sublist_skip|apply sublist_cons]; apply IH.
Qed.

Lemma greedy_picks_fit capacity sorted weight :
  weight <= capacity →
  weight + sum_weights (greedy_picks capacity sorted weight) <= capacity.
Proof.
  revert weight. induction sorted as [|o rest IH]; intros weight Hw; simpl; [lia|].
  destruct (Z.leb_spec (weight + Weight o) capacity) as [Hfit|Hfit].
  - rewrite sum_weights_cons. specialize (IH _ Hfit). lia.
  - by apply IH.
Qed.

Lemma greedy_walk_exact capacity sorted : ∀ s,
  Forall (λ o, 0 <= Weight o ∧ capacity + Weight o <= GoInt.max_int) sorted →
  0 <= ta_weight s <= capacity →
  greedy_walk capacity sorted s =
    mkTally (ta_selected s ++ greedy_picks capacity sorted (ta_weight s))
            (ta_weight s + sum_weights (greedy_picks capacity sorted (ta_weight s)))
            (machine_value (ta_value s) (greedy_picks capacity sorted (ta_weight s))).
Proof.
  induction sorted as [|o rest IH]; intros [sel tw tv] Hall Hw; simpl in Hw |- *.
  - by rewrite app_nil_r, Z.add_0_r.
  - inversion Hall as [|? ? [Ho Hfit] Hrest]; subst.
    rewrite add_exact by (apply in_range_between; lia).
    destruct (Z.leb_spec (tw + Weight o) capacity) as [Hle|Hgt].
    + rewrite IH by (done || simpl; lia). simpl.
      rewrite <- app_assoc. simpl. f_equal. lia.
    + by rewrite IH.
Qed.

Lemma machine_value_exact chosen : ∀ start,
  Forall (λ o, 0 <= Value o) chosen →
  0 <= start → start + sum_values chosen <= GoInt.max_int →
  machine_value start chosen = start + sum_values chosen.
Proof.
  unfold machine_value.
  induction chosen as [|o chosen IH]; intros start Hall Hstart Hsum;
    [simpl; lia|cbn [fold_left]].
  inversion Hall as [|? ? Ho Hrest]; subst. rewrite sum_values_cons in Hsum.
  pose proof (sum_values_nonneg chosen Hrest).
  rewrite add_exact by (apply in_range_between; lia).
  rewrite IH by (done || lia). rewrite sum_values_cons. lia.
Qed.

(** The plan of the greedy in closed form, whenever adding a weight to a
    running total within the capacity cannot wrap. *)
Lemma selectOrdersGreedy_exact `{SliceSorter} orders robotID capacity :
  0 <= capacity →
  Forall (λ o, 0 <= Weight o ∧ capacity + Weight o <= GoInt.max_int) orders →
  let chosen := greedy_picks capacity (greedy_sequence orders) 0 in
  selectOrdersGreedy orders robotID capacity =
    mkPlan robotID (sum_weights chosen) (machine_value 0 chosen) chosen.
Proof.
  intros Hcap Hall chosen. unfold selectOrdersGreedy.
  assert (greedy_sequence orders ≡ₚ orders) as Hperm by apply sort_Slice_perm.
  destruct orders as [|o orders].
  - apply Permutation_nil_r in Hperm. unfold chosen. by rewrite Hperm.
  - rewrite greedy_walk_exact; [done| |simpl; lia].
    by rewrite Hperm.
Qed.

Lemma greedy_picks_feasible `{SliceSorter} orders capacity :
  0 <= capacity →
  feasible orders capacity (greedy_picks capacity (greedy_sequence orders) 0).
Proof.
  intros Hcap. split.
  - rewrite <- (sort_Slice_perm ratio_less orders) at 2.
    apply sublist_submseteq, greedy_picks_sublist.
  - pose proof (greedy_picks_fit capacity (greedy_sequence orders) 0 Hcap). lia.
Qed.

(** ** Facts about the selection and the orchestrator *)

Lemma max_int_value : GoInt.max_int = 9223372036854775807.
Proof. reflexivity. Qed.

Lemma positive_orders_weights orders :
  Forall positive_order orders → Forall (λ o, 0 < Weight o) orders.
Proof. intros Hall. eapply Forall_impl; [exact Hall|]. by intros o [[? _] _]. Qed.

Lemma positive_orders_values orders :
  Forall positive_order orders → Forall (λ o, 0 <= Value o) orders.
Proof. intros Hall. eapply Forall_impl; [exact Hall|]. intros o [_ [? _]]. lia. Qed.

Lemma positive_weights_nonneg orders :
  Forall (λ o, 0 < Weight o) orders → Forall (λ o, 0 <= Weight o) orders.
Proof. intros Hall. eapply Forall_impl; [exact Hall|]. intros o ?. simpl in *. lia. Qed.

Lemma exact_path `{SliceSorter} ctx orders robotID capacity :
  orders ≠ [] → (length orders <= 500)%nat → capacity <= 5000 →
  selectOrdersForDeliveryOptimized ctx orders robotID capacity =
    selectOrdersDP ctx orders robotID capacity.
Proof.
  intros Hne Hn Hcap. unfold selectOrdersForDeliveryOptimized.
  destruct orders as [|o orders]; [done|]. cbn [length Nat.eqb].
  destruct (Z.gtb_spec (Z.of_nat (S (length orders))) 500); [simpl in *; lia|].
  destruct (Z.gtb_spec capacity 5000); [lia|done].
Qed.

Lemma approximate_path `{SliceSorter} ctx orders robotID capacity :
  orders ≠ [] → (500 < length orders)%nat ∨ 5000 < capacity →
  selectOrdersForDeliveryOptimized ctx orders robotID capacity =
    Done (selectOrdersGreedy orders robotID capacity, None).
Proof.
  intros Hne Hbig. unfold selectOrdersForDeliveryOptimized.
  destruct orders as [|o orders]; [done|]. cbn [length Nat.eqb].
  destruct (Z.gtb_spec (Z.of_nat (S (length orders))) 500); [done|].
  destruct (Z.gtb_spec capacity 5000); [done|]. simpl in *. lia.
Qed.

Lemma store_eta s : mkStore (table s) (sent s) = s.
Proof. by destruct s. Qed.

Lemma fetch_failure `{SliceSorter} env ctx robotID capacity s e :
  fetch_fault env = Some e →
  GenerateDeliveryPlan env ctx robotID capacity s = Done (s, None, Some e).
Proof.
  intros Hfault.
  unfold GenerateDeliveryPlan, WithTimeout, ExecTx, plan_in_tx, GetShippingOrders.
  rewrite Hfault. run_step. by rewrite store_eta.
Qed.

(** What a request returns once the fetch has succeeded, by the outcome of
    the selection. *)
Lemma GenerateDeliveryPlan_after_fetch `{SliceSorter} env ctx robotID capacity s :
  fetch_fault env = None →
  GenerateDeliveryPlan env ctx robotID capacity s =
    match selectOrdersForDeliveryOptimized (with_deadline env ctx)
            (fetched env s) robotID capacity with
    | Panicked p => Panicked p
    | Done (plan, Some e) => Done (s, None, Some e)
    | Done (plan, None) =>
        match Orders plan with
        | [] =>
            match commit_fault env with
            | Some e => Done (s, None, Some e)
            | None => Done (s, Some plan, None)
            end
        | _ =>
            let sent' := sent s ++ [claim_statement plan] in
            match update_fault env, commit_fault env with
            | Some e, _ => Done (mkStore (table s) sent', None, Some e)
            | None, Some e => Done (mkStore (table s) sent', None, Some e)
            | None, None =>
                Done (mkStore (set_statuses (OrderID <$> Orders plan) "delivering"
                                 (table s)) sent',
                      Some plan, None)
            end
        end
    end.
Proof.
  intros Hfetch.
  unfold GenerateDeliveryPlan, WithTimeout, ExecTx, plan_in_tx, fetched,
    GetShippingOrders.
  rewrite Hfetch. cbn [fst].
  destruct (selectOrdersForDeliveryOptimized _ _ _ _) as [[plan [e|]]|p];
    run_step; [by rewrite store_eta| |done].
  destruct (Orders plan) as [|o chosen] eqn:Hchosen.
  - cbn [length Nat.ltb Nat.leb]. run_step.
    destruct (commit_fault env); run_step; by rewrite ?store_eta.
  - cbn [length Nat.ltb Nat.leb]. unfold UpdateStatuses, claim_statement.
    rewrite Hchosen. cbn [fmap list_fmap].
    destruct (update_fault env); run_step; [done|].
    destruct (commit_fault env); run_step; done.
Qed.

Lemma set_statuses_claimed orderIDs newStatus t :
  Forall (λ r, row_id r ∈ orderIDs → shipped_status r = newStatus)
    (set_statuses orderIDs newStatus t).
Proof.
  unfold set_statuses. apply Forall_fmap, Forall_forall. intros r _. simpl.
  destruct (bool_decide_reflect (row_id r ∈ orderIDs)); simpl; done.
Qed.

Lemma set_statuses_others orderIDs newStatus t i r :
  t !! i = Some r → row_id r ∉ orderIDs →
  set_statuses orderIDs newStatus t !! i = Some r.
Proof.
  intros Hr Hnot. unfold set_statuses. rewrite list_lookup_fmap, Hr. simpl.
  by rewrite bool_decide_eq_false_2.
Qed.

(** Every failing step makes the call fail. *)
Lemma failing_step_fails `{SliceSorter} env ctx robotID capacity s plan e :
  fetch_fault env = Some e ∨
  selectOrdersForDeliveryOptimized (with_deadline env ctx) (fetched env s)
    robotID capacity = Done (plan, Some e) ∨
  (update_fault env = Some e ∧ fetch_fault env = None ∧ Orders plan ≠ [] ∧
   selectOrdersForDeliveryOptimized (with_deadline env ctx) (fetched env s)
     robotID capacity = Done (plan, None)) →
  ∃ s', GenerateDeliveryPlan env ctx robotID capacity s = Done (s', None, Some e) ∧
        table s' = table s.
Proof.
  intros [Hfetch|Hrest].
  { exists s. by rewrite (fetch_failure env ctx robotID capacity s e). }
  destruct (fetch_fault env) as [e'|] eqn:Hfetch.
  { destruct Hrest as [Hsel|(_ & ? & _)]; [|done].
    unfold fetched, GetShippingOrders in Hsel. rewrite Hfetch in Hsel.
    unfold selectOrdersForDeliveryOptimized in Hsel. simpl in Hsel. done. }
  rewrite GenerateDeliveryPlan_after_fetch by done.
  destruct Hrest as [->|(Hupdate & _ & Hne & ->)]; [by exists s|].
  destruct (Orders plan); [done|]. cbv zeta. rewrite Hupdate. by eexists.
Qed.

Lemma request_outcomes `{SliceSorter} env ctx robotID capacity s :
  match GenerateDeliveryPlan env ctx robotID capacity s with
  | Panicked _ => True
  | Done (s', Some plan, None) =>
      fetch_fault env = None ∧ commit_fault env = None ∧
      selectOrdersForDeliveryOptimized (with_deadline env ctx) (fetched env s)
        robotID capacity = Done (plan, None) ∧
      match Orders plan with
      | [] => s' = s
      | _ =>
          update_fault env = None ∧
          sent s' = sent s ++ [(OrderID <$> Orders plan, "delivering")] ∧
          table s' = set_statuses (OrderID <$> Orders plan) "delivering" (table s) ∧
          Forall (λ r, row_id r ∈ OrderID <$> Orders plan →
                       shipped_status r = "delivering") (table s')
      end
  | Done (s', None, Some e) => table s' = table s
  | Done (_, Some _, Some _) | Done (_, None, None) => False
  end.
Proof.
  destruct (fetch_fault env) as [e|] eqn:Hfetch.
  { by rewrite (fetch_failure env ctx robotID capacity s e). }
  rewrite GenerateDeliveryPlan_after_fetch by done.
  destruct (selectOrdersForDeliveryOptimized _ _ _ _) as [[plan [e|]]|p];
    [done| |done].
  destruct (Orders plan) as [|o chosen] eqn:Hchosen.
  - destruct (commit_fault env); [done|]. by rewrite Hchosen.
  - cbv zeta. destruct (update_fault env); [done|].
    destruct (commit_fault env); [done|]. rewrite Hchosen.
    unfold claim_statement. rewrite Hchosen. cbn [table sent].
    repeat split; try done. apply set_statuses_claimed.
Qed.

Lemma best_at_zero l w : Forall (λ o, 0 < Weight o) l → w <= 0 → best l w = 0.
Proof.
  intros Hpos Hw. induction Hpos as [|o l Ho _ IH]; [done|].
  rewrite best_unfold. unfold taken.
  destruct (Z.leb_spec (Weight o) w); [lia|done].
Qed.

Lemma greedy_picks_when_full capacity sorted weight :
  Forall (λ o, 0 < Weight o) sorted → capacity <= weight →
  greedy_picks capacity sorted weight = [].
Proof.
  intros Hpos Hfull. induction Hpos as [|o sorted Ho _ IH]; [done|]. simpl.
  destruct (Z.leb_spec (weight + Weight o) capacity); [lia|done].
Qed.

(** The selection returns, with a plan whenever no checkpoint finds the
    context done. *)
Lemma selection_returns `{SliceSorter} ctx orders robotID capacity :
  0 <= capacity → Forall (λ o, 0 <= Weight o) orders →
  ∃ plan err,
    selectOrdersForDeliveryOptimized ctx orders robotID capacity = Done (plan, err) ∧
    (not_cancelled ctx (length orders) → err = None).
Proof.
  intros Hcap Hweights.
  destruct (decide (orders = [])) as [->|Hne]; [by eexists _, None|].
  destruct (decide ((500 < length orders)%nat ∨ 5000 < capacity)) as [Hbig|Hsmall].
  - rewrite approximate_path by done. by eexists _, None.
  - rewrite exact_path by (done || lia).
    destruct (selectOrdersDP_outcome ctx orders robotID capacity
                ltac:(rewrite max_int_value; lia) Hweights)
      as ([plan [e|]] & -> & Hr); [|by eexists _, None].
    exists plan, (Some e). split; [done|]. intros Hctx.
    destruct Hr as (_ & i & Hi & Hrem & Hsome). by rewrite (Hctx i Hi Hrem) in Hsome.
Qed.

(** With capacity 0 and positive weights, a selection that returns a plan
    returns the empty one. *)
Lemma nothing_fits_capacity_zero `{SliceSorter} ctx orders robotID plan :
  Forall (λ o, 0 < Weight o <= GoInt.max_int ∧ GoInt.in_range (Value o)) orders →
  selectOrdersForDeliveryOptimized ctx orders robotID 0 = Done (plan, None) →
  plan = mkPlan robotID 0 0 [].
Proof.
  intros Hall Hrun.
  assert (Forall (λ o, 0 < Weight o) orders) as Hweights.
  { eapply Forall_impl; [exact Hall|]. by intros o [[? _] _]. }
  destruct (decide (orders = [])) as [->|Hne].
  { unfold selectOrdersForDeliveryOptimized in Hrun. cbn in Hrun.
    by injection Hrun as <-. }
  destruct (decide (500 < length orders)%nat) as [Hbig|Hsmall].
  - rewrite approximate_path in Hrun by auto. injection Hrun as <-.
    rewrite selectOrdersGreedy_exact; [|done|].
    + rewrite greedy_picks_when_full; [done| |done].
      unfold greedy_sequence. by rewrite (sort_Slice_perm ratio_less orders).
    + eapply Forall_impl; [exact Hall|]. intros o [[? ?] _]. simpl. lia.
  - rewrite exact_path in Hrun by (done || lia).
    destruct (selectOrdersDP_outcome ctx orders robotID 0
                ltac:(rewrite max_int_value; lia)
                (positive_weights_nonneg _ Hweights)) as (r & Hrun' & Hr).
    rewrite Hrun in Hrun'. injection Hrun' as <-. destruct Hr as [Hctx _].
    assert (∀ m o x, orders !! m = Some o → 0 <= x <= 0 →
              GoInt.in_range (best (reverse (take m orders)) x + Value o)) as Hfits.
    { intros m o x Ho Hx.
      rewrite best_at_zero by (lia || by apply Forall_reverse, Forall_take).
      by destruct (Forall_lookup_1 _ orders m o Hall Ho) as [_ ?]. }
    rewrite (selectOrdersDP_closed_form ctx orders robotID 0
               ltac:(rewrite max_int_value; lia) Hweights Hfits Hctx) in Hrun.
    injection Hrun as <-.
    rewrite picks_nil_at_zero, best_at_zero by (done || by apply Forall_reverse).
    done.
Qed.

Lemma dp_aborts_when_cancelled ctx e orders robotID capacity :
  (∀ i, ctx i = Some e) →
  (50 <= length orders)%nat → 0 <= capacity < GoInt.max_int →
  Forall (λ o, 0 <= Weight o) orders →
  selectOrdersDP ctx orders robotID capacity = Done (zero_plan, Some e).
Proof.
  intros Hctx Hn Hcap Hweights.
  destruct (selectOrdersDP_outcome ctx orders robotID capacity Hcap Hweights)
    as ([plan [e'|]] & -> & Hr).
  - destruct Hr as (-> & i & _ & _ & Hi). rewrite Hctx in Hi. by injection Hi as ->.
  - destruct Hr as [Hnot _]. specialize (Hnot 50 ltac:(lia) eq_refl).
    by rewrite Hctx in Hnot.
Qed.

Ltac compare_cases :=
  repeat match goal with
    | H : context [Z.compare ?a ?b] |- _ => destruct (Z.compare_spec a b); subst
    | |- context [Z.compare ?a ?b] => destruct (Z.compare_spec a b); subst
    | H : context [Pos.compare_cont Eq ?a ?b] |- _ =>
        change (Pos.compare_cont Eq a b) with (Pos.compare a b) in H;
        destruct (Pos.compare_spec a b); subst
    | |- context [Pos.compare_cont Eq ?a ?b] =>
        change (Pos.compare_cont Eq a b) with (Pos.compare a b);
        destruct (Pos.compare_spec a b); subst
    end;
  simpl in *; try done; try lia.

Lemma SFltb_irrefl x : SFltb x x = false.
Proof.
  unfold SFltb, SFcompare. destruct x as [[]|[]| |[] m e]; try done; compare_cases.
Qed.

Lemma SFltb_trans x y z :
  SFltb x y = true → SFltb y z = true → SFltb x z = true.
Proof.
  unfold SFltb, SFcompare.
  destruct x as [[]|[]| |[] m1 e1], y as [[]|[]| |[] m2 e2], z as [[]|[]| |[] m3 e3];
    try done; intros H1 H2; compare_cases.
Qed.

Lemma SFltb_negtrans x y z :
  is_number y = true →
  SFltb x y = false → SFltb y z = false → SFltb x z = false.
Proof.
  unfold SFltb, SFcompare.
  destruct x as [[]|[]| |[] m1 e1], y as [[]|[]| |[] m2 e2], z as [[]|[]| |[] m3 e3];
    try done; intros _ H1 H2; compare_cases.
Qed.

Lemma ratio_less_strict_weak_order orders :
  Forall (λ o, is_number (ratio o) = true) orders →
  strict_weak_order_on ratio_less orders.
Proof.
  intros Hnum. rewrite Forall_forall in Hnum. unfold ratio_less.
  split; [|split].
  - intros a _. apply SFltb_irrefl.
  - intros a b c _ _ _ Hab Hbc. by apply (SFltb_trans _ (ratio b)).
  - intros a b c _ Hb _ Hab Hbc. apply (SFltb_negtrans _ (ratio b)); auto.
Qed.

(** ** Conversion and division of binary64 numbers *)

Lemma pow2_xO n : 2 ^ Z.pos n~0 = 2 ^ Z.pos n * 2 ^ Z.pos n.
Proof.
  replace (Z.pos n~0) with (Z.pos n + Z.pos n) by lia.
  apply Z.pow_add_r; lia.
Qed.

Lemma pow2_xI n : 2 ^ Z.pos n~1 = 2 * (2 ^ Z.pos n * 2 ^ Z.pos n).
Proof.
  replace (Z.pos n~1) with (1 + (Z.pos n + Z.pos n)) by lia.
  rewrite Z.pow_add_r, Z.pow_add_r by lia. lia.
Qed.

Lemma pow2_pos n : 0 < 2 ^ Z.pos n.
Proof. apply Z.pow_pos_nonneg; lia. Qed.

Lemma shr_1_halves r : 0 <= shr_m r → shr_m (shr_1 r) = shr_m r / 2.
Proof.
  destruct r as [[|[p|p|]|p] rr ss]; simpl; intros Hm; try done; try lia.
  - apply (Z.div_unique _ _ _ 1); lia.
  - apply (Z.div_unique _ _ _ 0); lia.
Qed.

Lemma iter_shr_1_divides n : ∀ r,
  0 <= shr_m r → shr_m (SpecFloat.iter_pos shr_1 n r) = shr_m r / 2 ^ Z.pos n.
Proof.
  induction n as [n IH|n IH|]; intros r Hm; simpl SpecFloat.iter_pos.
  - pose proof (pow2_pos n).
    assert (0 <= shr_m (shr_1 r)) as H1.
    { rewrite shr_1_halves by done. apply Z.div_pos; lia. }
    assert (0 <= shr_m (SpecFloat.iter_pos shr_1 n (shr_1 r))) as H2.
    { rewrite IH by done. apply Z.div_pos; lia. }
    rewrite IH, IH, shr_1_halves by done.
    rewrite !Z.div_div by lia. by rewrite pow2_xI.
  - pose proof (pow2_pos n).
    assert (0 <= shr_m (SpecFloat.iter_pos shr_1 n r)) as H2.
    { rewrite IH by done. apply Z.div_pos; lia. }
    rewrite IH, IH by done.
    rewrite !Z.div_div by lia. by rewrite pow2_xO.
  - by rewrite shr_1_halves.
Qed.

(** shr divides the mantissa by a power of two and moves the exponent up. *)
Lemma shr_divides r e n :
  0 <= shr_m r →
  shr_m (shr r e n).1 = shr_m r / 2 ^ Z.max 0 n ∧ (shr r e n).2 = e + Z.max 0 n.
Proof.
  intros Hm. unfold shr. destruct n as [|n|n]; cbn [fst snd].
  - change (Z.max 0 0) with 0. rewrite Z.pow_0_r, Z.div_1_r. lia.
  - change (Z.max 0 (Z.pos n)) with (Z.pos n).
    by rewrite iter_shr_1_divides.
  - change (Z.max 0 (Z.neg n)) with 0. rewrite Z.pow_0_r, Z.div_1_r. lia.
Qed.

Lemma shr_record_of_loc_m m l : shr_m (shr_record_of_loc m l) = m.
Proof. by destruct l as [|[]]. Qed.

Lemma round_nearest_even_bounds m l :
  m <= round_nearest_even m l <= m + 1.
Proof. unfold round_nearest_even. destruct l as [|[]]; try destruct (Z.even m); lia. Qed.

Lemma binary_round_aux_number sx mx ex lx :
  0 <= mx → is_number (binary_round_aux 53 1024 sx mx ex lx) = true.
Proof.
  intros Hmx. unfold binary_round_aux, shr_fexp.
  destruct (shr (shr_record_of_loc mx lx) ex _) as [mrs1 e1] eqn:H1.
  pose proof (shr_divides (shr_record_of_loc mx lx) ex
                (fexp 53 1024 (Zdigits2 mx + ex) - ex)) as [Hm1 _];
    [by rewrite shr_record_of_loc_m|].
  rewrite H1, shr_record_of_loc_m in Hm1. simpl in Hm1.
  assert (0 <= shr_m mrs1).
  { rewrite Hm1. apply Z.div_pos; [done|]. apply Z.pow_pos_nonneg; lia. }
  set (m2 := round_nearest_even (shr_m mrs1) (loc_of_shr_record mrs1)).
  assert (0 <= m2).
  { pose proof (round_nearest_even_bounds (shr_m mrs1) (loc_of_shr_record mrs1)).
    unfold m2. lia. }
  destruct (shr (shr_record_of_loc m2 loc_Exact) e1 _) as [mrs2 e2] eqn:H2.
  pose proof (shr_divides (shr_record_of_loc m2 loc_Exact) e1
                (fexp 53 1024 (Zdigits2 m2 + e1) - e1)) as [Hm2 _];
    [by rewrite shr_record_of_loc_m|].
  rewrite H2, shr_record_of_loc_m in Hm2. simpl in Hm2.
  assert (0 <= shr_m mrs2).
  { rewrite Hm2. apply Z.div_pos; [done|]. apply Z.pow_pos_nonneg; lia. }
  destruct (shr_m mrs2); [done| |lia]. by destruct (_ <=? _).
Qed.

Lemma digits2_pos_bounds p :
  2 ^ (Z.pos (digits2_pos p) - 1) <= Z.pos p < 2 ^ Z.pos (digits2_pos p).
Proof.
  induction p as [p IH|p IH|]; cbn [digits2_pos].
  - rewrite Pos2Z.inj_succ, Z.pow_succ_r by lia.
    replace (Z.succ (Z.pos (digits2_pos p)) - 1)
      with (Z.succ (Z.pos (digits2_pos p) - 1)) by lia.
    rewrite Z.pow_succ_r by lia. lia.
  - rewrite Pos2Z.inj_succ, Z.pow_succ_r by lia.
    replace (Z.succ (Z.pos (digits2_pos p)) - 1)
      with (Z.succ (Z.pos (digits2_pos p) - 1)) by lia.
    rewrite Z.pow_succ_r by lia. lia.
  - simpl. lia.
Qed.

Lemma Zdigits2_le m k : 0 < m < 2 ^ k → 0 <= k → 0 < Zdigits2 m <= k.
Proof.
  intros [Hpos Hlt] Hk. destruct m as [|p|p]; try lia. cbn [Zdigits2].
  split; [lia|]. pose proof (digits2_pos_bounds p) as [Hlow _].
  destruct (Z.le_gt_cases (Z.pos (digits2_pos p)) k) as [|Hgt]; [done|].
  assert (2 ^ k <= 2 ^ (Z.pos (digits2_pos p) - 1)); [|lia].
  apply Z.pow_le_mono_r; lia.
Qed.

Lemma Zdigits2_low m : 0 < m → 2 ^ (Zdigits2 m - 1) <= m < 2 ^ Zdigits2 m.
Proof. destruct m as [|p|p]; try lia. intros _. apply digits2_pos_bounds. Qed.

(** A right shift by fewer bits than the mantissa has leaves it positive. *)
Lemma shifted_positive m k : 0 < m → 0 <= k <= Zdigits2 m - 1 → 0 < m / 2 ^ k.
Proof.
  intros Hm Hk. pose proof (Zdigits2_low m Hm) as [Hlow _].
  apply Z.div_str_pos. split; [apply Z.pow_pos_nonneg; lia|].
  transitivity (2 ^ (Zdigits2 m - 1)); [|done]. apply Z.pow_le_mono_r; lia.
Qed.

Lemma fexp_binary64 x : fexp 53 1024 x = Z.max (x - 53) (-1074).
Proof. reflexivity. Qed.

Lemma binary_round_aux_finite sx mx ex lx :
  0 < mx → -1000 <= ex <= 100 → Zdigits2 mx <= 200 →
  ∃ m e, binary_round_aux 53 1024 sx mx ex lx = S754_finite sx m e.
Proof.
  intros Hmx Hex Hd. unfold binary_round_aux, shr_fexp.
  pose proof (Zdigits2_low mx Hmx) as [Hlow Hhigh].
  assert (0 < Zdigits2 mx) as Hdpos by (destruct mx; simpl; lia).
  destruct (shr (shr_record_of_loc mx lx) ex _) as [mrs1 e1] eqn:H1.
  pose proof (shr_divides (shr_record_of_loc mx lx) ex
                (fexp 53 1024 (Zdigits2 mx + ex) - ex)) as [Hm1 He1];
    [rewrite shr_record_of_loc_m; lia|].
  rewrite H1, shr_record_of_loc_m in Hm1. rewrite H1 in He1.
  cbn [fst snd] in Hm1, He1. rewrite fexp_binary64 in Hm1, He1.
  set (k1 := Z.max 0 (Z.max (Zdigits2 mx + ex - 53) (-1074) - ex)) in *.
  assert (0 <= k1 <= Zdigits2 mx - 1) as Hk1 by lia.
  assert (0 < shr_m mrs1) as Hpos1 by (rewrite Hm1; by apply shifted_positive).
  assert (shr_m mrs1 <= mx) as Hle1.
  { rewrite Hm1. apply Z.div_le_upper_bound; [apply Z.pow_pos_nonneg; lia|].
    assert (0 < 2 ^ k1) by (apply Z.pow_pos_nonneg; lia). nia. }
  set (m2 := round_nearest_even (shr_m mrs1) (loc_of_shr_record mrs1)).
  pose proof (round_nearest_even_bounds (shr_m mrs1) (loc_of_shr_record mrs1)) as Hm2.
  fold m2 in Hm2.
  assert (0 < Zdigits2 m2 <= Zdigits2 mx + 1) as Hd2.
  { apply Zdigits2_le; [|lia]. split; [lia|].
    rewrite Z.pow_add_r, Z.pow_1_r by lia. lia. }
  destruct (shr (shr_record_of_loc m2 loc_Exact) e1 _) as [mrs2 e2] eqn:H2.
  pose proof (shr_divides (shr_record_of_loc m2 loc_Exact) e1
                (fexp 53 1024 (Zdigits2 m2 + e1) - e1)) as [Hm3 He2];
    [rewrite shr_record_of_loc_m; lia|].
  rewrite H2, shr_record_of_loc_m in Hm3. rewrite H2 in He2.
  cbn [fst snd] in Hm3, He2. rewrite fexp_binary64 in Hm3, He2.
  set (k2 := Z.max 0 (Z.max (Zdigits2 m2 + e1 - 53) (-1074) - e1)) in *.
  assert (0 <= k2 <= Zdigits2 m2 - 1) as Hk2 by lia.
  assert (0 < shr_m mrs2) as Hpos2 by (rewrite Hm3; apply shifted_positive; lia).
  destruct (shr_m mrs2) as [|m|m]; try lia.
  destruct (Z.leb_spec e2 (1024 - 53)); [by eexists _, _|lia].
Qed.

Lemma iter_xO_shifts p n : Z.pos (Pos.iter xO p n) = Z.pos p * 2 ^ Z.pos n.
Proof.
  apply (Pos.iter_ind _ xO p (λ n q, Z.pos q = Z.pos p * 2 ^ Z.pos n)).
  - simpl. lia.
  - intros k q Hq. rewrite Pos2Z.inj_succ, Z.pow_succ_r by lia.
    change (Z.pos q~0) with (2 * Z.pos q). lia.
Qed.

(** An [int] above zero converts to a finite, positive binary64 number. *)
Lemma float64_of_int_finite x :
  0 < x <= GoInt.max_int → ∃ m e, float64_of_int x = S754_finite false m e.
Proof.
  intros [Hpos Hmax]. destruct x as [|p|p]; try lia.
  unfold float64_of_int, binary_normalize, binary_round.
  pose proof (digits2_pos_bounds p) as [Hlow Hhigh].
  assert (Z.pos (digits2_pos p) <= 63) as Hd.
  { apply (Zdigits2_le (Z.pos p) 63); [|lia]. rewrite max_int_value in Hmax.
    change (2 ^ 63) with 9223372036854775808. lia. }
  destruct (shl_align p 0 _) as [mz ez] eqn:Halign.
  unfold shl_align in Halign. rewrite fexp_binary64 in Halign.
  destruct (Z.max (Z.pos (digits2_pos p) + 0 - 53) (-1074) - 0) as [|d0|d0] eqn:Hshift;
    injection Halign as <- <-.
  - apply binary_round_aux_finite; [lia|lia|]. simpl. lia.
  - apply binary_round_aux_finite; [lia|lia|]. simpl. lia.
  - apply binary_round_aux_finite; [lia|lia|].
    apply (Zdigits2_le _ 200); [|lia]. split; [lia|].
    rewrite iter_xO_shifts.
    assert (Z.pos d0 <= 52) by lia.
    assert (2 ^ Z.pos (digits2_pos p) * 2 ^ Z.pos d0 <= 2 ^ 200).
    { rewrite <- Z.pow_add_r by lia. apply Z.pow_le_mono_r; lia. }
    assert (0 < 2 ^ Z.pos d0) by (apply Z.pow_pos_nonneg; lia). nia.
Qed.

(** The ratio of an order of positive weight and value is a number. *)
Lemma positive_order_ratio_number o : positive_order o → is_number (ratio o) = true.
Proof.
  intros [Hw Hv]. unfold ratio.
  destruct (float64_of_int_finite (Value o) Hv) as (mv & ev & ->).
  destruct (float64_of_int_finite (Weight o) Hw) as (mw & ew & ->).
  unfold SFdiv, SFdiv_core_binary.
  set (m' := match _ - _ with Z0 => Z.pos mv | Z.pos _ => Z.shiftl (Z.pos mv) _ | Z.neg _ => 0 end).
  assert (0 <= m') as Hm'.
  { unfold m'. destruct (_ - _); [lia| |lia]. apply Z.shiftl_nonneg. lia. }
  destruct (Z.div_eucl m' (Z.pos mw)) as [q r] eqn:Hdiv.
  apply binary_round_aux_number.
  assert (q = m' / Z.pos mw) as -> by (unfold Z.div; by rewrite Hdiv).
  apply Z.div_pos; lia.
Qed.

(** The walk takes its orders in the sequence it is given. *)
Lemma greedy_walk_in_sequence capacity sorted : ∀ s,
  ∃ chosen, ta_selected (greedy_walk capacity sorted s) = ta_selected s ++ chosen ∧
            chosen `sublist_of` sorted.
Proof.
  induction sorted as [|o rest IH]; intros s; simpl.
  - exists []. by rewrite app_nil_r.
  - destruct (GoInt.add (ta_weight s) (Weight o) <=? capacity).
    + destruct (IH (mkTally (ta_selected s ++ [o])
                            (GoInt.add (ta_weight s) (Weight o))
                            (GoInt.add (ta_value s) (Value o))))
        as (chosen & -> & Hsub).
      exists (o :: chosen). simpl. rewrite <- app_assoc. split; [done|].
      by apply sublist_skip.
    + destruct (IH s) as (chosen & -> & Hsub). exists chosen. split; [done|].
      by apply sublist_cons.
Qed.

(** ** Requests run one after the other claim different orders *)

Lemma get_elem_of {A} (l : list A) i x : Slice.get l i = Done x → x ∈ l.
Proof.
  unfold Slice.get. destruct (i <? 0); [done|].
  destruct (l !! Z.to_nat i) as [y|] eqn:Hy; [|done].
  intros [= <-]. by eapply list_elem_of_lookup_2.
Qed.

Lemma backtrack_chooses_given orders keep i : ∀ s s',
  DP.backtrack orders keep i s = Done s' →
  ∀ o, o ∈ DP.tr_selected s' → o ∈ DP.tr_selected s ∨ o ∈ orders.
Proof.
  induction i as [|i IH]; intros s s' Hrun o Ho; cbn [DP.backtrack] in Hrun.
  - injection Hrun as <-. by left.
  - destruct (DP.tr_w s >? 0); [|injection Hrun as <-; by left].
    destruct (Slice.get keep (Z.of_nat (S i))) as [row|]; [|done].
    cbn [mbind run_bind] in Hrun.
    destruct (Slice.get row (DP.tr_w s)) as [[]|]; [| |done];
      cbn [mbind run_bind] in Hrun.
    + destruct (Slice.get orders (Z.of_nat (S i) - 1)) as [order|] eqn:Horder;
        [|done].
      cbn [mbind run_bind] in Hrun.
      destruct (IH _ _ Hrun o Ho) as [Hsel|?]; [|by right]. simpl in Hsel.
      apply elem_of_app in Hsel as [?|Hnew]; [by left|].
      apply list_elem_of_singleton in Hnew as ->. right. by eapply get_elem_of.
    + by apply (IH _ _ Hrun).
Qed.

(** Whatever the selection returns, its plan holds only orders it was
    given. *)
Lemma selection_chooses_given `{SliceSorter} ctx orders robotID capacity plan err :
  selectOrdersForDeliveryOptimized ctx orders robotID capacity = Done (plan, err) →
  ∀ o, o ∈ Orders plan → o ∈ orders.
Proof.
  unfold selectOrdersForDeliveryOptimized. intros Hrun o Ho.
  destruct (length orders =? 0)%nat.
  { injection Hrun as <- <-. by apply elem_of_nil in Ho. }
  destruct ((Z.of_nat (length orders) >? 500) || (capacity >? 5000)).
  - injection Hrun as <- <-. unfold selectOrdersGreedy in Ho.
    destruct orders as [|o' orders]; [by apply elem_of_nil in Ho|].
    destruct (greedy_walk_in_sequence capacity (greedy_sequence (o' :: orders))
                (mkTally [] 0 0)) as (chosen & Hsel & Hsub).
    simpl in Ho. rewrite Hsel in Ho. simpl in Ho.
    rewrite <- (sort_Slice_perm ratio_less (o' :: orders)).
    by eapply elem_of_sublist.
  - unfold selectOrdersDP in Hrun.
    destruct (DP.alloc _ _) as [t0|]; [|done]. cbn [mbind run_bind] in Hrun.
    destruct (DP.fill _ _ _ _ _) as [[e|t]|]; [| |done]; cbn [mbind run_bind] in Hrun.
    { injection Hrun as <- <-. by apply elem_of_nil in Ho. }
    destruct (DP.backtrack _ _ _ _) as [s|] eqn:Hback; [|done].
    cbn [mbind run_bind] in Hrun.
    destruct (Slice.get _ _) as [total|]; [|done]. injection Hrun as <- <-.
    destruct (backtrack_chooses_given _ _ _ _ _ Hback o Ho) as [Hnil|?]; [|done].
    by apply elem_of_nil in Hnil.
Qed.

Lemma fetched_are_shipping env s o :
  o ∈ fetched env s →
  ∃ r, r ∈ table s ∧ shipped_status r = "shipping" ∧ row_id r = OrderID o.
Proof.
  unfold fetched, GetShippingOrders. destruct (fetch_fault env); simpl.
  { intros Ho. by apply elem_of_nil in Ho. }
  intros Ho. apply list_elem_of_fmap in Ho as (r & -> & Hr).
  apply list_elem_of_filter in Hr as [Hstatus Hr]. by exists r.
Qed.

(** X1. Two requests run one after the other, both returning a plan: no order
    identifier is in both plans. The first request has set its orders to
    'delivering', and the second fetches 'shipping' orders only. *)
Lemma serial_requests_claim_different_orders `{SliceSorter}
    env1 ctx1 robot1 capacity1 env2 ctx2 robot2 capacity2 s0 s1 s2 plan1 plan2 :
  GenerateDeliveryPlan env1 ctx1 robot1 capacity1 s0 = Done (s1, Some plan1, None) →
  GenerateDeliveryPlan env2 ctx2 robot2 capacity2 s1 = Done (s2, Some plan2, None) →
  ∀ id, id ∈ OrderID <$> Orders plan1 → id ∉ OrderID <$> Orders plan2.
Proof.
  intros Hfirst Hsecond id Hid1 Hid2.
  pose proof (request_outcomes env1 ctx1 robot1 capacity1 s0) as Hout1.
  pose proof (request_outcomes env2 ctx2 robot2 capacity2 s1) as Hout2.
  rewrite Hfirst in Hout1. rewrite Hsecond in Hout2.
  destruct Hout1 as (_ & _ & _ & Hcommit). destruct Hout2 as (_ & _ & Hsel2 & _).
  destruct (Orders plan1) as [|o1 chosen1] eqn:Hchosen1;
    [by apply elem_of_nil in Hid1|].
  destruct Hcommit as (_ & _ & _ & Hdelivering).
  apply list_elem_of_fmap in Hid2 as (o & -> & Ho).
  apply (selection_chooses_given _ _ _ _ _ _ Hsel2) in Ho.
  apply fetched_are_shipping in Ho as (r & Hr & Hstatus & Hrid).
  rewrite Forall_forall in Hdelivering.
  specialize (Hdelivering r Hr). rewrite Hrid in Hdelivering.
  rewrite Hdelivering in Hstatus by done. discriminate.
Qed.

(** X1, witness: with capacity 5 the first request claims order 3 and the
    second order 1. *)
Lemma serial_requests_claim_different_orders_witness :
  3 ∉ OrderID <$> [mkOrder 1 2 3].
Proof.
  apply (@serial_requests_claim_different_orders insertion
           (mkEnv None None None background) background "robot" 5
           (mkEnv None None None background) background "other" 5
           (mkStore [mkRow 1 2 3 "shipping"; mkRow 3 4 5 "shipping"] [])
           (mkStore [mkRow 1 2 3 "shipping"; mkRow 3 4 5 "delivering"]
                    [([3], "delivering")])
           (mkStore [mkRow 1 2 3 "delivering"; mkRow 3 4 5 "delivering"]
                    [([3], "delivering"); ([1], "delivering")])
           (mkPlan "robot" 4 5 [mkOrder 3 4 5]) (mkPlan "other" 2 3 [mkOrder 1 2 3])
           eq_refl eq_refl 3).
  cbn [Orders fmap list_fmap OrderID]. rewrite elem_of_cons. by left.
Defined.

(** * The claims *)

(** C1, counterexample. Two orders of weight 1 and value 2^62 each, capacity
    2, never cancelled: the sum of the two values wraps to a negative
    [int], the second order is left out, and the plan is worth 2^62 while
    both orders together fit and are worth 2^63. *)
Lemma exact_path_wraps_below_optimum :
  let orders := [mkOrder 1 1 (2 ^ 62); mkOrder 2 1 (2 ^ 62)] in
  (length orders <= 500)%nat ∧ 0 <= 2 <= 5000 ∧ Forall positive_order orders ∧
  ∃ plan,
    @selectOrdersForDeliveryOptimized insertion background orders "robot" 2
      = Done (plan, None) ∧
    feasible orders 2 orders ∧
    TotalValue plan < sum_values orders.
Proof.
  cbv zeta. split; [simpl; lia|]. split; [lia|]. split.
  - repeat constructor; simpl; rewrite ?max_int_value; lia.
  - eexists. split; [vm_compute; reflexivity|]. split; [|vm_compute; reflexivity].
    split; [done|]. vm_compute. discriminate.
Qed.

(** C1, as amended. On the exact path (at most 500 orders, capacity
    between 0 and 5000), for orders of positive weight and value whose
    values add up within [int], the call returns; it returns a plan
    whenever no checkpoint finds the context done; and the plan it returns
    is a choice of orders that fits the capacity, no choice that fits is
    worth more than its total value, and that total value, read from
    dp[capacity], is the sum of the values of the orders the traceback
    recovered. *)
Theorem exact_path_returns_optimum `{SliceSorter} ctx orders robotID capacity :
  (length orders <= 500)%nat → 0 <= capacity <= 5000 →
  Forall positive_order orders →
  sum_values orders <= GoInt.max_int →
  ∃ plan err,
    selectOrdersForDeliveryOptimized ctx orders robotID capacity = Done (plan, err) ∧
    (not_cancelled ctx (length orders) → err = None) ∧
    (err = None →
       feasible orders capacity (Orders plan) ∧
       (∀ chosen, feasible orders capacity chosen →
          sum_values chosen <= TotalValue plan) ∧
       TotalValue plan = sum_values (Orders plan)).
Proof.
  intros Hn Hcap Hpos Hsum.
  pose proof (positive_orders_weights _ Hpos) as Hweights.
  pose proof (positive_orders_values _ Hpos) as Hvalues.
  assert (0 <= capacity < GoInt.max_int) as Hcap' by (rewrite max_int_value; lia).
  destruct (decide (orders = [])) as [->|Hne].
  - exists (mkPlan robotID 0 0 []), None. split; [done|]. split; [done|].
    intros _. simpl. split; [split; [done|simpl; lia]|]. split; [|done].
    intros chosen [Hsub _]. apply submseteq_nil_r in Hsub as ->. done.
  - rewrite exact_path by (done || lia).
    destruct (selectOrdersDP_outcome ctx orders robotID capacity Hcap'
                (positive_weights_nonneg _ Hweights)) as ([plan [e|]] & Hrun & Hr).
    + exists plan, (Some e). split; [done|]. split; [|done].
      intros Hctx. destruct Hr as (_ & i & Hi & Hrem & Hsome).
      by rewrite (Hctx i Hi Hrem) in Hsome.
    + exists plan, None. split; [done|]. split; [done|]. intros _.
      destruct Hr as (Hctx & _).
      rewrite (selectOrdersDP_exact ctx orders robotID capacity) in Hrun by done.
      injection Hrun as <-. simpl. split; [apply picks_feasible; lia|].
      split; [|by rewrite picks_values].
      intros chosen Hchosen. apply best_is_optimum; [|done].
      by apply positive_weights_nonneg.
Qed.

(** C1, witness: the four orders of the spec's example, capacity 5. *)
Lemma exact_path_returns_optimum_witness :
  let orders := [mkOrder 1 2 3; mkOrder 2 3 4; mkOrder 3 4 5; mkOrder 4 5 6] in
  ∃ plan err,
    @selectOrdersForDeliveryOptimized insertion background orders "robot" 5
      = Done (plan, err) ∧
    (not_cancelled background (length orders) → err = None) ∧
    (err = None →
       feasible orders 5 (Orders plan) ∧
       (∀ chosen, feasible orders 5 chosen → sum_values chosen <= TotalValue plan) ∧
       TotalValue plan = sum_values (Orders plan)).
Proof.
  cbv zeta. apply (@exact_path_returns_optimum insertion).
  - simpl. lia.
  - lia.
  - repeat constructor; simpl; rewrite ?max_int_value; lia.
  - vm_compute. discriminate.
Defined.

(** C2, counterexample. Capacity 5001 (the greedy path), an order of weight
    1 and one of weight 2^63-1: the running total 1 plus 2^63-1 wraps to
    -2^63, which passes the capacity test, so both orders are chosen; the
    reported weight is -2^63, not the sum of the two weights, and that sum
    exceeds the capacity. *)
Lemma greedy_weight_wraps_past_capacity :
  let orders := [mkOrder 1 1 1; mkOrder 2 (2 ^ 63 - 1) 1] in
  0 <= 5001 ∧ Forall positive_order orders ∧
  ∃ plan,
    @selectOrdersForDeliveryOptimized insertion background orders "robot" 5001
      = Done (plan, None) ∧
    TotalWeight plan ≠ sum_weights (Orders plan) ∧
    5001 < sum_weights (Orders plan).
Proof.
  cbv zeta. split; [lia|]. split.
  - repeat constructor; simpl; rewrite ?max_int_value; lia.
  - eexists. split; [vm_compute; reflexivity|].
    split; [vm_compute; discriminate|vm_compute; reflexivity].
Qed.

(** C2, as amended. For every capacity >= 0 and orders of positive weight
    and value, where on the greedy path the capacity plus any single weight stays
    within [int], the call returns, the orders of the plan are among the
    given ones, [TotalWeight] is the sum of their weights, and it does not
    exceed the capacity. *)
Theorem plan_weight_within_capacity `{SliceSorter} ctx orders robotID capacity :
  0 <= capacity →
  Forall positive_order orders →
  ((500 < length orders)%nat ∨ 5000 < capacity →
     Forall (λ o, capacity + Weight o <= GoInt.max_int) orders) →
  ∃ plan err,
    selectOrdersForDeliveryOptimized ctx orders robotID capacity = Done (plan, err) ∧
    Orders plan ⊆+ orders ∧
    TotalWeight plan = sum_weights (Orders plan) ∧
    TotalWeight plan <= capacity.
Proof.
  intros Hcap Hpos Hfit.
  pose proof (positive_orders_weights _ Hpos) as Hweights.
  destruct (decide (orders = [])) as [->|Hne].
  { exists (mkPlan robotID 0 0 []), None. by repeat split. }
  destruct (decide ((500 < length orders)%nat ∨ 5000 < capacity)) as [Hbig|Hsmall].
  - rewrite approximate_path by done.
    rewrite selectOrdersGreedy_exact; [|done|].
    + eexists _, None. split; [done|]. simpl.
      destruct (greedy_picks_feasible orders capacity Hcap) as [Hsub Hle].
      by repeat split.
    + specialize (Hfit Hbig). rewrite Forall_forall in Hfit, Hweights |- *.
      intros o Ho. specialize (Hfit o Ho). specialize (Hweights o Ho).
      simpl in *. lia.
  - rewrite exact_path by (done || lia).
    destruct (selectOrdersDP_outcome ctx orders robotID capacity
                ltac:(rewrite max_int_value; lia)
                (positive_weights_nonneg _ Hweights)) as ([plan [e|]] & Hrun & Hr).
    + exists plan, (Some e). split; [done|]. destruct Hr as [-> _]. simpl.
      split; [apply submseteq_nil_l|]. split; [done|lia].
    + exists plan, None. split; [done|].
      destruct Hr as (_ & _ & Hsub & Hweight & Hle). split; [|done].
      rewrite <- (reverse_Permutation orders). by apply sublist_submseteq.
Qed.

(** C2, witness: the greedy path, capacity 6000. *)
Lemma plan_weight_within_capacity_witness :
  let orders := [mkOrder 1 2000 3; mkOrder 2 3000 4; mkOrder 3 4000 5] in
  ∃ plan err,
    @selectOrdersForDeliveryOptimized insertion background orders "robot" 6000
      = Done (plan, err) ∧
    Orders plan ⊆+ orders ∧
    TotalWeight plan = sum_weights (Orders plan) ∧
    TotalWeight plan <= 6000.
Proof.
  cbv zeta. apply (@plan_weight_within_capacity insertion).
  - lia.
  - repeat constructor; simpl; rewrite ?max_int_value; lia.
  - intros _. repeat constructor; simpl; rewrite ?max_int_value; lia.
Defined.

(** C4. For a non-empty order list, selectOrdersForDeliveryOptimized returns
    what the Greedy Approximation returns when the number of orders exceeds
    500 or the capacity exceeds 5000, and what the Exact Dynamic Program
    returns otherwise. *)
Theorem strategy_by_size `{SliceSorter} ctx orders robotID capacity :
  orders ≠ [] →
  ((500 < length orders)%nat ∨ 5000 < capacity →
     selectOrdersForDeliveryOptimized ctx orders robotID capacity =
       Done (selectOrdersGreedy orders robotID capacity, None)) ∧
  (¬ ((500 < length orders)%nat ∨ 5000 < capacity) →
     selectOrdersForDeliveryOptimized ctx orders robotID capacity =
       selectOrdersDP ctx orders robotID capacity).
Proof.
  intros Hne. split.
  - intros Hbig. by apply approximate_path.
  - intros Hsmall. apply exact_path; [done|lia..].
Qed.

(** C4, witness: one order with capacity 5001 goes to the greedy, with
    capacity 5000 to the dynamic program. *)
Lemma strategy_by_size_witness :
  @selectOrdersForDeliveryOptimized insertion background [mkOrder 1 2 3] "robot" 5001
    = Done (@selectOrdersGreedy insertion [mkOrder 1 2 3] "robot" 5001, None) ∧
  @selectOrdersForDeliveryOptimized insertion background [mkOrder 1 2 3] "robot" 5000
    = selectOrdersDP background [mkOrder 1 2 3] "robot" 5000.
Proof.
  split.
  - destruct (@strategy_by_size insertion background [mkOrder 1 2 3] "robot" 5001)
      as [Hgreedy _]; [discriminate|].
    apply Hgreedy. right. lia.
  - destruct (@strategy_by_size insertion background [mkOrder 1 2 3] "robot" 5000)
      as [_ Hexact]; [discriminate|].
    apply Hexact. simpl. lia.
Defined.

(** C5. A call that returns a plan has had no failing step, and when the
    plan is not empty it has sent exactly one status update, for exactly
    the identifiers of the chosen orders and with status 'delivering',
    after which every one of these orders is 'delivering'; a call that
    returns a failure returns no plan and leaves the table as it was; a
    call returns one or the other. Whenever the fetch, the selection or
    the update fails, the call returns that failure, no plan, and the table
    is as it was. *)
Theorem plan_commits_all_or_nothing `{SliceSorter} env ctx robotID capacity s :
  match GenerateDeliveryPlan env ctx robotID capacity s with
  | Panicked _ => True
  | Done (s', Some plan, None) =>
      fetch_fault env = None ∧ commit_fault env = None ∧
      selectOrdersForDeliveryOptimized (with_deadline env ctx) (fetched env s)
        robotID capacity = Done (plan, None) ∧
      match Orders plan with
      | [] => s' = s
      | _ =>
          update_fault env = None ∧
          sent s' = sent s ++ [(OrderID <$> Orders plan, "delivering")] ∧
          table s' = set_statuses (OrderID <$> Orders plan) "delivering" (table s) ∧
          Forall (λ r, row_id r ∈ OrderID <$> Orders plan →
                       shipped_status r = "delivering") (table s')
      end
  | Done (s', None, Some e) => table s' = table s
  | Done (_, Some _, Some _) | Done (_, None, None) => False
  end ∧
  ∀ plan e,
    fetch_fault env = Some e ∨
    selectOrdersForDeliveryOptimized (with_deadline env ctx) (fetched env s)
      robotID capacity = Done (plan, Some e) ∨
    (update_fault env = Some e ∧ fetch_fault env = None ∧ Orders plan ≠ [] ∧
     selectOrdersForDeliveryOptimized (with_deadline env ctx) (fetched env s)
       robotID capacity = Done (plan, None)) →
    ∃ s', GenerateDeliveryPlan env ctx robotID capacity s = Done (s', None, Some e) ∧
          table s' = table s.
Proof.
  split; [apply request_outcomes|].
  intros plan e. apply failing_step_fails.
Qed.

(** C6. When the fetch returns no orders, or the capacity is 0 and every
    fetched order has a positive weight, the call returns, no status update
    is sent and the store is as it was; a plan it returns has an empty
    order sequence, total weight 0 and total value 0; and it returns a plan
    whenever the commit does not fail and no checkpoint finds the context
    done. *)
Theorem nothing_to_claim `{SliceSorter} env ctx robotID capacity s :
  fetch_fault env = None →
  fetched env s = [] ∨
  (capacity = 0 ∧
   Forall (λ o, 0 < Weight o <= GoInt.max_int ∧ GoInt.in_range (Value o))
     (fetched env s)) →
  ∃ plan err,
    GenerateDeliveryPlan env ctx robotID capacity s = Done (s, plan, err) ∧
    (∀ p, plan = Some p →
       Orders p = [] ∧ TotalWeight p = 0 ∧ TotalValue p = 0 ∧ RobotID p = robotID) ∧
    (commit_fault env = None →
     not_cancelled (with_deadline env ctx) (length (fetched env s)) →
     is_Some plan ∧ err = None).
Proof.
  intros Hfetch Hcase. rewrite GenerateDeliveryPlan_after_fetch by done.
  assert (∃ r, selectOrdersForDeliveryOptimized (with_deadline env ctx)
                 (fetched env s) robotID capacity = Done r ∧
               (r.2 = None → r.1 = mkPlan robotID 0 0 []) ∧
               (not_cancelled (with_deadline env ctx) (length (fetched env s)) →
                r.2 = None)) as ([plan [e|]] & -> & Hplan & Hctx).
  { destruct Hcase as [->|[-> Hall]].
    { eexists. split; [done|]. by split. }
    assert (Forall (λ o, 0 < Weight o) (fetched env s)) as Hweights.
    { eapply Forall_impl; [exact Hall|]. by intros o [[? _] _]. }
    assert (∃ r, selectOrdersForDeliveryOptimized (with_deadline env ctx)
                   (fetched env s) robotID 0 = Done r ∧
                 (not_cancelled (with_deadline env ctx) (length (fetched env s)) →
                  r.2 = None)) as (r & Hrun & Hctx).
    { destruct (selection_returns (with_deadline env ctx) (fetched env s) robotID 0)
        as (plan & err & Hrun & Hctx); [lia|by apply positive_weights_nonneg|].
      by exists (plan, err). }
    exists r. split; [done|]. split; [|done].
    destruct r as [plan err]. simpl. intros ->.
    by apply (nothing_fits_capacity_zero (with_deadline env ctx) (fetched env s)). }
  - exists None, (Some e). split; [done|]. split; [done|].
    intros _ Hnot. by specialize (Hctx Hnot).
  - simpl in Hplan. rewrite (Hplan eq_refl). simpl.
    destruct (commit_fault env) as [e|].
    + exists None, (Some e). by repeat split.
    + eexists (Some _), None. split; [done|]. split; [|done].
      intros p [= <-]. done.
Qed.

(** C6, witness: two shipping orders and one already delivering, capacity
    0. *)
Lemma nothing_to_claim_witness :
  let env := mkEnv None None None background in
  let s := mkStore [mkRow 1 2 3 "shipping"; mkRow 2 3 4 "delivering";
                    mkRow 3 4 5 "shipping"] [] in
  ∃ plan err,
    @GenerateDeliveryPlan insertion env background "robot" 0 s = Done (s, plan, err) ∧
    (∀ p, plan = Some p →
       Orders p = [] ∧ TotalWeight p = 0 ∧ TotalValue p = 0 ∧ RobotID p = "robot") ∧
    (commit_fault env = None →
     not_cancelled (with_deadline env background) (length (fetched env s)) →
     is_Some plan ∧ err = None).
Proof.
  cbv zeta. apply (@nothing_to_claim insertion).
  - reflexivity.
  - right. split; [reflexivity|].
    change (fetched _ _) with [mkOrder 1 2 3; mkOrder 3 4 5].
    repeat constructor; unfold GoInt.in_range, GoInt.min_int; simpl;
      rewrite ?max_int_value; lia.
Defined.

(** C7, counterexample. One order, capacity 1, a context cancelled before
    the call: the outer loop runs its single pass without reaching a
    checkpoint and the function returns a plan holding the order, with no
    error. *)
Lemma short_list_ignores_cancellation :
  (length [mkOrder 1 1 1] <= 500)%nat ∧ 0 <= 1 <= 5000 ∧
  @selectOrdersForDeliveryOptimized insertion (cancelled Canceled)
      [mkOrder 1 1 1] "robot" 1
    = Done (mkPlan "robot" 1 1 [mkOrder 1 1 1], None).
Proof. split; [simpl; lia|]. split; [lia|]. vm_compute. reflexivity. Qed.

(** C7, as amended. On the exact path (at most 500 orders of non-negative
    weight, capacity between 0 and 5000): with at least 50 orders and a
    context that is already done, the dynamic program returns the empty
    plan and the context's error at a checkpoint of its outer loop, and the
    request then returns that failure, sends no status update and leaves
    the store as it was; with fewer than 50 orders no checkpoint is reached
    and the dynamic program returns a plan, whatever the context. *)
Theorem cancelled_context_aborts `{SliceSorter} env ctx e orders robotID capacity s :
  (length orders <= 500)%nat → 0 <= capacity <= 5000 →
  Forall (λ o, 0 <= Weight o) orders →
  ((50 <= length orders)%nat → (∀ i, ctx i = Some e) →
   selectOrdersForDeliveryOptimized ctx orders robotID capacity
     = Done (zero_plan, Some e) ∧
   selectOrdersDP ctx orders robotID capacity = Done (zero_plan, Some e) ∧
   (fetch_fault env = None → fetched env s = orders →
    GenerateDeliveryPlan env ctx robotID capacity s = Done (s, None, Some e))) ∧
  ((length orders < 50)%nat →
   ∃ plan,
     selectOrdersDP ctx orders robotID capacity = Done (plan, None) ∧
     selectOrdersForDeliveryOptimized ctx orders robotID capacity = Done (plan, None)).
Proof.
  intros Hn Hcap Hweights.
  assert (0 <= capacity < GoInt.max_int) as Hcap' by (rewrite max_int_value; lia).
  split.
  - intros Hlong Hctx.
    assert (orders ≠ []) as Hne by (intros ->; simpl in Hlong; lia).
    split; [|split].
    + rewrite exact_path by (done || lia).
      apply dp_aborts_when_cancelled; (done || lia).
    + apply dp_aborts_when_cancelled; (done || lia).
    + intros Hfetch Horders. rewrite GenerateDeliveryPlan_after_fetch by done.
      rewrite Horders, exact_path by (done || lia).
      rewrite (dp_aborts_when_cancelled _ e); try (done || lia).
      intros i. unfold with_deadline. by rewrite Hctx.
  - intros Hshort.
    assert (not_cancelled ctx (length orders)) as Hquiet.
    { intros i Hi Hrem. exfalso.
      destruct (Z.rem_bound_pos i 50) as [_ ?]; [lia..|].
      pose proof (Z.quot_rem' i 50) as Hdiv. rewrite Hrem in Hdiv.
      assert (0 < i ÷ 50) by lia. nia. }
    destruct (selectOrdersDP_outcome ctx orders robotID capacity Hcap' Hweights)
      as ([plan [e'|]] & Hrun & Hr).
    { destruct Hr as (_ & i & Hi & Hrem & Hsome).
      by rewrite (Hquiet i Hi Hrem) in Hsome. }
    exists plan. split; [done|].
    destruct (decide (orders = [])) as [->|Hne].
    + rewrite selectOrdersDP_closed_form in Hrun; try done;
        try (intros m o x Ho; by rewrite lookup_nil in Ho).
    + by rewrite exact_path by (done || lia).
Qed.

(** C7, witness: fifty orders of weight and value 1, capacity 10, a
    cancelled context. *)
Lemma cancelled_context_aborts_witness :
  let env := mkEnv None None None background in
  let s := mkStore (replicate 50 (mkRow 1 1 1 "shipping")) [] in
  let orders := replicate 50 (mkOrder 1 1 1) in
  ((50 <= length orders)%nat → (∀ i, cancelled Canceled i = Some Canceled) →
   @selectOrdersForDeliveryOptimized insertion (cancelled Canceled) orders "robot" 10
     = Done (zero_plan, Some Canceled) ∧
   selectOrdersDP (cancelled Canceled) orders "robot" 10
     = Done (zero_plan, Some Canceled) ∧
   (fetch_fault env = None → fetched env s = orders →
    @GenerateDeliveryPlan insertion env (cancelled Canceled) "robot" 10 s
      = Done (s, None, Some Canceled))) ∧
  ((length orders < 50)%nat →
   ∃ plan,
     selectOrdersDP (cancelled Canceled) orders "robot" 10 = Done (plan, None) ∧
     @selectOrdersForDeliveryOptimized insertion (cancelled Canceled) orders "robot" 10
       = Done (plan, None)).
Proof.
  cbv zeta. apply (@cancelled_context_aborts insertion).
  - simpl. lia.
  - lia.
  - apply Forall_replicate. simpl. lia.
Defined.

(** C8, counterexample. Twelve orders of equal ratio followed by one of
    greater ratio. The library's sort takes the thirteen elements through
    one partition around the element in the middle and leaves the equal
    orders in a sequence that is not the original one: the sorted sequence
    is 13, 7, 3, 4, 5, 6, 1, 8, 9, 10, 11, 12, 2, whatever the generator
    of the package does. Orders 7 and 3 tie, 7 comes before 3 in the sorted
    sequence and after it in the original. With capacity 2 the greedy then
    delivers orders 13 and 7, where a stable sort makes it deliver orders 13
    and 1. *)
Lemma ties_may_be_reordered :
  ratio_less (mkOrder 7 1 1) (mkOrder 3 1 1) = false ∧
  ratio_less (mkOrder 3 1 1) (mkOrder 7 1 1) = false ∧
  ∀ next,
    OrderID <$> Sort.Slice ratio_less next tied_orders
      = [13; 7; 3; 4; 5; 6; 1; 8; 9; 10; 11; 12; 2] ∧
    @greedy_sequence (library next) tied_orders
      = Sort.Slice ratio_less next tied_orders ∧
    ¬ ties_in_original_order tied_orders (@greedy_sequence (library next) tied_orders) ∧
    OrderID <$> Orders (@selectOrdersGreedy (library next) tied_orders "robot" 2)
      = [13; 7] ∧
    OrderID <$> Orders (@selectOrdersGreedy insertion tied_orders "robot" 2) = [13; 1].
Proof.
  split; [vm_compute; reflexivity|]. split; [vm_compute; reflexivity|]. intros next.
  assert (@greedy_sequence (library next) tied_orders
          = Sort.Slice ratio_less next tied_orders) as Hseq
    by (vm_compute; reflexivity).
  split; [vm_compute; reflexivity|]. split; [exact Hseq|].
  split; [|split; vm_compute; reflexivity].
  rewrite Hseq. intros Hstable.
  destruct (Hstable 1%nat 2%nat (mkOrder 7 1 1) (mkOrder 3 1 1))
    as (i & j & Hij & Hi & Hj); [lia|vm_compute; reflexivity..|].
  assert (i = 6%nat) as ->.
  { do 13 (destruct i as [|i]; [by (discriminate Hi || reflexivity)|]).
    discriminate Hi. }
  assert (j = 2%nat) as ->.
  { do 13 (destruct j as [|j]; [by (discriminate Hj || reflexivity)|]).
    discriminate Hj. }
  lia.
Qed.

(** C8, as amended. For every order list with positive weights and
    values, the sequence the greedy walks holds the same orders, none of
    them standing before an order of strictly greater value-to-weight
    ratio, and the orders of the plan are taken in that sequence; where
    orders of equal ratio stand relative to each other is left to
    sort.Slice. *)
Theorem greedy_walks_by_ratio `{SliceSorter} orders robotID capacity :
  Forall positive_order orders →
  greedy_sequence orders ≡ₚ orders ∧
  StronglySorted (λ a b, SFltb (ratio a) (ratio b) = false) (greedy_sequence orders) ∧
  Orders (selectOrdersGreedy orders robotID capacity)
    `sublist_of` greedy_sequence orders.
Proof.
  intros Hpos. split; [apply sort_Slice_perm|]. split.
  - apply (sort_Slice_ordered ratio_less orders).
    apply ratio_less_strict_weak_order.
    eapply Forall_impl; [exact Hpos|]. apply positive_order_ratio_number.
  - unfold selectOrdersGreedy. destruct orders as [|o orders]; [apply sublist_nil_l|].
    destruct (greedy_walk_in_sequence capacity (greedy_sequence (o :: orders))
                (mkTally [] 0 0)) as (chosen & Hsel & Hsub).
    simpl. by rewrite Hsel.
Qed.

(** C8, witness: the four orders of the spec's example. *)
Lemma greedy_walks_by_ratio_witness :
  let orders := [mkOrder 1 2 3; mkOrder 2 3 4; mkOrder 3 4 5; mkOrder 4 5 6] in
  @greedy_sequence insertion orders ≡ₚ orders ∧
  StronglySorted (λ a b, SFltb (ratio a) (ratio b) = false)
    (@greedy_sequence insertion orders) ∧
  Orders (@selectOrdersGreedy insertion orders "robot" 5)
    `sublist_of` @greedy_sequence insertion orders.
Proof.
  cbv zeta. apply (@greedy_walks_by_ratio insertion).
  repeat constructor; simpl; rewrite ?max_int_value; lia.
Defined.




(** C10, counterexample. Capacity 0 and a single order of weight -1: the
    first pass of the inner loop reads dp[0 - (-1)] = dp[1] in a slice of
    length 1, out of bounds, and the function panics although the capacity
    is not negative. *)
Lemma negative_weight_reads_out_of_bounds :
  0 <= 0 ∧
  DP.inner_body (mkOrder 1 (-1) 1) 1 0 (DP.mkTables [0] [[false]; [false]])
    = Panicked IndexOutOfRange ∧
  selectOrdersDP background [mkOrder 1 (-1) 1] "robot" 0 = Panicked IndexOutOfRange.
Proof. split; [lia|]. split; vm_compute; reflexivity. Qed.

(** C10, as amended. Where the dynamic program is made to run (at most
    500 orders, capacity between 0 and 5000, so that its tables are of a
    size the runtime allocates) and for orders of non-negative weight,
    every access of selectOrdersDP to [dp], [keep] and [orders] is within
    bounds and the function returns; with capacity -1 and one order,
    allocation, filling and traceback go through and the final read
    dp[capacity] is out of bounds, so the function panics. *)
Theorem dp_accesses_in_bounds ctx orders robotID capacity :
  (length orders <= 500)%nat → 0 <= capacity <= 5000 →
  Forall (λ o, 0 <= Weight o) orders →
  (∃ r, selectOrdersDP ctx orders robotID capacity = Done r) ∧
  let orders1 := [mkOrder 1 1 1] in
  (0 < length orders1 <= 500)%nat ∧
  (∃ t0 t s,
     DP.alloc 1 (-1) = Done t0 ∧
     DP.fill ctx orders1 (-1) (seqZ 1 1) t0 = Done (inr t) ∧
     DP.backtrack orders1 (DP.keep t) 1 (DP.mkTrace (-1) [] 0) = Done s ∧
     Slice.get (DP.dp t) (-1) = Panicked IndexOutOfRange) ∧
  selectOrdersDP ctx orders1 robotID (-1) = Panicked IndexOutOfRange.
Proof.
  intros Hn Hsmall Hweights.
  assert (0 <= capacity < GoInt.max_int) as Hcap by (rewrite max_int_value; lia).
  split.
  - destruct (selectOrdersDP_outcome ctx orders robotID capacity Hcap Hweights)
      as (r & Hrun & _).
    by exists r.
  - cbv zeta. split; [simpl; lia|]. split; [|reflexivity].
    eexists _, _, _. repeat split; reflexivity.
Qed.

(** C10, witness: two orders, one of weight 0, capacity 3. *)
Lemma dp_accesses_in_bounds_witness :
  (∃ r, selectOrdersDP background [mkOrder 1 0 5; mkOrder 2 2 1] "robot" 3 = Done r) ∧
  let orders1 := [mkOrder 1 1 1] in
  (0 < length orders1 <= 500)%nat ∧
  (∃ t0 t s,
     DP.alloc 1 (-1) = Done t0 ∧
     DP.fill background orders1 (-1) (seqZ 1 1) t0 = Done (inr t) ∧
     DP.backtrack orders1 (DP.keep t) 1 (DP.mkTrace (-1) [] 0) = Done s ∧
     Slice.get (DP.dp t) (-1) = Panicked IndexOutOfRange) ∧
  selectOrdersDP background orders1 "robot" (-1) = Panicked IndexOutOfRange.
Proof.
  apply (dp_accesses_in_bounds background [mkOrder 1 0 5; mkOrder 2 2 1] "robot" 3).
  - simpl. lia.
  - lia.
  - repeat constructor; simpl; lia.
Defined.

(** * Further properties of the selection *)

Lemma fill_polls_checkpoints ctx1 ctx2 orders capacity indices : ∀ t,
  (∀ i, Z.rem i 50 = 0 → ctx1 i = ctx2 i) →
  DP.fill ctx1 orders capacity indices t = DP.fill ctx2 orders capacity indices t.
Proof.
  intros t Hsame. revert t. induction indices as [|i rest IH]; intros t; [done|].
  cbn [DP.fill]. destruct (Slice.get orders (i - 1)) as [order|]; [|done].
  run_step. destruct (Z.eqb_spec (Z.rem i 50) 0) as [Hrem|_].
  - rewrite (Hsame i Hrem). destruct (ctx2 i); [done|].
    destruct (DP.inner_loop _ _ _ _ _); [|done]. run_step. apply IH.
  - destruct (DP.inner_loop _ _ _ _ _); [|done]. run_step. apply IH.
Qed.

(** X2. The selection looks at the context at outer iterations 50, 100,
    150, ... and nowhere else: two contexts that agree at the multiples of
    50 give the same result, whatever they say in between. *)
Theorem selection_polls_every_fiftieth `{SliceSorter} ctx1 ctx2 orders robotID capacity :
  (∀ i, Z.rem i 50 = 0 → ctx1 i = ctx2 i) →
  selectOrdersDP ctx1 orders robotID capacity
    = selectOrdersDP ctx2 orders robotID capacity ∧
  selectOrdersForDeliveryOptimized ctx1 orders robotID capacity
    = selectOrdersForDeliveryOptimized ctx2 orders robotID capacity.
Proof.
  intros Hsame.
  assert (selectOrdersDP ctx1 orders robotID capacity
          = selectOrdersDP ctx2 orders robotID capacity) as Hdp.
  { unfold selectOrdersDP. destruct (DP.alloc _ _) as [t0|]; [|done]. run_step.
    by rewrite (fill_polls_checkpoints ctx1 ctx2). }
  split; [done|]. unfold selectOrdersForDeliveryOptimized. by rewrite Hdp.
Qed.

(** X2, witness: a context cancelled everywhere but at the checkpoints
    against one never cancelled, on sixty orders. *)
Lemma selection_polls_every_fiftieth_witness :
  let between : Context := λ i, if Z.rem i 50 =? 0 then None else Some Canceled in
  let orders := replicate 60 (mkOrder 1 1 1) in
  selectOrdersDP between orders "robot" 3 = selectOrdersDP background orders "robot" 3 ∧
  @selectOrdersForDeliveryOptimized insertion between orders "robot" 3
    = @selectOrdersForDeliveryOptimized insertion background orders "robot" 3.
Proof.
  cbv zeta. apply (@selection_polls_every_fiftieth insertion).
  intros i Hi. simpl. rewrite Hi. reflexivity.
Defined.

Lemma fill_with_no_budget ctx orders k : ∀ m t,
  (m + k)%nat = length orders →
  Forall (λ o, 0 <= Weight o) orders →
  (∀ i, Z.of_nat m < i <= Z.of_nat (length orders) → Z.rem i 50 = 0 → ctx i = None) →
  DP.fill ctx orders (-1) (seqZ (Z.of_nat m + 1) (Z.of_nat k)) t = Done (inr t).
Proof.
  induction k as [|k IH]; intros m t Hmk Hweights Hctx; [done|].
  rewrite seqZ_cons by lia. cbn [DP.fill].
  assert (m < length orders)%nat as Hm by lia.
  destruct (lookup_lt_is_Some_2 _ _ Hm) as [o Ho].
  rewrite (get_Done _ _ o) by (rewrite ?Z.add_simpl_r, ?Nat2Z.id; done || lia).
  run_step.
  assert ((if Z.rem (Z.of_nat m + 1) 50 =? 0 then ctx (Z.of_nat m + 1) else None)
          = None) as ->.
  { destruct (Z.eqb_spec (Z.rem (Z.of_nat m + 1) 50) 0); [|done].
    apply Hctx; [lia|done]. }
  assert (0 <= Weight o).
  { by apply (Forall_lookup_1 (λ o, 0 <= Weight o) orders m o). }
  unfold DP.inner_fuel. rewrite inner_loop_end by lia. run_step.
  replace (Z.succ (Z.of_nat m + 1)) with (Z.of_nat (S m) + 1) by lia.
  replace (Z.pred (Z.of_nat (S k))) with (Z.of_nat k) by lia.
  apply IH; [lia|done|]. intros i Hi. apply Hctx. lia.
Qed.

Lemma make_negative {A} (zero : A) len :
  len < 0 → Slice.make zero len = Panicked MakesliceLenOutOfRange.
Proof. intros Hlen. unfold Slice.make. destruct (Z.ltb_spec len 0); [done|lia]. Qed.

Lemma backtrack_spent orders keep i s :
  DP.tr_w s <= 0 → DP.backtrack orders keep i s = Done s.
Proof.
  intros Hw. destruct i; [done|]. cbn [DP.backtrack].
  by destruct (Z.gtb_spec (DP.tr_w s) 0); [lia|].
Qed.

(** X3. A negative capacity makes the dynamic program panic: below -1 the
    allocation of [dp] has a negative length; at -1 the tables are empty,
    the loops do nothing (weights not negative, no checkpoint cancelled)
    and the final read dp[capacity] is out of bounds. The selection passes
    the panic on whenever it takes the exact path. *)
Theorem negative_capacity_panics `{SliceSorter} ctx orders robotID capacity :
  GoInt.min_int <= capacity < 0 →
  Forall (λ o, 0 <= Weight o) orders →
  not_cancelled ctx (length orders) →
  selectOrdersDP ctx orders robotID capacity =
    Panicked (if capacity =? -1 then IndexOutOfRange else MakesliceLenOutOfRange) ∧
  (orders ≠ [] → (length orders <= 500)%nat →
   selectOrdersForDeliveryOptimized ctx orders robotID capacity =
     Panicked (if capacity =? -1 then IndexOutOfRange else MakesliceLenOutOfRange)).
Proof.
  intros Hcap Hweights Hctx.
  assert (selectOrdersDP ctx orders robotID capacity =
          Panicked (if capacity =? -1 then IndexOutOfRange else MakesliceLenOutOfRange))
    as Hdp.
  { unfold selectOrdersDP, DP.alloc.
    rewrite add_exact
      by (unfold GoInt.in_range, GoInt.min_int in *; rewrite max_int_value; lia).
    destruct (Z.eqb_spec capacity (-1)) as [->|Hne].
    - rewrite !make_Done by lia. run_step.
      rewrite (fill_with_no_budget ctx orders (length orders) 0) by done.
      run_step. rewrite backtrack_spent by (simpl; lia). done.
    - rewrite (make_negative 0) by lia. reflexivity. }
  split; [done|]. intros Hne Hn. by rewrite exact_path by (done || lia).
Qed.

(** X3, witness: three orders, capacity -5. *)
Lemma negative_capacity_panics_witness :
  let orders := [mkOrder 1 2 3; mkOrder 2 3 4; mkOrder 3 4 5] in
  selectOrdersDP background orders "robot" (-5) = Panicked MakesliceLenOutOfRange ∧
  (orders ≠ [] → (length orders <= 500)%nat →
   @selectOrdersForDeliveryOptimized insertion background orders "robot" (-5)
     = Panicked MakesliceLenOutOfRange).
Proof.
  cbv zeta.
  apply (@negative_capacity_panics insertion background
           [mkOrder 1 2 3; mkOrder 2 3 4; mkOrder 3 4 5] "robot" (-5)).
  - unfold GoInt.min_int. lia.
  - repeat constructor; simpl; lia.
  - intros i _ _. reflexivity.
Defined.

Lemma best_too_heavy l w :
  Forall (λ o, w < Weight o) l → best l w = 0 ∧ picks l w = [].
Proof.
  induction 1 as [|o l Ho _ [IHb IHp]]; [done|].
  rewrite best_unfold. cbn [picks]. unfold taken.
  by destruct (Z.leb_spec (Weight o) w); [lia|].
Qed.

Lemma greedy_walk_too_heavy capacity sorted :
  Forall (λ o, capacity < Weight o ∧ GoInt.in_range (Weight o)) sorted →
  greedy_walk capacity sorted (mkTally [] 0 0) = mkTally [] 0 0.
Proof.
  induction 1 as [|o sorted [Ho Hr] _ IH]; [done|]. cbn [greedy_walk ta_weight].
  rewrite add_exact by done.
  by destruct (Z.leb_spec (0 + Weight o) capacity); [lia|].
Qed.

(** X4. When every order weighs more than the capacity, the selection
    returns the empty plan with total weight 0 and total value 0: on the
    greedy path whatever the capacity (a negative one too), on the exact
    path for a capacity from 0. It returns a plan unless a checkpoint finds
    the context done. *)
Theorem too_heavy_orders_are_left `{SliceSorter} ctx orders robotID capacity :
  Forall (λ o, capacity < Weight o ∧ GoInt.in_range (Weight o) ∧
               GoInt.in_range (Value o)) orders →
  0 <= capacity ∨ (500 < length orders)%nat →
  ∃ plan err,
    selectOrdersForDeliveryOptimized ctx orders robotID capacity = Done (plan, err) ∧
    (not_cancelled ctx (length orders) → err = None) ∧
    (err = None → plan = mkPlan robotID 0 0 []).
Proof.
  intros Hall Hpath.
  assert (Forall (λ o, capacity < Weight o ∧ GoInt.in_range (Weight o)) orders)
    as Hheavy.
  { eapply Forall_impl; [exact Hall|]. by intros o (? & ? & _). }
  destruct (decide (orders = [])) as [->|Hne]; [by eexists _, None|].
  destruct (decide ((500 < length orders)%nat ∨ 5000 < capacity)) as [Hbig|Hsmall].
  - rewrite approximate_path by done. eexists _, None. split; [done|].
    split; [done|]. intros _. unfold selectOrdersGreedy.
    destruct orders as [|o orders]; [done|].
    rewrite greedy_walk_too_heavy; [done|].
    unfold greedy_sequence. by rewrite (sort_Slice_perm ratio_less (o :: orders)).
  - assert (0 <= capacity < GoInt.max_int) as Hcap by (rewrite max_int_value; lia).
    assert (Forall (λ o, 0 < Weight o) orders) as Hweights.
    { eapply Forall_impl; [exact Hheavy|]. intros o ?. simpl in *. lia. }
    rewrite exact_path by (done || lia).
    destruct (selectOrdersDP_outcome ctx orders robotID capacity Hcap
                (positive_weights_nonneg _ Hweights)) as ([plan [e|]] & Hrun & Hr).
    + exists plan, (Some e). split; [done|]. split; [|done].
      intros Hctx. destruct Hr as (_ & i & Hi & Hrem & Hsome).
      by rewrite (Hctx i Hi Hrem) in Hsome.
    + exists plan, None. split; [done|]. split; [done|]. intros _.
      destruct Hr as [Hctx _].
      assert (∀ x l, x <= capacity → Forall (λ o, capacity < Weight o) l →
                best l x = 0 ∧ picks l x = []) as Hnone.
      { intros x l Hx Hl. apply best_too_heavy.
        eapply Forall_impl; [exact Hl|]. intros o ?. simpl in *. lia. }
      assert (Forall (λ o, capacity < Weight o) orders) as Hover.
      { eapply Forall_impl; [exact Hheavy|]. by intros o [? _]. }
      rewrite selectOrdersDP_closed_form in Hrun; try done.
      * injection Hrun as <-.
        by destruct (Hnone capacity (reverse orders)) as [-> ->];
          [lia|by apply Forall_reverse|].
      * intros m o x Ho Hx.
        destruct (Hnone x (reverse (take m orders))) as [-> _]; [lia| |].
        { by apply Forall_reverse, Forall_take. }
        by destruct (Forall_lookup_1 _ orders m o Hall Ho) as (_ & _ & ?).
Qed.

(** X4, witness: capacity 4 and two orders of weight 5 and 7. *)
Lemma too_heavy_orders_are_left_witness :
  ∃ plan err,
    @selectOrdersForDeliveryOptimized insertion background
      [mkOrder 1 5 3; mkOrder 2 7 4] "robot" 4 = Done (plan, err) ∧
    (not_cancelled background (length [mkOrder 1 5 3; mkOrder 2 7 4]) → err = None) ∧
    (err = None → plan = mkPlan "robot" 0 0 []).
Proof.
  apply (@too_heavy_orders_are_left insertion).
  - repeat constructor; unfold GoInt.in_range, GoInt.min_int; simpl;
      rewrite ?max_int_value; lia.
  - left. lia.
Defined.

Lemma picks_all l : ∀ w,
  Forall (λ o, 0 <= Weight o ∧ 0 < Value o) l → sum_weights l <= w →
  picks l w = l ∧ best l w = sum_values l.
Proof.
  induction l as [|o l IH]; intros w Hall Hw; [done|].
  apply Forall_cons in Hall as [[Ho Hv] Hall]. rewrite sum_weights_cons in Hw.
  assert (0 <= sum_weights l) as Hsum.
  { apply sum_weights_nonneg. eapply Forall_impl; [exact Hall|]. by intros ? [? _]. }
  destruct (IH w Hall) as [_ Hb1]; [lia|].
  destruct (IH (w - Weight o) Hall) as [Hp2 Hb2]; [lia|].
  rewrite best_unfold, sum_values_cons. cbn [picks]. unfold taken.
  destruct (Z.leb_spec (Weight o) w); [|lia]. rewrite Hb1, Hb2, Hp2.
  destruct (Z.ltb_spec (sum_values l) (sum_values l + Value o)); [|lia].
  split; [done|]. simpl. lia.
Qed.

Lemma greedy_walk_all capacity sorted : ∀ s,
  Forall (λ o, 0 <= Weight o ∧ 0 <= Value o) sorted →
  0 <= ta_weight s → 0 <= ta_value s →
  ta_weight s + sum_weights sorted <= capacity → capacity <= GoInt.max_int →
  ta_value s + sum_values sorted <= GoInt.max_int →
  greedy_walk capacity sorted s =
    mkTally (ta_selected s ++ sorted) (ta_weight s + sum_weights sorted)
            (ta_value s + sum_values sorted).
Proof.
  induction sorted as [|o sorted IH]; intros [sel w v] Hall Hw Hv Hfit Hcap Hval;
    cbn [ta_weight ta_value ta_selected] in *.
  { simpl. rewrite app_nil_r. f_equal; lia. }
  apply Forall_cons in Hall as [[Ho Hvo] Hall].
  rewrite sum_weights_cons in Hfit. rewrite sum_values_cons in Hval.
  assert (0 <= sum_weights sorted) as Hsw.
  { apply sum_weights_nonneg. eapply Forall_impl; [exact Hall|]. by intros ? [? _]. }
  assert (0 <= sum_values sorted) as Hsv.
  { apply sum_values_nonneg. eapply Forall_impl; [exact Hall|]. by intros ? [_ ?]. }
  cbn [greedy_walk ta_weight ta_value ta_selected].
  rewrite !add_exact
    by (unfold GoInt.in_range, GoInt.min_int; rewrite max_int_value in *; lia).
  destruct (Z.leb_spec (w + Weight o) capacity); [|lia].
  rewrite IH; cbn [ta_weight ta_value ta_selected]; try done; try lia.
  rewrite sum_weights_cons, sum_values_cons, <-app_assoc. simpl. f_equal; lia.
Qed.

(** X5. When all the orders together fit the capacity, the plan takes
    every one of them: its orders are the given ones (in another sequence),
    its total weight is the sum of their weights and its total value the sum
    of their values. Orders have positive weight and value, and the sums stay
    within the machine integer. *)
Theorem all_orders_taken_when_all_fit `{SliceSorter} ctx orders robotID capacity :
  Forall positive_order orders →
  sum_weights orders <= capacity <= GoInt.max_int →
  sum_values orders <= GoInt.max_int →
  not_cancelled ctx (length orders) →
  ∃ plan,
    selectOrdersForDeliveryOptimized ctx orders robotID capacity = Done (plan, None) ∧
    RobotID plan = robotID ∧
    Orders plan ≡ₚ orders ∧
    TotalWeight plan = sum_weights orders ∧
    TotalValue plan = sum_values orders.
Proof.
  intros Hall [Hfit Hcap] Hval Hctx.
  pose proof (positive_orders_weights _ Hall) as Hweights.
  pose proof (positive_orders_values _ Hall) as Hvalues.
  pose proof (sum_weights_nonneg _ (positive_weights_nonneg _ Hweights)) as Hsw.
  destruct (decide (orders = [])) as [->|Hne]; [by eexists|].
  destruct (decide ((500 < length orders)%nat ∨ 5000 < capacity)) as [Hbig|Hsmall].
  - rewrite approximate_path by done. eexists. split; [done|].
    unfold selectOrdersGreedy. destruct orders as [|o orders]; [done|].
    pose proof (sort_Slice_perm ratio_less (o :: orders)) as Hperm.
    fold (greedy_sequence (o :: orders)) in Hperm.
    rewrite greedy_walk_all; cbn [ta_weight ta_value ta_selected RobotID Orders
      TotalWeight TotalValue]; try done.
    + rewrite (sum_weights_perm _ _ Hperm), (sum_values_perm _ _ Hperm). done.
    + rewrite Hperm. eapply Forall_impl; [exact Hall|].
      intros x [[? _] [? _]]. lia.
    + by rewrite (sum_weights_perm _ _ Hperm).
    + by rewrite (sum_values_perm _ _ Hperm).
  - rewrite exact_path by (done || lia).
    rewrite selectOrdersDP_exact; try done; [|rewrite max_int_value; lia].
    destruct (picks_all (reverse orders) capacity) as [Hp Hb].
    { apply Forall_reverse. eapply Forall_impl; [exact Hall|].
      intros x [[? _] [? _]]. lia. }
    { by rewrite (sum_weights_perm _ _ (reverse_Permutation orders)). }
    eexists. split; [done|].
    cbn [RobotID Orders TotalWeight TotalValue]. rewrite Hp, Hb.
    rewrite (sum_weights_perm _ _ (reverse_Permutation orders)),
      (sum_values_perm _ _ (reverse_Permutation orders)).
    split; [done|]. split; [apply reverse_Permutation|done].
Qed.

(** X5, witness: three orders of total weight 9 and a capacity of 10. *)
Lemma all_orders_taken_when_all_fit_witness :
  ∃ plan,
    @selectOrdersForDeliveryOptimized insertion background
      [mkOrder 1 2 3; mkOrder 2 3 4; mkOrder 3 4 5] "robot" 10 = Done (plan, None) ∧
    RobotID plan = "robot" ∧
    Orders plan ≡ₚ [mkOrder 1 2 3; mkOrder 2 3 4; mkOrder 3 4 5] ∧
    TotalWeight plan = sum_weights [mkOrder 1 2 3; mkOrder 2 3 4; mkOrder 3 4 5] ∧
    TotalValue plan = sum_values [mkOrder 1 2 3; mkOrder 2 3 4; mkOrder 3 4 5].
Proof.
  apply (@all_orders_taken_when_all_fit insertion).
  - repeat constructor; simpl; rewrite ?max_int_value; lia.
  - simpl. rewrite max_int_value. lia.
  - simpl. rewrite max_int_value. lia.
  - done.
Defined.

Lemma greedy_picks_maximal capacity sorted : ∀ weight o,
  Forall (λ o, 0 <= Weight o) sorted →
  o ∈ sorted → o ∉ greedy_picks capacity sorted weight →
  capacity < weight + sum_weights (greedy_picks capacity sorted weight) + Weight o.
Proof.
  induction sorted as [|x rest IH]; intros weight o Hall Hin Hout.
  { by apply elem_of_nil in Hin. }
  apply Forall_cons in Hall as [Hx Hall]. cbn [greedy_picks] in *.
  destruct (Z.leb_spec (weight + Weight x) capacity) as [Hfit|Hfit].
  - apply not_elem_of_cons in Hout as [Hne Hout].
    apply elem_of_cons in Hin as [->|Hin]; [done|].
    specialize (IH _ _ Hall Hin Hout). rewrite sum_weights_cons. lia.
  - assert (0 <= sum_weights (greedy_picks capacity rest weight)) as Hsum.
    { apply sum_weights_nonneg.
      eapply Forall_of_sublist; [apply greedy_picks_sublist|done]. }
    apply elem_of_cons in Hin as [->|Hin]; [lia|].
    by apply IH.
Qed.

Lemma submseteq_add_missing (o : Order) l1 l2 :
  l1 ⊆+ l2 → o ∈ l2 → o ∉ l1 → o :: l1 ⊆+ l2.
Proof.
  intros Hsub Hin Hout. apply elem_of_Permutation in Hin as [l2' Hperm].
  rewrite Hperm in Hsub |- *. apply submseteq_cons_r in Hsub as [Hsub|(l' & Hl' & _)].
  - by apply submseteq_skip.
  - exfalso. apply Hout. rewrite Hl'. by left.
Qed.

(** X6. A plan leaves no room for an order it left out: for every given
    order that is not among the plan's orders, the plan's total weight plus
    that order's weight exceeds the capacity. Orders have positive weight and
    value, and neither the capacity plus a weight nor the sum of the values
    leaves the machine integer. *)
Theorem plan_leaves_no_room `{SliceSorter} ctx orders robotID capacity plan :
  Forall positive_order orders →
  0 <= capacity →
  Forall (λ o, capacity + Weight o <= GoInt.max_int) orders →
  sum_values orders <= GoInt.max_int →
  selectOrdersForDeliveryOptimized ctx orders robotID capacity = Done (plan, None) →
  ∀ o, o ∈ orders → o ∉ Orders plan → capacity < TotalWeight plan + Weight o.
Proof.
  intros Hall Hcap Hroom Hval Hrun o Hin Hout.
  pose proof (positive_orders_weights _ Hall) as Hweights.
  pose proof (positive_orders_values _ Hall) as Hvalues.
  pose proof (positive_weights_nonneg _ Hweights) as Hnonneg.
  assert (orders ≠ []) as Hne by (intros ->; by apply elem_of_nil in Hin).
  destruct (decide ((500 < length orders)%nat ∨ 5000 < capacity)) as [Hbig|Hsmall].
  - rewrite approximate_path in Hrun by done. injection Hrun as <-.
    rewrite selectOrdersGreedy_exact in Hout |- *; try done.
    + cbn [Orders TotalWeight] in *.
      pose proof (greedy_picks_maximal capacity (greedy_sequence orders) 0 o) as Hmax.
      unfold greedy_sequence in *.
      rewrite (sort_Slice_perm ratio_less orders) in Hmax at 1 2.
      specialize (Hmax Hnonneg Hin Hout). lia.
    + apply Forall_forall. intros x Hx. split.
      * by apply (proj1 (Forall_forall _ _) Hnonneg).
      * by apply (proj1 (Forall_forall _ _) Hroom).
    + apply Forall_forall. intros x Hx. split.
      * by apply (proj1 (Forall_forall _ _) Hnonneg).
      * by apply (proj1 (Forall_forall _ _) Hroom).
  - rewrite exact_path in Hrun by (done || lia).
    assert (0 <= capacity < GoInt.max_int) as Hcap' by (rewrite max_int_value; lia).
    destruct (selectOrdersDP_outcome ctx orders robotID capacity Hcap' Hnonneg)
      as (r & Hr & Hshape).
    rewrite Hrun in Hr. injection Hr as <-. destruct Hshape as [Hctx _].
    rewrite selectOrdersDP_exact in Hrun by done. injection Hrun as <-.
    cbn [Orders TotalWeight] in *.
    destruct (Z.lt_ge_cases capacity
                (sum_weights (picks (reverse orders) capacity) + Weight o))
      as [|Hfits]; [done|exfalso].
    destruct (picks_feasible orders capacity Hcap) as [Hsub _].
    pose proof (best_is_optimum orders capacity
                  (o :: picks (reverse orders) capacity) Hnonneg) as Hopt.
    rewrite sum_values_cons, picks_values in Hopt.
    assert (0 < Value o) as Hpos.
    { by destruct (proj1 (Forall_forall _ _) Hall o Hin) as [_ [? _]]. }
    assert (feasible orders capacity (o :: picks (reverse orders) capacity)) as Hfeas.
    { split; [by apply submseteq_add_missing|]. rewrite sum_weights_cons. lia. }
    specialize (Hopt Hfeas). lia.
Qed.

(** X6, witness: capacity 5, the plan takes the orders of weight 2 and 3
    and leaves the one of weight 4. *)
Lemma plan_leaves_no_room_witness :
  5 < TotalWeight (mkPlan "robot" 5 7 [mkOrder 2 3 4; mkOrder 1 2 3]) + Weight (mkOrder 3 4 5).
Proof.
  apply (@plan_leaves_no_room insertion background
           [mkOrder 1 2 3; mkOrder 2 3 4; mkOrder 3 4 5] "robot" 5).
  - repeat constructor; simpl; rewrite ?max_int_value; lia.
  - lia.
  - repeat constructor; simpl; rewrite max_int_value; lia.
  - simpl. rewrite max_int_value. lia.
  - vm_compute. reflexivity.
  - rewrite !elem_of_cons. auto.
  - cbn [Orders]. rewrite !not_elem_of_cons.
    repeat split; [discriminate..|apply not_elem_of_nil].
Defined.

Lemma exact_value `{SliceSorter} ctx orders robotID capacity :
  (length orders <= 500)%nat → 0 <= capacity <= 5000 →
  Forall positive_order orders → sum_values orders <= GoInt.max_int →
  not_cancelled ctx (length orders) →
  ∃ plan,
    selectOrdersForDeliveryOptimized ctx orders robotID capacity = Done (plan, None) ∧
    TotalValue plan = best (reverse orders) capacity.
Proof.
  intros Hn Hcap Hall Hval Hctx.
  destruct (decide (orders = [])) as [->|Hne]; [by eexists|].
  rewrite exact_path by (done || lia).
  rewrite selectOrdersDP_exact; try done.
  - by eexists.
  - rewrite max_int_value. lia.
  - by apply positive_orders_weights.
  - by apply positive_orders_values.
Qed.

Lemma best_monotone orders1 orders2 capacity1 capacity2 :
  Forall (λ o, 0 <= Weight o) orders2 →
  orders1 ⊆+ orders2 → 0 <= capacity1 <= capacity2 →
  best (reverse orders1) capacity1 <= best (reverse orders2) capacity2.
Proof.
  intros Hweights Hsub Hcap.
  destruct (picks_feasible orders1 capacity1) as [Hpicks Hfit]; [lia|].
  rewrite <- (picks_values (reverse orders1) capacity1).
  apply best_is_optimum; [done|]. split; [by etrans|lia].
Qed.

(** X7. On the exact path the value of the plan grows with what is on
    offer: with more orders to choose from (the first list a part of the
    second, in any sequence) and no smaller a capacity, the plan is worth no
    less. *)
Theorem exact_value_grows_with_the_offer `{SliceSorter}
    ctx1 ctx2 orders1 orders2 robotID capacity1 capacity2 :
  orders1 ⊆+ orders2 → (length orders2 <= 500)%nat →
  0 <= capacity1 <= capacity2 → capacity2 <= 5000 →
  Forall positive_order orders2 → sum_values orders2 <= GoInt.max_int →
  not_cancelled ctx1 (length orders1) → not_cancelled ctx2 (length orders2) →
  ∃ plan1 plan2,
    selectOrdersForDeliveryOptimized ctx1 orders1 robotID capacity1
      = Done (plan1, None) ∧
    selectOrdersForDeliveryOptimized ctx2 orders2 robotID capacity2
      = Done (plan2, None) ∧
    TotalValue plan1 <= TotalValue plan2.
Proof.
  intros Hsub Hn Hcap Hcap2 Hall Hval Hctx1 Hctx2.
  assert (Forall positive_order orders1) as Hall1.
  { apply Forall_forall. intros o Ho.
    apply (proj1 (Forall_forall _ _) Hall). by eapply elem_of_submseteq. }
  assert (sum_values orders1 <= sum_values orders2) as Hval1.
  { apply submseteq_Permutation in Hsub as [rest Hperm].
    rewrite (sum_values_perm _ _ Hperm), sum_values_app.
    assert (0 <= sum_values rest); [|lia]. apply sum_values_nonneg.
    apply positive_orders_values. rewrite Hperm in Hall.
    by apply Forall_app in Hall as [_ ?]. }
  destruct (exact_value ctx1 orders1 robotID capacity1) as (plan1 & Hrun1 & Hv1);
    try done; try lia.
  { apply submseteq_length in Hsub. lia. }
  destruct (exact_value ctx2 orders2 robotID capacity2) as (plan2 & Hrun2 & Hv2);
    try done; try lia.
  exists plan1, plan2. split; [done|]. split; [done|]. rewrite Hv1, Hv2.
  apply best_monotone; [|done..].
  by apply positive_weights_nonneg, positive_orders_weights.
Qed.

(** X7, witness: one order and capacity 2 against two orders and
    capacity 5. *)
Lemma exact_value_grows_with_the_offer_witness :
  ∃ plan1 plan2,
    @selectOrdersForDeliveryOptimized insertion background [mkOrder 2 3 4] "robot" 2
      = Done (plan1, None) ∧
    @selectOrdersForDeliveryOptimized insertion background
      [mkOrder 1 2 3; mkOrder 2 3 4] "robot" 5 = Done (plan2, None) ∧
    TotalValue plan1 <= TotalValue plan2.
Proof.
  apply (@exact_value_grows_with_the_offer insertion).
  - by apply submseteq_cons.
  - simpl. lia.
  - lia.
  - lia.
  - repeat constructor; simpl; rewrite ?max_int_value; lia.
  - simpl. rewrite max_int_value. lia.
  - done.
  - done.
Defined.

(** X8. On the exact path the value of the plan does not depend on the
    sequence in which the orders are given: two lists holding the same
    orders give plans of the same total value. *)
Theorem exact_value_ignores_sequence `{SliceSorter}
    ctx1 ctx2 orders1 orders2 robotID capacity :
  orders1 ≡ₚ orders2 → (length orders1 <= 500)%nat → 0 <= capacity <= 5000 →
  Forall positive_order orders1 → sum_values orders1 <= GoInt.max_int →
  not_cancelled ctx1 (length orders1) → not_cancelled ctx2 (length orders2) →
  ∃ plan1 plan2,
    selectOrdersForDeliveryOptimized ctx1 orders1 robotID capacity
      = Done (plan1, None) ∧
    selectOrdersForDeliveryOptimized ctx2 orders2 robotID capacity
      = Done (plan2, None) ∧
    TotalValue plan1 = TotalValue plan2.
Proof.
  intros Hperm Hn Hcap Hall Hval Hctx1 Hctx2.
  assert (Forall positive_order orders2) as Hall2 by by rewrite <- Hperm.
  destruct (exact_value ctx1 orders1 robotID capacity) as (plan1 & Hrun1 & Hv1);
    try done.
  destruct (exact_value ctx2 orders2 robotID capacity) as (plan2 & Hrun2 & Hv2);
    try done.
  { by rewrite <- Hperm. }
  { by rewrite <- (sum_values_perm _ _ Hperm). }
  exists plan1, plan2. split; [done|]. split; [done|]. rewrite Hv1, Hv2.
  apply Z.le_antisymm; apply best_monotone; try lia.
  - by apply positive_weights_nonneg, positive_orders_weights.
  - by rewrite Hperm.
  - by apply positive_weights_nonneg, positive_orders_weights.
  - by rewrite Hperm.
Qed.

(** X8, witness: two orders given in either sequence, capacity 4. *)
Lemma exact_value_ignores_sequence_witness :
  ∃ plan1 plan2,
    @selectOrdersForDeliveryOptimized insertion background
      [mkOrder 1 2 3; mkOrder 2 3 4] "robot" 4 = Done (plan1, None) ∧
    @selectOrdersForDeliveryOptimized insertion background
      [mkOrder 2 3 4; mkOrder 1 2 3] "robot" 4 = Done (plan2, None) ∧
    TotalValue plan1 = TotalValue plan2.
Proof.
  apply (@exact_value_ignores_sequence insertion).
  - apply Permutation_swap.
  - simpl. lia.
  - lia.
  - repeat constructor; simpl; rewrite ?max_int_value; lia.
  - simpl. rewrite max_int_value. lia.
  - done.
  - done.
Defined.

(** X9. On the greedy path the plan's totals are those of its orders:
    the total value is the sum of their values and the total weight the sum
    of their weights, when neither the capacity plus a weight nor the sum of
    all values leaves the machine integer. *)
Theorem greedy_totals_are_sums `{SliceSorter} orders robotID capacity :
  0 <= capacity → Forall positive_order orders →
  Forall (λ o, capacity + Weight o <= GoInt.max_int) orders →
  sum_values orders <= GoInt.max_int →
  TotalValue (selectOrdersGreedy orders robotID capacity) =
    sum_values (Orders (selectOrdersGreedy orders robotID capacity)) ∧
  TotalWeight (selectOrdersGreedy orders robotID capacity) =
    sum_weights (Orders (selectOrdersGreedy orders robotID capacity)).
Proof.
  intros Hcap Hall Hroom Hval.
  pose proof (positive_orders_values _ Hall) as Hvalues.
  pose proof (positive_weights_nonneg _ (positive_orders_weights _ Hall)) as Hnonneg.
  rewrite selectOrdersGreedy_exact; try done.
  - cbn [TotalValue TotalWeight Orders]. split; [|done].
    destruct (greedy_picks_feasible orders capacity Hcap) as [Hsub _].
    rewrite machine_value_exact; [lia| |lia|].
    + apply Forall_forall. intros o Ho.
      apply (proj1 (Forall_forall _ _) Hvalues). by eapply elem_of_submseteq.
    + apply submseteq_Permutation in Hsub as [rest Hperm].
      rewrite (sum_values_perm _ _ Hperm), sum_values_app in Hval.
      assert (0 <= sum_values rest); [|lia]. apply sum_values_nonneg.
      rewrite Hperm in Hvalues. by apply Forall_app in Hvalues as [_ ?].
  - apply Forall_forall. intros x Hx. split.
    + by apply (proj1 (Forall_forall _ _) Hnonneg).
    + by apply (proj1 (Forall_forall _ _) Hroom).
Qed.

(** X9, witness: three orders, capacity 5. *)
Lemma greedy_totals_are_sums_witness :
  TotalValue (@selectOrdersGreedy insertion
                [mkOrder 1 2 3; mkOrder 2 3 4; mkOrder 3 4 5] "robot" 5) =
    sum_values (Orders (@selectOrdersGreedy insertion
                [mkOrder 1 2 3; mkOrder 2 3 4; mkOrder 3 4 5] "robot" 5)) ∧
  TotalWeight (@selectOrdersGreedy insertion
                [mkOrder 1 2 3; mkOrder 2 3 4; mkOrder 3 4 5] "robot" 5) =
    sum_weights (Orders (@selectOrdersGreedy insertion
                [mkOrder 1 2 3; mkOrder 2 3 4; mkOrder 3 4 5] "robot" 5)).
Proof.
  apply (@greedy_totals_are_sums insertion).
  - lia.
  - repeat constructor; simpl; rewrite ?max_int_value; lia.
  - repeat constructor; simpl; rewrite max_int_value; lia.
  - simpl. rewrite max_int_value. lia.
Defined.

(** X10. The greedy path takes the order of the best ratio first: an order
    whose value-to-weight ratio is above that of every other order, and
    which fits the capacity by itself, is the first order of the plan. *)
Theorem greedy_takes_best_ratio_first `{SliceSorter} orders robotID capacity o :
  Forall positive_order orders → o ∈ orders → Weight o <= capacity →
  (∀ x, x ∈ orders → x ≠ o → SFltb (ratio x) (ratio o) = true) →
  ∃ others, Orders (selectOrdersGreedy orders robotID capacity) = o :: others.
Proof.
  intros Hall Hin Hfits Hbest.
  pose proof (sort_Slice_perm ratio_less orders) as Hperm.
  assert (ordered_by ratio_less (sort_Slice ratio_less orders)) as Hsorted.
  { apply sort_Slice_ordered, ratio_less_strict_weak_order.
    eapply Forall_impl; [exact Hall|]. apply positive_order_ratio_number. }
  unfold selectOrdersGreedy, greedy_sequence.
  destruct orders as [|o0 orders0] eqn:Horders; [by apply elem_of_nil in Hin|].
  rewrite <- Horders in *. clear Horders o0 orders0.
  destruct (sort_Slice ratio_less orders) as [|h sorted] eqn:Hseq.
  { rewrite <- Hperm in Hin. by apply elem_of_nil in Hin. }
  assert (h = o) as ->.
  { destruct (decide (h = o)) as [|Hne]; [done|exfalso].
    assert (o ∈ sorted) as Ho.
    { rewrite <- Hperm in Hin. apply elem_of_cons in Hin as [->|?]; done. }
    assert (h ∈ orders) as Hh by (rewrite <- Hperm; by left).
    apply StronglySorted_inv in Hsorted as [_ Hfirst].
    rewrite Forall_forall in Hfirst. specialize (Hfirst o Ho).
    unfold ratio_less in Hfirst. by rewrite (Hbest h Hh Hne) in Hfirst. }
  assert (positive_order o) as [[Hw Hw'] _].
  { by apply (proj1 (Forall_forall _ _) Hall). }
  cbn [greedy_walk ta_weight ta_value ta_selected].
  rewrite add_exact by (apply in_range_between; lia).
  destruct (Z.leb_spec (0 + Weight o) capacity); [|lia].
  destruct (greedy_walk_in_sequence capacity sorted
              (mkTally ([] ++ [o]) (0 + Weight o) (GoInt.add 0 (Value o))))
    as (chosen & Hsel & _).
  cbn [Orders]. rewrite Hsel. by exists chosen.
Qed.

(** X10, witness: the order of weight 1 and value 5 among three, capacity
    3. *)
Lemma greedy_takes_best_ratio_first_witness :
  ∃ others,
    Orders (@selectOrdersGreedy insertion
              [mkOrder 1 2 3; mkOrder 2 1 5; mkOrder 3 4 5] "robot" 3)
      = mkOrder 2 1 5 :: others.
Proof.
  apply (@greedy_takes_best_ratio_first insertion).
  - repeat constructor; simpl; rewrite ?max_int_value; lia.
  - rewrite !elem_of_cons. auto.
  - simpl. lia.
  - intros x Hx Hne. rewrite !elem_of_cons in Hx.
    destruct Hx as [->|[->|[->|Hx]]];
      [reflexivity|done|reflexivity|by apply elem_of_nil in Hx].
Defined.

(** * Further properties of the order pool *)

Lemma fetched_rows env s o :
  o ∈ fetched env s →
  ∃ r, r ∈ table s ∧ shipped_status r = "shipping" ∧
       o = mkOrder (row_id r) (row_weight r) (row_value r).
Proof.
  unfold fetched, GetShippingOrders. destruct (fetch_fault env); simpl.
  { intros Ho. by apply elem_of_nil in Ho. }
  intros Ho. apply list_elem_of_fmap in Ho as (r & -> & Hr).
  apply list_elem_of_filter in Hr as [Hstatus Hr]. by exists r.
Qed.

Lemma set_statuses_nil newStatus t : set_statuses [] newStatus t = t.
Proof.
  unfold set_statuses. induction t as [|r t IH]; [done|]. rewrite fmap_cons, IH.
  rewrite bool_decide_eq_false_2 by apply not_elem_of_nil. done.
Qed.

Lemma set_statuses_lookup orderIDs newStatus t i r :
  t !! i = Some r →
  ∃ r', set_statuses orderIDs newStatus t !! i = Some r' ∧
    row_id r' = row_id r ∧ row_weight r' = row_weight r ∧ row_value r' = row_value r ∧
    (row_id r ∈ orderIDs → shipped_status r' = newStatus) ∧
    (row_id r ∉ orderIDs → r' = r).
Proof.
  intros Hr. unfold set_statuses. rewrite list_lookup_fmap, Hr. simpl.
  eexists. split; [done|]. by case_bool_decide.
Qed.

Lemma fetched_set_statuses env orderIDs newStatus t sent1 sent2 :
  newStatus ≠ "shipping" →
  fetched env (mkStore (set_statuses orderIDs newStatus t) sent2) =
    filter (λ o, OrderID o ∉ orderIDs) (fetched env (mkStore t sent1)).
Proof.
  intros Hstatus. unfold fetched, GetShippingOrders.
  destruct (fetch_fault env); [done|]. cbn [fst table]. unfold set_statuses.
  induction t as [|r t IH]; [done|]. rewrite fmap_cons, !filter_cons.
  case_bool_decide as Hin.
  - cbn [shipped_status]. rewrite decide_False by done.
    destruct (decide (shipped_status r = "shipping")); [|done].
    rewrite fmap_cons, filter_cons. cbn [OrderID].
    by rewrite decide_False by (by intros ?).
  - destruct (decide (shipped_status r = "shipping")); [|done].
    rewrite !fmap_cons, filter_cons. cbn [OrderID].
    rewrite decide_True by done. by f_equal.
Qed.

Lemma filter_nothing_out (l : list Order) : filter (λ o, OrderID o ∉ @nil Z) l = l.
Proof.
  induction l as [|o l IH]; [done|]. rewrite filter_cons.
  rewrite decide_True by apply not_elem_of_nil. by f_equal.
Qed.

(** X11. The orders of a plan that a request returns are rows the table
    held with status 'shipping' when the request began, with that row's
    weight and value. The transaction and the deadline are as the
    specification describes them. *)
Theorem planned_orders_were_shipping `{SliceSorter} env ctx robotID capacity s s' plan :
  GenerateDeliveryPlan env ctx robotID capacity s = Done (s', Some plan, None) →
  ∀ o, o ∈ Orders plan →
    ∃ r, r ∈ table s ∧ shipped_status r = "shipping" ∧
         row_id r = OrderID o ∧ row_weight r = Weight o ∧ row_value r = Value o.
Proof.
  intros Hrun o Ho.
  pose proof (request_outcomes env ctx robotID capacity s) as Hout.
  rewrite Hrun in Hout. destruct Hout as (_ & _ & Hsel & _).
  apply (selection_chooses_given _ _ _ _ _ _ Hsel) in Ho.
  apply fetched_rows in Ho as (r & Hr & Hstatus & ->). by exists r.
Qed.

(** X11, witness: of three rows the second is already 'delivering'; with
    capacity 5 the plan holds the third. *)
Lemma planned_orders_were_shipping_witness :
  ∃ r, r ∈ [mkRow 1 2 3 "shipping"; mkRow 2 3 4 "delivering"; mkRow 3 4 5 "shipping"] ∧
       shipped_status r = "shipping" ∧
       row_id r = 3 ∧ row_weight r = 4 ∧ row_value r = 5.
Proof.
  apply (@planned_orders_were_shipping insertion (mkEnv None None None background)
           background "robot" 5
           (mkStore [mkRow 1 2 3 "shipping"; mkRow 2 3 4 "delivering";
                     mkRow 3 4 5 "shipping"] [])
           (mkStore [mkRow 1 2 3 "shipping"; mkRow 2 3 4 "delivering";
                     mkRow 3 4 5 "delivering"] [([3], "delivering")])
           (mkPlan "robot" 4 5 [mkOrder 3 4 5]) eq_refl (mkOrder 3 4 5)).
  cbn [Orders]. rewrite elem_of_cons. by left.
Defined.

(** X12. A request changes nothing of the table but the status of the rows
    whose identifier its plan holds, which become 'delivering': the table
    keeps its length, every row keeps its identifier, weight and value, and
    a row whose identifier is not in the returned plan (any row, when no plan
    is returned) is the same as before. *)
Theorem request_changes_only_claimed_rows `{SliceSorter}
    env ctx robotID capacity s s' result err :
  GenerateDeliveryPlan env ctx robotID capacity s = Done (s', result, err) →
  length (table s') = length (table s) ∧
  ∀ i r, table s !! i = Some r →
    ∃ r', table s' !! i = Some r' ∧
      row_id r' = row_id r ∧ row_weight r' = row_weight r ∧
      row_value r' = row_value r ∧
      (row_id r ∈ claimed_ids result → shipped_status r' = "delivering") ∧
      (row_id r ∉ claimed_ids result → r' = r).
Proof.
  intros Hrun.
  pose proof (request_outcomes env ctx robotID capacity s) as Hout.
  rewrite Hrun in Hout.
  assert (table s' = set_statuses (claimed_ids result) "delivering" (table s)) as ->.
  { destruct result as [plan|], err as [e|]; try done.
    - destruct Hout as (_ & _ & _ & Hout). cbn [claimed_ids].
      destruct (Orders plan) as [|o chosen].
      + subst s'. by rewrite set_statuses_nil.
      + by destruct Hout as (_ & _ & -> & _).
    - by rewrite Hout, set_statuses_nil. }
  split.
  - unfold set_statuses. by rewrite length_fmap.
  - intros i r Hr. by apply set_statuses_lookup.
Qed.

(** X12, witness: the same request; the first row is not in the plan. *)
Lemma request_changes_only_claimed_rows_witness :
  ∃ r', [mkRow 1 2 3 "shipping"; mkRow 2 3 4 "delivering";
         mkRow 3 4 5 "delivering"] !! 0%nat = Some r' ∧
    row_id r' = 1 ∧ row_weight r' = 2 ∧ row_value r' = 3 ∧
    (1 ∈ [3] → shipped_status r' = "delivering") ∧
    (1 ∉ [3] → r' = mkRow 1 2 3 "shipping").
Proof.
  apply (proj2 (@request_changes_only_claimed_rows insertion
           (mkEnv None None None background) background "robot" 5
           (mkStore [mkRow 1 2 3 "shipping"; mkRow 2 3 4 "delivering";
                     mkRow 3 4 5 "shipping"] [])
           (mkStore [mkRow 1 2 3 "shipping"; mkRow 2 3 4 "delivering";
                     mkRow 3 4 5 "delivering"] [([3], "delivering")])
           (Some (mkPlan "robot" 4 5 [mkOrder 3 4 5])) None eq_refl) 0%nat
           (mkRow 1 2 3 "shipping") eq_refl).
Defined.

(** X13. After a request that returned a plan, the orders a fetch finds
    are those it found before less the ones whose identifier the plan
    holds: the same orders, each as many times, in whatever sequence the
    database returns them. *)
Theorem claimed_orders_leave_the_pool `{SliceSorter}
    env ctx robotID capacity s s' plan env' :
  GenerateDeliveryPlan env ctx robotID capacity s = Done (s', Some plan, None) →
  fetched env' s' ≡ₚ
    filter (λ o, OrderID o ∉ OrderID <$> Orders plan) (fetched env' s).
Proof.
  intros Hrun.
  pose proof (request_outcomes env ctx robotID capacity s) as Hout.
  rewrite Hrun in Hout. destruct Hout as (_ & _ & _ & Hout).
  destruct (Orders plan) as [|o chosen].
  - subst s'. by rewrite filter_nothing_out.
  - destruct Hout as (_ & _ & Htable & _). destruct s as [t snt], s' as [t' snt'].
    cbn [table] in Htable. subst t'.
    by rewrite (fetched_set_statuses env' _ "delivering" t snt snt').
Qed.

(** X13, witness: the same request; the next fetch finds the first row
    only. *)
Lemma claimed_orders_leave_the_pool_witness :
  fetched (mkEnv None None None background)
    (mkStore [mkRow 1 2 3 "shipping"; mkRow 2 3 4 "delivering";
              mkRow 3 4 5 "delivering"] [([3], "delivering")]) ≡ₚ
  filter (λ o, OrderID o ∉ OrderID <$> [mkOrder 3 4 5])
    (fetched (mkEnv None None None background)
       (mkStore [mkRow 1 2 3 "shipping"; mkRow 2 3 4 "delivering";
                 mkRow 3 4 5 "shipping"] [])).
Proof.
  apply (@claimed_orders_leave_the_pool insertion (mkEnv None None None background)
           background "robot" 5
           (mkStore [mkRow 1 2 3 "shipping"; mkRow 2 3 4 "delivering";
                     mkRow 3 4 5 "shipping"] [])
           (mkStore [mkRow 1 2 3 "shipping"; mkRow 2 3 4 "delivering";
                     mkRow 3 4 5 "delivering"] [([3], "delivering")])
           (mkPlan "robot" 4 5 [mkOrder 3 4 5])).
  vm_compute. reflexivity.
Defined.

(** X14. [UpdateOrderStatus] to 'delivering' or to 'completed' takes the
    order out of the pool: when it succeeds, a fetch finds the orders it
    found before less that one (the same orders, each as many times, in
    whatever sequence the database returns them), and no later request
    returns a plan holding that identifier. *)
Theorem status_change_withdraws_order `{SliceSorter} env ctx orderID newStatus s s' :
  newStatus = "delivering" ∨ newStatus = "completed" →
  UpdateOrderStatus env ctx orderID newStatus s = (s', None) →
  (∀ env', fetched env' s' ≡ₚ filter (λ o, OrderID o ≠ orderID) (fetched env' s)) ∧
  (∀ env' ctx' robotID capacity s'' plan,
     GenerateDeliveryPlan env' ctx' robotID capacity s' = Done (s'', Some plan, None) →
     orderID ∉ OrderID <$> Orders plan).
Proof.
  intros Hnamed Hrun.
  assert (newStatus ≠ "shipping") as Hstatus by (by destruct Hnamed as [->| ->]).
  assert (∀ env', fetched env' s' ≡ₚ filter (λ o, OrderID o ≠ orderID) (fetched env' s))
    as Hpool.
  { intros env'. unfold UpdateOrderStatus, WithTimeout, UpdateStatuses in Hrun.
    destruct (update_fault env); [done|]. injection Hrun as <-. destruct s as [t snt].
    cbn [table sent].
    rewrite (fetched_set_statuses env' [orderID] newStatus t snt) by done.
    erewrite list_filter_iff; [done|]. intros o. by rewrite list_elem_of_singleton. }
  split; [done|].
  intros env' ctx' robotID capacity s'' plan Hplan Hin.
  pose proof (request_outcomes env' ctx' robotID capacity s') as Hout.
  rewrite Hplan in Hout. destruct Hout as (_ & _ & Hsel & _).
  apply list_elem_of_fmap in Hin as (o & Hid & Ho).
  apply (selection_chooses_given _ _ _ _ _ _ Hsel) in Ho.
  rewrite Hpool in Ho. apply list_elem_of_filter in Ho as [Hne _]. done.
Qed.

(** X14, witness: order 1 is set to 'completed'; the next fetch finds
    order 3 only. *)
Lemma status_change_withdraws_order_witness :
  fetched (mkEnv None None None background)
    (mkStore [mkRow 1 2 3 "completed"; mkRow 3 4 5 "shipping"] [([1], "completed")]) ≡ₚ
  filter (λ o, OrderID o ≠ 1)
    (fetched (mkEnv None None None background)
       (mkStore [mkRow 1 2 3 "shipping"; mkRow 3 4 5 "shipping"] [])).
Proof.
  apply (proj1 (@status_change_withdraws_order insertion
           (mkEnv None None None background) background 1 "completed"
           (mkStore [mkRow 1 2 3 "shipping"; mkRow 3 4 5 "shipping"] [])
           (mkStore [mkRow 1 2 3 "completed"; mkRow 3 4 5 "shipping"]
                    [([1], "completed")])
           (or_intror eq_refl) eq_refl)).
Defined.

(** X15. [UpdateOrderStatus] writes the status whatever it was before:
    when it succeeds, setting an order to 'shipping' puts every row with
    that identifier back into the pool the next fetch finds, a delivered or
    completed one too. *)
Theorem status_shipping_returns_order env ctx orderID s s' :
  UpdateOrderStatus env ctx orderID "shipping" s = (s', None) →
  ∀ env' r, fetch_fault env' = None → r ∈ table s → row_id r = orderID →
    mkOrder orderID (row_weight r) (row_value r) ∈ fetched env' s'.
Proof.
  unfold UpdateOrderStatus, WithTimeout, UpdateStatuses. intros Hrun.
  destruct (update_fault env); [done|]. injection Hrun as <-.
  intros env' r Hfetch Hr Hid. unfold fetched, GetShippingOrders.
  rewrite Hfetch. cbn [fst table].
  apply list_elem_of_fmap.
  exists (mkRow (row_id r) (row_weight r) (row_value r) "shipping").
  split; [by rewrite Hid|]. apply list_elem_of_filter. split; [done|].
  unfold set_statuses. apply list_elem_of_fmap. exists r. split; [|done].
  rewrite bool_decide_eq_true_2; [done|]. rewrite Hid. by apply list_elem_of_singleton.
Qed.

(** X15, witness: order 1, already 'completed', is set to 'shipping'. *)
Lemma status_shipping_returns_order_witness :
  mkOrder 1 2 3 ∈
    fetched (mkEnv None None None background)
      (mkStore [mkRow 1 2 3 "shipping"; mkRow 3 4 5 "shipping"] [([1], "shipping")]).
Proof.
  apply (status_shipping_returns_order (mkEnv None None None background) background 1
           (mkStore [mkRow 1 2 3 "completed"; mkRow 3 4 5 "shipping"] [])
           (mkStore [mkRow 1 2 3 "shipping"; mkRow 3 4 5 "shipping"] [([1], "shipping")])
           eq_refl (mkEnv None None None background) (mkRow 1 2 3 "completed")).
  - reflexivity.
  - cbn [table]. rewrite elem_of_cons. by left.
  - reflexivity.
Defined.

(** * The listings *)

Lemma placeholders_app s1 s2 :
  placeholders (s1 +:+ s2) = (placeholders s1 + placeholders s2)%nat.
Proof. induction s1 as [|c s1 IH]; [done|]. simpl. rewrite IH. lia. Qed.

(** The cases of a listing: the tests on the request and the answers of
    the database. *)
Ltac listing_cases db :=
  repeat case_bool_decide;
  (destruct (SelectContext db _) as [rows|e];
   [destruct (GetContext db _) as [total|e]|]).

(** X16. Every statement [ListOrders] sends has as many question marks
    in its text as values bound to it, and the first value bound is the
    user's identifier: whatever the request holds, and whether the database
    answers or fails. *)
Theorem ListOrders_binds_every_placeholder ToUpper db userID req :
  Forall (λ st, placeholders (query st) = length (args st) ∧
                head (args st) = Some (IntArg userID))
    (ListOrders ToUpper db userID req).1.
Proof.
  unfold ListOrders. listing_cases db; cbn [fst]; repeat constructor.
Qed.

(** X17. The two statements of [ListOrders], built apart, filter alike:
    the listing binds the user's identifier, then the search pattern when a
    search is given (the text followed by [%] for the type 'prefix', enclosed
    in [%] otherwise), then the page size and the offset; the count that
    follows binds the same values but the last two. *)
Theorem ListOrders_counts_what_it_lists ToUpper db userID req :
  let pattern :=
    if bool_decide (Type_ req = "prefix") then Search req +:+ "%"
    else "%" +:+ Search req +:+ "%" in
  let filter_args :=
    IntArg userID :: (if bool_decide (Search req = "") then [] else [TextArg pattern]) in
  ∃ data rest,
    (ListOrders ToUpper db userID req).1 = data :: rest ∧
    args data = filter_args ++ [IntArg (PageSize req); IntArg (Offset req)] ∧
    Forall (λ count, args count = filter_args) rest.
Proof.
  unfold ListOrders. listing_cases db; cbn [fst]; eexists _, _;
    (split; [reflexivity|]); cbn [args]; repeat case_bool_decide; try done;
    split; try done; by repeat constructor.
Qed.

(** A database that fails only cuts the sequence of statements short. *)
Lemma ListOrders_log_prefix ToUpper db userID req :
  (ListOrders ToUpper db userID req).1 `prefix_of`
    (ListOrders ToUpper (mkDBTX orderRow (λ _, inl []) (λ _, inl 0)) userID req).1.
Proof.
  unfold ListOrders. cbn [SelectContext GetContext].
  listing_cases db; cbn [fst]; try done. all: by eexists [_].
Qed.

(** X18. The text of the statements [ListOrders] sends holds nothing of
    the request but three choices: whether a search is given, which of the
    four named sort fields is asked for (any other field reads as the order
    identifier), and whether the upper-cased sort order is DESC. Two requests
    that agree on these send the same texts, whatever the search text, the
    search type, the user, the page and the answers of the database. *)
Theorem ListOrders_text_is_fixed ToUpper db1 db2 userID1 userID2 req1 req2 :
  (Search req1 = "" ↔ Search req2 = "") →
  (SortField req1 = SortField req2 ∨
   ((SortField req1 ∉ named_sort_fields) ∧ (SortField req2 ∉ named_sort_fields))) →
  (ToUpper (SortOrder req1) = "DESC" ↔ ToUpper (SortOrder req2) = "DESC") →
  ∀ i st1 st2,
    (ListOrders ToUpper db1 userID1 req1).1 !! i = Some st1 →
    (ListOrders ToUpper db2 userID2 req2).1 !! i = Some st2 →
    query st1 = query st2.
Proof.
  intros Hsearch Hfield Horder i st1 st2 Hst1 Hst2.
  pose proof (prefix_lookup_Some _ _ _ _ Hst1
                (ListOrders_log_prefix ToUpper db1 userID1 req1)) as Hst1'.
  pose proof (prefix_lookup_Some _ _ _ _ Hst2
                (ListOrders_log_prefix ToUpper db2 userID2 req2)) as Hst2'.
  clear Hst1 Hst2. revert Hst1' Hst2'. unfold ListOrders. cbn [SelectContext GetContext].
  rewrite (bool_decide_ext (Search req2 ≠ "") (Search req1 ≠ "")) by tauto.
  rewrite (bool_decide_ext (ToUpper (SortOrder req2) = "DESC")
             (ToUpper (SortOrder req1) = "DESC")) by tauto.
  assert (∀ name, name ∈ named_sort_fields →
            bool_decide (SortField req2 = name) = bool_decide (SortField req1 = name))
    as Hnamed.
  { intros name Hname. apply bool_decide_ext.
    destruct Hfield as [->|[H1 H2]]; [done|].
    split; intros Heq; [by rewrite Heq in H2|by rewrite Heq in H1]. }
  rewrite !Hnamed by (unfold named_sort_fields; rewrite !elem_of_cons; tauto).
  clear. repeat case_bool_decide; cbn [fst]; destruct i as [|[|i]];
    cbn [lookup list_lookup]; intros Hst1 Hst2; try discriminate;
    injection Hst1 as <-; injection Hst2 as <-; reflexivity.
Qed.

(** X18, witness: the count statements of two requests that differ in the
    user, the search text and type, the sort field (neither a named one) and
    the page. *)
Lemma ListOrders_text_is_fixed_witness :
  let db := mkDBTX orderRow (λ _, inl []) (λ _, inl 0) in
  let nothing := mkStatement "" [] in
  query (default nothing
           ((ListOrders id db 1 (mkListRequest "tea" "prefix" "price" "asc" 10 0)).1
              !! 1%nat)) =
  query (default nothing
           ((ListOrders id db 2 (mkListRequest "a%' OR 1=1" "" "order_id" "" 20 40)).1
              !! 1%nat)).
Proof.
  cbv zeta.
  apply (ListOrders_text_is_fixed id (mkDBTX orderRow (λ _, inl []) (λ _, inl 0))
           (mkDBTX orderRow (λ _, inl []) (λ _, inl 0)) 1 2
           (mkListRequest "tea" "prefix" "price" "asc" 10 0)
           (mkListRequest "a%' OR 1=1" "" "order_id" "" 20 40)) with (i := 1%nat).
  - split; discriminate.
  - right. unfold named_sort_fields. cbn [SortField].
    rewrite !not_elem_of_cons.
    repeat split; try discriminate; apply not_elem_of_nil.
  - split; discriminate.
  - reflexivity.
  - reflexivity.
Defined.

(** Evaluates the number of question marks of every text that is written
    out. *)
Ltac count_closed :=
  repeat match goal with
  | |- context [placeholders ?s] =>
      lazymatch s with
      | context [SortField] => fail
      | context [SortOrder] => fail
      | _ => let n := eval vm_compute in (placeholders s) in
             change (placeholders s) with n
      end
  end.

(** X19. [ListProducts] binds to its listing the search pattern twice
    when a search is given (the text enclosed in [%], for the name and for
    the description), then the page size and the offset, and to the count
    that follows the same values but the last two. The count has as many
    question marks as values; the listing has as many as values and as the
    sort field and the sort order hold, both being written into its text as
    they are. *)
Theorem ListProducts_statements {Product} (db : DBTX Product) userID req :
  let pattern := "%" +:+ Search req +:+ "%" in
  let filter_args :=
    if bool_decide (Search req = "") then []
    else [TextArg pattern; TextArg pattern] in
  ∃ data rest,
    (ListProducts db userID req).1 = data :: rest ∧
    args data = filter_args ++ [IntArg (PageSize req); IntArg (Offset req)] ∧
    placeholders (query data) =
      (length (args data) + placeholders (SortField req)
       + placeholders (SortOrder req))%nat ∧
    Forall (λ count, args count = filter_args ∧
                     placeholders (query count) = length (args count)) rest.
Proof.
  unfold ListProducts. listing_cases db; cbn [fst]; eexists _, _;
    (split; [reflexivity|]); cbn [args query]; rewrite !placeholders_app;
    repeat case_bool_decide; try done;
    (split; [reflexivity|]);
    (split; [count_closed; cbn [length app]; lia|]);
    by repeat constructor.
Qed.

(** A database that fails only cuts the sequence of statements short. *)
Lemma ListProducts_log_prefix {Product} (db : DBTX Product) userID req :
  (ListProducts db userID req).1 `prefix_of`
    (ListProducts (mkDBTX Product (λ _, inl []) (λ _, inl 0)) userID req).1.
Proof.
  unfold ListProducts. cbn [SelectContext GetContext].
  listing_cases db; cbn [fst]; try done. all: by eexists [_].
Qed.

(** X20. The text of the statements [ListProducts] sends takes from the
    request the sort field, the sort order and whether a search is given:
    two requests that agree on these send the same texts, whatever the search
    text, the user and the page. *)
Theorem ListProducts_text_is_fixed {Product} (db1 db2 : DBTX Product)
    userID1 userID2 req1 req2 :
  (Search req1 = "" ↔ Search req2 = "") →
  SortField req1 = SortField req2 → SortOrder req1 = SortOrder req2 →
  ∀ i st1 st2,
    (ListProducts db1 userID1 req1).1 !! i = Some st1 →
    (ListProducts db2 userID2 req2).1 !! i = Some st2 →
    query st1 = query st2.
Proof.
  intros Hsearch Hfield Horder i st1 st2 Hst1 Hst2.
  pose proof (prefix_lookup_Some _ _ _ _ Hst1
                (ListProducts_log_prefix db1 userID1 req1)) as Hst1'.
  pose proof (prefix_lookup_Some _ _ _ _ Hst2
                (ListProducts_log_prefix db2 userID2 req2)) as Hst2'.
  clear Hst1 Hst2. revert Hst1' Hst2'. unfold ListProducts.
  cbn [SelectContext GetContext].
  rewrite (bool_decide_ext (Search req2 ≠ "") (Search req1 ≠ "")) by tauto.
  rewrite Hfield, Horder.
  clear. repeat case_bool_decide; cbn [fst]; destruct i as [|[|i]];
    cbn [lookup list_lookup]; intros Hst1 Hst2; try discriminate;
    injection Hst1 as <-; injection Hst2 as <-; reflexivity.
Qed.

(** X20, witness: the listings of two requests that differ in the user,
    the search text and the page. *)
Lemma ListProducts_text_is_fixed_witness :
  let db := mkDBTX Z (λ _, inl []) (λ _, inl 0) in
  let nothing := mkStatement "" [] in
  query (default nothing
           ((ListProducts db 1 (mkListRequest "tea" "" "value" "DESC" 10 0)).1
              !! 0%nat)) =
  query (default nothing
           ((ListProducts db 2 (mkListRequest "a%' OR 1=1" "" "value" "DESC" 20 40)).1
              !! 0%nat)).
Proof.
  cbv zeta.
  apply (ListProducts_text_is_fixed (mkDBTX Z (λ _, inl []) (λ _, inl 0))
           (mkDBTX Z (λ _, inl []) (λ _, inl 0)) 1 2
           (mkListRequest "tea" "" "value" "DESC" 10 0)
           (mkListRequest "a%' OR 1=1" "" "value" "DESC" 20 40)) with (i := 0%nat).
  - split; discriminate.
  - reflexivity.
  - reflexivity.
  - reflexivity.
  - reflexivity.
Defined.
